(** * Movie recommender CLI: remote catalogue client, session exclusion set,
      restaurant cache and the recommendation pipeline.

    Shallow embedding of
    - [src/common/tmdbService.ts]  (module [TmdbService]),
    - [src/index.ts]               (module [Index]),
    - [src/db/restaurantDb.ts]     (module [RestaurantDb]),
    - [src/cli/movie.ts]           (module [MovieCli]),
    and of the recommendation engine, whose source file
    ([src/movies/recommender.ts]) is not available and is therefore modelled
    from the specification (module [Engine]). *)

From Stdlib Require Import ZArith QArith Ascii String.
From stdpp Require Import gmap strings list pretty sorting.

Local Open Scope string_scope.
Local Open Scope Z_scope.

(** ** JavaScript preliminaries *)

(** An [async] function either resolves with a value or rejects (raises to
    the caller that awaits it).  A computation that awaits a line of input
    that never comes stays [Pending] for ever, and a loop that goes round
    without making progress has [Diverged]. *)
Inductive JsError := TypeError | OtherError.

Inductive Outcome (A : Type) :=
| Resolved (a : A)
| Rejected (e : JsError)
| Pending
| Diverged.
Arguments Resolved {A} a.
Arguments Rejected {A} e.
Arguments Pending {A}.
Arguments Diverged {A}.

(** Computations over a mutable state [S]. *)
Definition JsM (S A : Type) := S -> Outcome A * S.

Section Monad.
Context {S : Type}.

Definition ret {A} (a : A) : JsM S A := fun s => (Resolved a, s).
Definition throw {A} (e : JsError) : JsM S A := fun s => (Rejected e, s).
Definition lift {A} (o : Outcome A) : JsM S A := fun s => (o, s).

Definition bind {A B} (m : JsM S A) (k : A -> JsM S B) : JsM S B :=
  fun s =>
    match m s with
    | (Resolved a, s') => k a s'
    | (Rejected e, s') => (Rejected e, s')
    | (Pending, s') => (Pending, s')
    | (Diverged, s') => (Diverged, s')
    end.

Definition gets {A} (f : S -> A) : JsM S A := fun s => (Resolved (f s), s).
Definition modify (f : S -> S) : JsM S unit := fun s => (Resolved tt, f s).

(** [try { m } catch (error) { h }] *)
Definition try_catch {A} (m : JsM S A) (h : JsM S A) : JsM S A :=
  fun s =>
    match m s with
    | (Rejected _, s') => h s'
    | r => r
    end.
End Monad.

Notation "'let*' x ':=' m 'in' k" := (bind m (fun x => k))
  (at level 10, x name, m at level 100, k at level 200).
Notation "m ';;' k" := (bind m (fun _ => k))
  (at level 100, k at level 200, right associativity).

(** Running a computation on a part [S] of a larger state [T]. *)
Definition zoom {S T A} (get : T -> S) (set : S -> T -> T) (m : JsM S A) : JsM T A :=
  fun t => let '(r, s') := m (get t) in (r, set s' t).

(** [for (const x of xs) { body }] and an awaited [Promise.all(xs.map(f))],
    the calls being made in the order of the list. *)
Fixpoint for_each {S A} (xs : list A) (body : A -> JsM S unit) : JsM S unit :=
  match xs with
  | [] => ret tt
  | x :: rest => body x ;; for_each rest body
  end.

Fixpoint map_all {S A B} (f : A -> JsM S B) (xs : list A) : JsM S (list B) :=
  match xs with
  | [] => ret []
  | x :: rest => let* y := f x in let* ys := map_all f rest in ret (y :: ys)
  end.

(** Truthiness of a [string | undefined], as tested by [!x] and [x || y]. *)
Definition truthy (o : option string) : bool :=
  match o with
  | Some s => negb (String.eqb s "")
  | None => false
  end.

(** [a || b || c] over possibly undefined strings, with a final default. *)
Definition or_else (o : option string) (d : string) : string :=
  match o with
  | Some s => if String.eqb s "" then d else s
  | None => d
  end.

(** A value of TypeScript type [any] handed to [JSON.stringify], seen through
    what the service does with it: it tests its truthiness and serialises
    it.  [JSON.stringify] throws a [TypeError] on a cyclic object or a
    [BigInt]. *)
Inductive JsAny :=
| JsUndefined
| JsFalsy
| JsSerializable (text : string)
| JsUnserializable.

Definition js_truthy (v : JsAny) : bool :=
  match v with
  | JsUndefined | JsFalsy => false
  | JsSerializable _ | JsUnserializable => true
  end.

Definition JSON_stringify (v : JsAny) : Outcome string :=
  match v with
  | JsUndefined => Resolved "undefined"
  | JsFalsy => Resolved "null"
  | JsSerializable text => Resolved text
  | JsUnserializable => Rejected TypeError
  end.

(** *** Strings

    A string is read as a sequence of UTF-16 code units below 256, one
    character each (ASCII and Latin-1).  On these, [String.prototype.trim]
    and the white space skipped by [parseInt] are the code units 9 to 13, 32
    and 160 (the no-break space), and [toLowerCase] lowers A-Z and the
    Latin-1 capitals 192 to 222 other than 215, each by adding 32.
    [parseInt] follows the standard: leading white space, a sign, an
    optional [0x] prefix, then the longest run of digits; [None] stands for
    [NaN].  The value is the integer the digits denote, which is the
    JavaScript number as long as it is a safe integer. *)
Definition code (c : ascii) : Z := Z.of_N (N_of_ascii c).

Definition is_upper (c : ascii) : bool :=
  ((65 <=? code c) && (code c <=? 90))
  || ((192 <=? code c) && (code c <=? 222) && negb (code c =? 215)).

Definition lower_unit (c : ascii) : ascii :=
  if is_upper c then ascii_of_N (Z.to_N (code c + 32)) else c.

Fixpoint toLowerCase (s : string) : string :=
  match s with
  | EmptyString => EmptyString
  | String c rest => String (lower_unit c) (toLowerCase rest)
  end.

Definition is_space (c : ascii) : bool :=
  (code c =? 32) || ((9 <=? code c) && (code c <=? 13)) || (code c =? 160).

(** [Number.MAX_SAFE_INTEGER]: up to it in magnitude, every integer is a
    JavaScript number and [parseInt] is exact. *)
Definition MAX_SAFE_INTEGER : Z := 2 ^ 53 - 1.

(** What [parseInt] gave is [NaN] or a safe integer. *)
Definition safe_integer (parsed : option Z) : Prop :=
  match parsed with
  | Some n => Z.abs n <= MAX_SAFE_INTEGER
  | None => True
  end.

Fixpoint trimStart (s : string) : string :=
  match s with
  | EmptyString => EmptyString
  | String c rest => if is_space c then trimStart rest else s
  end.

Definition reverse_string (s : string) : string :=
  string_of_list_ascii (rev (list_ascii_of_string s)).

Definition trim (s : string) : string :=
  reverse_string (trimStart (reverse_string (trimStart s))).

Definition digit_of (radix : Z) (c : ascii) : option Z :=
  let n := code c in
  let d := if (48 <=? n) && (n <=? 57) then Some (n - 48)
           else if (97 <=? n) && (n <=? 122) then Some (n - 87)
           else if (65 <=? n) && (n <=? 90) then Some (n - 55)
           else None in
  match d with
  | Some v => if v <? radix then Some v else None
  | None => None
  end.

Fixpoint digits (radix : Z) (s : string) (acc : option Z) : option Z :=
  match s with
  | EmptyString => acc
  | String c rest =>
      match digit_of radix c with
      | Some d => digits radix rest (Some (default 0 acc * radix + d))
      | None => acc
      end
  end.

Definition parse_unsigned (s : string) : option Z :=
  match s with
  | String "0" (String "x" rest) | String "0" (String "X" rest) => digits 16 rest None
  | _ => digits 10 s None
  end.

Definition parseInt (s : string) : option Z :=
  match trimStart s with
  | String "-" rest => Z.opp <$> parse_unsigned rest
  | String "+" rest => parse_unsigned rest
  | t => parse_unsigned t
  end.

(** [s.split(',')] *)
Fixpoint split_comma_aux (s : string) (current : string) : list string :=
  match s with
  | EmptyString => [reverse_string current]
  | String c rest =>
      if code c =? 44 then reverse_string current :: split_comma_aux rest EmptyString
      else split_comma_aux rest (String c current)
  end.

Definition split_comma (s : string) : list string := split_comma_aux s EmptyString.

(** [s.split(',').map(x => x.trim()).filter(Boolean)] *)
Definition comma_list (s : string) : list string :=
  List.filter (fun x => negb (String.eqb x "")) (map trim (split_comma s)).

(** ** src/common/tmdbService.ts *)
Module TmdbService.

Record Genre := { genre_id : Z; genre_name : string }.

Record TMDBMovie := {
  tm_id : Z;
  tm_title : string;
  tm_overview : string;
  tm_release_date : option string;
  tm_vote_count : Z;
  tm_genre_ids : option (list Z);
  tm_runtime : option Z;
  tm_original_language : option string;
  tm_tagline : option string
}.

Record TMDBPaginatedResponse := {
  page : Z;
  results : list TMDBMovie;
  total_pages : Z;
  total_results : Z
}.

(** A parsed JSON body, by the shapes the service's callers read.  Types
    are erased at run time: [fetchTMDB<T>] returns whatever was parsed. *)
Inductive Json :=
| JEmpty
| JGenres (genres : list Genre)
| JPage (p : TMDBPaginatedResponse)
| JMovie (m : TMDBMovie)
| JError (status_message message : option string).

(** [response.json()]: rejects on an unparsable body, and may well parse
    the JSON literal [null]. *)
Inductive Body :=
| Unparsable
| JsonNull
| JsonValue (j : Json).

Record Response := {
  status : Z;
  statusText : string;
  body : Body
}.

Definition ok (r : Response) : bool :=
  (200 <=? status r) && (status r <=? 299).

(** What [fetch(url, options)] does: it rejects (transport failure) or
    resolves with a response. *)
Inductive FetchResult :=
| NetworkError
| Responded (r : Response).

Inductive Method := GET | POST.

Inductive ParamValue :=
| PStr (s : string)
| PNum (n : Z)
| PBool (b : bool).

(** [String(v)] *)
Definition String_of (v : ParamValue) : string :=
  match v with
  | PStr s => s
  | PNum n => pretty n
  | PBool true => "true"
  | PBool false => "false"
  end.

(** The request as [fetch] receives it: the URL is kept as the endpoint
    and its list of query parameters. *)
Record Request := {
  req_endpoint : string;
  req_query : list (string * string);
  req_method : Method;
  req_authorization : option string;
  req_content_type : option string;
  req_body : option string
}.

(** [URLSearchParams.set]: overwrite the first occurrence and delete the
    others, or append. *)
Fixpoint query_remove (k : string) (q : list (string * string)) :=
  match q with
  | [] => []
  | (k', v') :: rest =>
      if String.eqb k k' then query_remove k rest
      else (k', v') :: query_remove k rest
  end.

Fixpoint query_set (k v : string) (q : list (string * string)) :=
  match q with
  | [] => [(k, v)]
  | (k', v') :: rest =>
      if String.eqb k k' then (k, v) :: query_remove k rest
      else (k', v') :: query_set k v rest
  end.

Inductive AuthMethod := Bearer | ApiKeyV3.
Inductive ItemKind := KMovie | KTv.

(** One constructor per [console.*] call of the module. *)
Inductive LogEntry :=
| LogMissingCredentials
| LogFallbackApiKey
| LogApiError (status : Z) (endpoint : string) (auth : AuthMethod) (message : string)
| LogInvalidCredential (auth : AuthMethod)
| LogVerifyToken
| LogNetworkError (endpoint : string)
| LogGenresCached (kind : ItemKind).

(** [process.env] as read when the module is loaded. *)
Record Env := {
  TMDB_API_READ_ACCESS_TOKEN : option string;
  TMDB_API_KEY_V3 : option string
}.

(** The module's mutable state, with the console and the list of requests
    handed to [fetch] so far (oldest first). *)
Record Svc := {
  console : list LogEntry;
  sent : list Request;
  movieGenreListCache : option (list Genre);
  tvGenreListCache : option (list Genre)
}.

Definition fresh : Svc :=
  {| console := []; sent := []; movieGenreListCache := None; tvGenreListCache := None |}.

(** The remote side: the answer to the [n]-th request. *)
Definition Net := nat -> Request -> FetchResult.

Definition M := JsM Svc.

Definition log (e : LogEntry) : M unit :=
  fun s => (Resolved tt,
            {| console := (console s ++ [e])%list; sent := sent s;
               movieGenreListCache := movieGenreListCache s;
               tvGenreListCache := tvGenreListCache s |}).

Definition do_fetch (net : Net) (rq : Request) : M FetchResult :=
  fun s => (Resolved (net (length (sent s)) rq),
            {| console := console s; sent := (sent s ++ [rq])%list;
               movieGenreListCache := movieGenreListCache s;
               tvGenreListCache := tvGenreListCache s |}).

Definition error_message (r : Response) : Outcome string :=
  match body r with
  | Unparsable => Resolved "Failed to parse error JSON from TMDB API response."
  | JsonNull => Rejected TypeError
  | JsonValue (JError sm m) => Resolved (or_else sm (or_else m (statusText r)))
  | JsonValue _ => Resolved (statusText r)
  end.

Definition response_json (r : Response) : Outcome (option Json) :=
  match body r with
  | Unparsable => Rejected TypeError
  | JsonNull => Resolved None
  | JsonValue j => Resolved (Some j)
  end.

Section WithEnv.
Variable env : Env.
Variable net : Net.

Definition authMethodUsed : AuthMethod :=
  if truthy (TMDB_API_READ_ACCESS_TOKEN env) then Bearer else ApiKeyV3.

Definition fetchTMDB (endpoint : string) (params : list (string * ParamValue))
    (method : Method) (body : JsAny) : M (option Json) :=
  if negb (truthy (TMDB_API_READ_ACCESS_TOKEN env)) && negb (truthy (TMDB_API_KEY_V3 env))
  then let* _ := log LogMissingCredentials in ret None
  else
    let query := map (fun kv => (fst kv, String_of (snd kv))) params in
    let* rq0 :=
      if truthy (TMDB_API_READ_ACCESS_TOKEN env) then
        ret {| req_endpoint := endpoint; req_query := query; req_method := method;
               req_authorization :=
                 Some ("Bearer " ++ default "" (TMDB_API_READ_ACCESS_TOKEN env));
               req_content_type := None; req_body := None |}
      else if truthy (TMDB_API_KEY_V3 env) then
        let* _ := log LogFallbackApiKey in
        ret {| req_endpoint := endpoint;
               req_query := query_set "api_key" (default "" (TMDB_API_KEY_V3 env)) query;
               req_method := method; req_authorization := None;
               req_content_type := None; req_body := None |}
      else
        ret {| req_endpoint := endpoint; req_query := query; req_method := method;
               req_authorization := None; req_content_type := None; req_body := None |}
    in
    let* rq :=
      match method with
      | POST =>
          if js_truthy body then
            let* text := lift (JSON_stringify body) in
            ret {| req_endpoint := req_endpoint rq0; req_query := req_query rq0;
                   req_method := req_method rq0;
                   req_authorization := req_authorization rq0;
                   req_content_type := Some "application/json";
                   req_body := Some text |}
          else ret rq0
      | GET => ret rq0
      end
    in
    try_catch
      (let* response := do_fetch net rq in
       match response with
       | NetworkError => throw TypeError
       | Responded r =>
           if negb (ok r) then
             let* msg := lift (error_message r) in
             let* _ := log (LogApiError (status r) endpoint authMethodUsed msg) in
             let* _ :=
               if status r =? 401 then
                 let* _ := log (LogInvalidCredential authMethodUsed) in
                 log LogVerifyToken
               else ret tt
             in
             ret None
           else if status r =? 204 then ret (Some JEmpty)
           else lift (response_json r)
       end)
      (let* _ := log (LogNetworkError endpoint) in ret None).

Definition getMovieDetails (movieId : Z) : M (option Json) :=
  fetchTMDB ("movie/" ++ pretty movieId)
    [("append_to_response", PStr "credits,reviews,watch/providers,external_ids")]
    GET JsUndefined.

Definition getPopularMovies (page : Z) : M (option Json) :=
  fetchTMDB "movie/popular" [("page", PNum page)] GET JsUndefined.

Definition searchMovies (query : string) (page : Z) (year : option Z) : M (option Json) :=
  let params := [("query", PStr query); ("page", PNum page)] in
  let params :=
    match year with
    | Some y => if y =? 0 then params else (params ++ [("year", PNum y)])%list
    | None => params
    end in
  fetchTMDB "search/movie" params GET JsUndefined.

Definition getMovieRecommendations (movieId : Z) (page : Z) : M (option Json) :=
  fetchTMDB ("movie/" ++ pretty movieId ++ "/recommendations")
    [("page", PNum page)] GET JsUndefined.

Definition getTvShowDetails (tvId : Z) : M (option Json) :=
  fetchTMDB ("tv/" ++ pretty tvId)
    [("append_to_response", PStr "credits,reviews,watch/providers,external_ids")]
    GET JsUndefined.

Definition getPopularTvShows (page : Z) : M (option Json) :=
  fetchTMDB "tv/popular" [("page", PNum page)] GET JsUndefined.

Definition getTvShowRecommendations (tvId : Z) (page : Z) : M (option Json) :=
  fetchTMDB ("tv/" ++ pretty tvId ++ "/recommendations")
    [("page", PNum page)] GET JsUndefined.

Definition getTvShowSeasonDetails (tvId seasonNumber : Z) : M (option Json) :=
  fetchTMDB ("tv/" ++ pretty tvId ++ "/season/" ++ pretty seasonNumber) [] GET JsUndefined.

Definition searchTvShows (query : string) (page : Z) (first_air_date_year : option Z)
  : M (option Json) :=
  let params := [("query", PStr query); ("page", PNum page)] in
  let params :=
    match first_air_date_year with
    | Some y => if y =? 0 then params
                else (params ++ [("first_air_date_year", PNum y)])%list
    | None => params
    end in
  fetchTMDB "search/tv" params GET JsUndefined.

Definition getMovieWatchProviders : M (option Json) :=
  fetchTMDB "watch/providers/movie" [] GET JsUndefined.

Definition getTvWatchProviders : M (option Json) :=
  fetchTMDB "watch/providers/tv" [] GET JsUndefined.

(** *** Genre lists (cached) *)

Definition genreListCache (k : ItemKind) (s : Svc) : option (list Genre) :=
  match k with
  | KMovie => movieGenreListCache s
  | KTv => tvGenreListCache s
  end.

Definition set_genreListCache (k : ItemKind) (gs : list Genre) : M unit :=
  fun s =>
    (Resolved tt,
     match k with
     | KMovie => {| console := console s; sent := sent s;
                    movieGenreListCache := Some gs;
                    tvGenreListCache := tvGenreListCache s |}
     | KTv => {| console := console s; sent := sent s;
                 movieGenreListCache := movieGenreListCache s;
                 tvGenreListCache := Some gs |}
     end).

Definition genre_endpoint (k : ItemKind) : string :=
  match k with
  | KMovie => "genre/movie/list"
  | KTv => "genre/tv/list"
  end.

(** [response.genres], when truthy. *)
Definition response_genres (j : Json) : option (list Genre) :=
  match j with
  | JGenres gs => Some gs
  | _ => None
  end.

(** The two copies [getMovieGenreList] and [getTvShowGenreList] differ
    only in the cache variable and the endpoint. *)
Definition getGenreList (k : ItemKind) : M (list Genre) :=
  fun s =>
    match genreListCache k s with
    | Some cached => (Resolved cached, s)
    | None =>
        (let* response := fetchTMDB (genre_endpoint k) [] GET JsUndefined in
         match response ≫= response_genres with
         | Some gs =>
             let* _ := set_genreListCache k gs in
             let* _ := log (LogGenresCached k) in
             ret gs
         | None => ret []
         end) s
    end.

Definition getMovieGenreList : M (list Genre) := getGenreList KMovie.
Definition getTvShowGenreList : M (list Genre) := getGenreList KTv.

(** [genre_ids.map(id => full.find(g => g.id === id)).filter(g => g !== undefined)] *)
Definition resolve_genres (fullGenreList : list Genre) (genre_ids : list Z) : list Genre :=
  omap id (map (fun i => List.find (fun g => genre_id g =? i) fullGenreList) genre_ids).

Definition mapGenreIdsToObjects (k : ItemKind) (genre_ids : option (list Z)) : M (list Genre) :=
  match genre_ids with
  | None | Some [] => ret []
  | Some ids =>
      let* fullGenreList := getGenreList k in
      ret (resolve_genres fullGenreList ids)
  end.

Definition mapMovieGenreIdsToObjects := mapGenreIdsToObjects KMovie.
Definition mapTvGenreIdsToObjects := mapGenreIdsToObjects KTv.

(** The exported operations that go to the remote source, as calls. *)
Inductive Call :=
| CallMovieDetails (movieId : Z)
| CallPopularMovies (page : Z)
| CallSearchMovies (query : string) (page : Z) (year : option Z)
| CallMovieRecommendations (movieId page : Z)
| CallTvShowDetails (tvId : Z)
| CallTvShowSeasonDetails (tvId seasonNumber : Z)
| CallPopularTvShows (page : Z)
| CallSearchTvShows (query : string) (page : Z) (year : option Z)
| CallTvShowRecommendations (tvId page : Z)
| CallMovieWatchProviders
| CallTvWatchProviders.

Definition run_call (c : Call) : M (option Json) :=
  match c with
  | CallMovieDetails i => getMovieDetails i
  | CallPopularMovies p => getPopularMovies p
  | CallSearchMovies q p y => searchMovies q p y
  | CallMovieRecommendations i p => getMovieRecommendations i p
  | CallTvShowDetails i => getTvShowDetails i
  | CallTvShowSeasonDetails i n => getTvShowSeasonDetails i n
  | CallPopularTvShows p => getPopularTvShows p
  | CallSearchTvShows q p y => searchTvShows q p y
  | CallTvShowRecommendations i p => getTvShowRecommendations i p
  | CallMovieWatchProviders => getMovieWatchProviders
  | CallTvWatchProviders => getTvWatchProviders
  end.

(** Any use of the module by the rest of the process: a remote call, a
    genre list, or a genre-id mapping; the state it leaves behind when it
    runs to its end before anything else does.  [uses] is a run of calls
    made one after the other, each awaited before the next begins; calls
    that overlap are the subject of [TmdbTasks]. *)
Inductive Use :=
| UseCall (c : Call)
| UseGenreList (k : ItemKind)
| UseMapGenreIds (k : ItemKind) (genre_ids : option (list Z)).

Definition use (u : Use) (s : Svc) : Svc :=
  match u with
  | UseCall c => snd (run_call c s)
  | UseGenreList k => snd (getGenreList k s)
  | UseMapGenreIds k ids => snd (mapGenreIdsToObjects k ids s)
  end.

Definition uses (us : list Use) (s : Svc) : Svc := fold_left (fun s u => use u s) us s.

End WithEnv.

(** *** Image URLs *)
Definition TMDB_IMAGE_BASE_URL : string := "https://image.tmdb.org/t/p/".

(** [size] is [None] where the caller leaves the parameter out. *)
Definition getPosterUrl (path : option string) (size : option string) : option string :=
  if truthy path
  then Some (TMDB_IMAGE_BASE_URL ++ default "w342" size ++ default "" path)
  else None.

Definition getStillUrl (path : option string) (size : option string) : option string :=
  if truthy path
  then Some (TMDB_IMAGE_BASE_URL ++ default "w300" size ++ default "" path)
  else None.

End TmdbService.

(** ** src/common/tmdbService.ts: calls that overlap

    An [async] function runs up to its first [await] when it is called, and
    goes on, one stretch at a time, once what it awaits has settled; between
    two stretches other calls may run theirs.  [fetchTMDB] awaits [fetch]
    and then [response.json()]; the genre lists await [fetchTMDB]; the
    genre-id mappers await their genre list.  Every call of [fetchTMDB] in
    the module is a GET without body. *)
Module TmdbTasks.
Import TmdbService.

(** Where a call of [fetchTMDB] stands. *)
Inductive Fetching :=
| AwaitingFetch (endpoint : string) (answer : FetchResult)
| AwaitingJson (endpoint : string) (response : Response)
| Returned (result : option Json).

(** A call that has begun and not yet answered its caller. *)
Inductive Task :=
| Wrapper (f : Fetching)
| GenreList (k : ItemKind) (f : Fetching)
| MapIds (k : ItemKind) (genre_ids : list Z) (fullGenreList : Fetching + list Genre).

Inductive Answer :=
| AnsweredJson (result : option Json)
| AnsweredGenres (genres : list Genre).

Section WithEnv.
Variable env : Env.
Variable net : Net.

(** [fetchTMDB(endpoint, params)] up to [await fetch(url, fetchOptions)]:
    the request is handed to [fetch].  Without credentials the function
    returns at once. *)
Definition fetch_begin (endpoint : string) (params : list (string * ParamValue))
  : M Fetching :=
  if negb (truthy (TMDB_API_READ_ACCESS_TOKEN env)) && negb (truthy (TMDB_API_KEY_V3 env))
  then let* _ := log LogMissingCredentials in ret (Returned None)
  else
    let query := map (fun kv => (fst kv, String_of (snd kv))) params in
    let* rq :=
      if truthy (TMDB_API_READ_ACCESS_TOKEN env) then
        ret {| req_endpoint := endpoint; req_query := query; req_method := GET;
               req_authorization :=
                 Some ("Bearer " ++ default "" (TMDB_API_READ_ACCESS_TOKEN env));
               req_content_type := None; req_body := None |}
      else if truthy (TMDB_API_KEY_V3 env) then
        let* _ := log LogFallbackApiKey in
        ret {| req_endpoint := endpoint;
               req_query := query_set "api_key" (default "" (TMDB_API_KEY_V3 env)) query;
               req_method := GET; req_authorization := None;
               req_content_type := None; req_body := None |}
      else
        ret {| req_endpoint := endpoint; req_query := query; req_method := GET;
               req_authorization := None; req_content_type := None; req_body := None |}
    in
    let* answer := do_fetch net rq in
    ret (AwaitingFetch endpoint answer).

(** The next stretch of [fetchTMDB]: from the settled [fetch] to
    [response.json()] or to a return, and from the settled
    [response.json()] to the return. *)
Definition fetch_resume (f : Fetching) : M Fetching :=
  match f with
  | AwaitingFetch endpoint NetworkError =>
      let* _ := log (LogNetworkError endpoint) in ret (Returned None)
  | AwaitingFetch endpoint (Responded r) =>
      if negb (ok r) then ret (AwaitingJson endpoint r)
      else if status r =? 204 then ret (Returned (Some JEmpty))
      else ret (AwaitingJson endpoint r)
  | AwaitingJson endpoint r =>
      try_catch
        (if negb (ok r) then
           let* msg := lift (error_message r) in
           let* _ := log (LogApiError (status r) endpoint (authMethodUsed env) msg) in
           let* _ :=
             if status r =? 401 then
               let* _ := log (LogInvalidCredential (authMethodUsed env)) in
               log LogVerifyToken
             else ret tt
           in
           ret (Returned None)
         else
           let* parsed := lift (response_json r) in
           ret (Returned parsed))
        (let* _ := log (LogNetworkError endpoint) in ret (Returned None))
  | Returned result => ret (Returned result)
  end.

(** The genre list after [await fetchTMDB(...)]. *)
Definition genre_list_resume (k : ItemKind) (response : option Json) : M (list Genre) :=
  match response ≫= response_genres with
  | Some gs =>
      let* _ := set_genreListCache k gs in
      let* _ := log (LogGenresCached k) in
      ret gs
  | None => ret []
  end.

(** The genre list up to [await fetchTMDB(...)], or its answer from the
    cache. *)
Definition genre_list_begin (k : ItemKind) : M (Fetching + list Genre) :=
  fun s =>
    match genreListCache k s with
    | Some cached => (Resolved (inr cached), s)
    | None => (let* f := fetch_begin (genre_endpoint k) [] in ret (inl f)) s
    end.

(** Endpoint and parameters of each exported wrapper. *)
Definition call_request (c : Call) : string * list (string * ParamValue) :=
  match c with
  | CallMovieDetails movieId =>
      ("movie/" ++ pretty movieId,
       [("append_to_response", PStr "credits,reviews,watch/providers,external_ids")])
  | CallPopularMovies page => ("movie/popular", [("page", PNum page)])
  | CallSearchMovies query page year =>
      ("search/movie",
       let params := [("query", PStr query); ("page", PNum page)] in
       match year with
       | Some y => if y =? 0 then params else (params ++ [("year", PNum y)])%list
       | None => params
       end)
  | CallMovieRecommendations movieId page =>
      ("movie/" ++ pretty movieId ++ "/recommendations", [("page", PNum page)])
  | CallTvShowDetails tvId =>
      ("tv/" ++ pretty tvId,
       [("append_to_response", PStr "credits,reviews,watch/providers,external_ids")])
  | CallTvShowSeasonDetails tvId seasonNumber =>
      ("tv/" ++ pretty tvId ++ "/season/" ++ pretty seasonNumber, [])
  | CallPopularTvShows page => ("tv/popular", [("page", PNum page)])
  | CallSearchTvShows query page year =>
      ("search/tv",
       let params := [("query", PStr query); ("page", PNum page)] in
       match year with
       | Some y => if y =? 0 then params
                   else (params ++ [("first_air_date_year", PNum y)])%list
       | None => params
       end)
  | CallTvShowRecommendations tvId page =>
      ("tv/" ++ pretty tvId ++ "/recommendations", [("page", PNum page)])
  | CallMovieWatchProviders => ("watch/providers/movie", [])
  | CallTvWatchProviders => ("watch/providers/tv", [])
  end.

(** Calling an exported function: it runs up to its first [await] and is
    then a task, unless it answers at once. *)
Definition begin (u : Use) : M (Task + Answer) :=
  match u with
  | UseCall c =>
      let* f := fetch_begin (fst (call_request c)) (snd (call_request c)) in
      ret (inl (Wrapper f))
  | UseGenreList k =>
      let* started := genre_list_begin k in
      match started with
      | inl f => ret (inl (GenreList k f))
      | inr cached => ret (inr (AnsweredGenres cached))
      end
  | UseMapGenreIds k genre_ids =>
      match genre_ids with
      | None | Some [] => ret (inr (AnsweredGenres []))
      | Some ids =>
          let* started := genre_list_begin k in
          ret (inl (MapIds k ids started))
      end
  end.

(** The next stretch of a task. *)
Definition advance (t : Task) : M (Task + Answer) :=
  match t with
  | Wrapper (Returned result) => ret (inr (AnsweredJson result))
  | Wrapper f => let* f' := fetch_resume f in ret (inl (Wrapper f'))
  | GenreList k (Returned response) =>
      let* gs := genre_list_resume k response in
      ret (inr (AnsweredGenres gs))
  | GenreList k f => let* f' := fetch_resume f in ret (inl (GenreList k f'))
  | MapIds k ids (inr fullGenreList) =>
      ret (inr (AnsweredGenres (resolve_genres fullGenreList ids)))
  | MapIds k ids (inl (Returned response)) =>
      let* gs := genre_list_resume k response in
      ret (inl (MapIds k ids (inr gs)))
  | MapIds k ids (inl f) =>
      let* f' := fetch_resume f in ret (inl (MapIds k ids (inl f')))
  end.

(** The module's state with the calls under way (oldest first) and the
    answers given so far. *)
Record Pool := {
  svc : Svc;
  tasks : list Task;
  answers : list Answer
}.

(** What the rest of the process can make happen next: call an exported
    function, or let the [i]-th task under way run its next stretch. *)
Inductive Action :=
| Spawn (u : Use)
| Advance (i : nat).

Definition settle (i : option nat) (r : Outcome (Task + Answer) * Svc) (p : Pool) : Pool :=
  let waiting := match i with Some i => delete i (tasks p) | None => tasks p end in
  match r with
  | (Resolved (inl t), s') =>
      {| svc := s';
         tasks := match i with
                  | Some i => <[i := t]> (tasks p)
                  | None => (tasks p ++ [t])%list
                  end;
         answers := answers p |}
  | (Resolved (inr a), s') =>
      {| svc := s'; tasks := waiting; answers := (answers p ++ [a])%list |}
  | (_, s') => {| svc := s'; tasks := waiting; answers := answers p |}
  end.

Definition act (a : Action) (p : Pool) : Pool :=
  match a with
  | Spawn u => settle None (begin u (svc p)) p
  | Advance i =>
      match tasks p !! i with
      | Some t => settle (Some i) (advance t (svc p)) p
      | None => p
      end
  end.

Definition run (acts : list Action) (p : Pool) : Pool :=
  fold_left (fun p a => act a p) acts p.

Definition idle (s : Svc) : Pool := {| svc := s; tasks := []; answers := [] |}.

End WithEnv.
End TmdbTasks.

(** ** src/index.ts *)
Module Index.

Inductive LogEntry :=
| LogStarting
| LogDatabaseEstablished
| LogShutDown
| LogUnhandledError (e : JsError)
| LogClosedOnError
| LogErrorClosing.

Inductive ExitStatus :=
| Exited (code : Z)
| NotExited.

Section Main.
(** Everything the process owns besides its console: the database, the
    terminal, the state of the modules it loads. *)
Context {W : Type}.

Record Proc := { world : W; console : list LogEntry }.

(** The imported functions, whose modules ([db/setup], [cli/main],
    [db/movieDb], [db/tvShowDb]) are taken as given. *)
Record Deps := {
  initDB : JsM W unit;
  getDB : JsM W unit;
  closeDB : JsM W unit;
  seedInitialGenericUsers : JsM W unit;
  seedInitialRestaurantPreferences : JsM W unit;
  seedInitialMoviePreferences : JsM W unit;
  seedInitialTvShowPreferences : JsM W unit;
  runMainCLI : JsM W unit
}.

Variable deps : Deps.

Definition print (e : LogEntry) : JsM Proc unit :=
  modify (fun p => {| world := world p; console := (console p ++ [e])%list |}).

Definition call {A} (m : JsM W A) : JsM Proc A :=
  zoom world (fun w p => {| world := w; console := console p |}) m.

Definition main : JsM Proc unit :=
  print LogStarting ;;
  call (initDB deps) ;;
  print LogDatabaseEstablished ;;
  call (seedInitialGenericUsers deps) ;;
  call (seedInitialRestaurantPreferences deps) ;;
  call (seedInitialMoviePreferences deps) ;;
  call (seedInitialTvShowPreferences deps) ;;
  call (runMainCLI deps) ;;
  call (getDB deps) ;;
  call (closeDB deps) ;;
  print LogShutDown.

(** The handler of [main().catch(...)], up to [process.exit(1)]. *)
Definition on_unhandled (err : JsError) : JsM Proc unit :=
  print (LogUnhandledError err) ;;
  try_catch
    (let* dbInstance := try_catch (call (getDB deps) ;; ret true) (ret false) in
     if dbInstance : bool then call (closeDB deps) ;; print LogClosedOnError
     else ret tt)
    (print LogErrorClosing).

(** The whole program: how the process ends, and in which state. *)
Definition program (p : Proc) : ExitStatus * Proc :=
  match main p with
  | (Resolved _, p') => (Exited 0, p')
  | (Rejected err, p') =>
      match on_unhandled err p' with
      | (Resolved _, p'') | (Rejected _, p'') => (Exited 1, p'')
      | (_, p'') => (NotExited, p'')
      end
  | (_, p') => (NotExited, p')
  end.
End Main.
Arguments Proc : clear implicits.
Arguments Deps : clear implicits.

End Index.

(** ** src/db/restaurantDb.ts *)
Module RestaurantDb.

(** [Omit<Restaurant, 'id'>] *)
Record RestaurantData := {
  googlePlaceId : string;
  name : string;
  address : string;
  cuisines : list string;
  dietaryOptions : list string;
  rating : Q
}.

(** A row of the table [restaurants]; the two list columns hold JSON text. *)
Record Row := {
  row_id : Z;
  row_googlePlaceId : string;
  row_name : string;
  row_address : string;
  row_cuisines : string;
  row_dietaryOptions : string;
  row_rating : Q
}.

(** What a caller receives as a [Restaurant]: the row as stored, or the
    row with its two JSON columns parsed. *)
Inductive Restaurant :=
| RawRow (r : Row)
| ParsedRow (r : Row) (cuisines dietaryOptions : list string).

Definition restaurant_row (r : Restaurant) : Row :=
  match r with RawRow r | ParsedRow r _ _ => r end.

(** The table, in rowid order. *)
Definition Table := list Row.

Section WithJson.
(** [JSON.stringify] and [JSON.parse] on arrays of strings, and the
    rowid SQLite gives to the next inserted row. *)
Variable JSON_stringify_list : list string -> string.
Variable JSON_parse_list : string -> Outcome (list string).
Variable next_rowid : Table -> Z.

(** [SELECT * FROM restaurants WHERE googlePlaceId = ?] through [db.get]:
    the first matching row. *)
Definition select_by_googlePlaceId (gpid : string) : JsM Table (option Row) :=
  gets (List.find (fun r => String.eqb (row_googlePlaceId r) gpid)).

Definition select_by_id (i : Z) : JsM Table (option Row) :=
  gets (List.find (fun r => row_id r =? i)).

(** [INSERT INTO restaurants (...) VALUES (...)] through [db.run],
    resolving with [lastID]; the column [googlePlaceId] is taken to be
    UNIQUE, which is the violation the caller's [catch] looks for. *)
Inductive DbFailure := UniqueConstraintFailed.

Definition insert_restaurant (d : RestaurantData) : JsM Table (DbFailure + Z) :=
  fun t =>
    if existsb (fun r => String.eqb (row_googlePlaceId r) (googlePlaceId d)) t
    then (Resolved (inl UniqueConstraintFailed), t)
    else
      let i := next_rowid t in
      (Resolved (inr i),
       (t ++ [ {| row_id := i;
                  row_googlePlaceId := googlePlaceId d;
                  row_name := name d;
                  row_address := address d;
                  row_cuisines := JSON_stringify_list (cuisines d);
                  row_dietaryOptions := JSON_stringify_list (dietaryOptions d);
                  row_rating := rating d |} ])%list).

(** [row.cuisines || '[]'] *)
Definition or_empty_array (s : string) : string :=
  if String.eqb s "" then "[]" else s.

Definition getRestaurantById (i : Z) : JsM Table (option Restaurant) :=
  let* row := select_by_id i in
  match row with
  | None => ret None
  | Some r =>
      let* cs := lift (JSON_parse_list (or_empty_array (row_cuisines r))) in
      let* ds := lift (JSON_parse_list (or_empty_array (row_dietaryOptions r))) in
      ret (Some (ParsedRow r cs ds))
  end.

Definition saveRestaurantToDb (restaurantData : RestaurantData)
  : JsM Table (option Restaurant) :=
  let* existing := select_by_googlePlaceId (googlePlaceId restaurantData) in
  match existing with
  | Some row => ret (Some (RawRow row))
  | None =>
      let* result := insert_restaurant restaurantData in
      match result with
      | inr lastID =>
          if lastID =? 0 then ret None
          else getRestaurantById lastID
      | inl UniqueConstraintFailed =>
          let* row := select_by_googlePlaceId (googlePlaceId restaurantData) in
          ret (RawRow <$> row)
      end
  end.
End WithJson.

End RestaurantDb.

(** ** src/db/restaurantDb.ts: the other tables and the fetch-and-save loop *)
Module RestaurantStore.
Import RestaurantDb.

(** A row of [users], as selected by [SELECT id, name FROM users]. *)
Record UserRow := { user_id : Z; user_name : string }.

Record RestaurantUserPreferences := {
  pref_user_id : Z;
  favoriteCuisines : list string;
  dietaryRestrictions : list string;
  minRating : Q
}.

(** A row of [user_restaurant_preferences], keyed by [user_id]; the two list
    columns hold JSON text. *)
Record PreferenceRow := {
  pr_favoriteCuisines : string;
  pr_dietaryRestrictions : string;
  pr_minRating : Q
}.

(** An entry of [mockUserRestaurantPreferences]; a field may be missing. *)
Record MockPreference := {
  mock_favoriteCuisines : option (list string);
  mock_dietaryRestrictions : option (list string);
  mock_minRating : option Q
}.

Inductive LogEntry :=
| LogEmptyLocation
| LogNoRestaurantsFromApi
| LogSavedSkipped (savedCount skippedCount : nat)
| LogSeeding
| LogSeeded (seededCount : nat).

(** The database file and the console. [user_restaurant_preferences] has one
    row per [user_id] (the conflict target of its upsert), and
    [user_restaurant_likes] one row per pair (the conflict target of its
    insert), kept in insertion order. *)
Record Db := {
  restaurants : Table;
  users : list UserRow;
  user_restaurant_preferences : gmap Z PreferenceRow;
  user_restaurant_likes : list (Z * Z);
  console : list LogEntry
}.

Definition set_restaurants (t : Table) (d : Db) : Db :=
  {| restaurants := t; users := users d;
     user_restaurant_preferences := user_restaurant_preferences d;
     user_restaurant_likes := user_restaurant_likes d; console := console d |}.

Definition set_preferences (m : gmap Z PreferenceRow) (d : Db) : Db :=
  {| restaurants := restaurants d; users := users d;
     user_restaurant_preferences := m;
     user_restaurant_likes := user_restaurant_likes d; console := console d |}.

Definition set_likes (l : list (Z * Z)) (d : Db) : Db :=
  {| restaurants := restaurants d; users := users d;
     user_restaurant_preferences := user_restaurant_preferences d;
     user_restaurant_likes := l; console := console d |}.

Definition log (e : LogEntry) : JsM Db unit :=
  modify (fun d =>
    {| restaurants := restaurants d; users := users d;
       user_restaurant_preferences := user_restaurant_preferences d;
       user_restaurant_likes := user_restaurant_likes d;
       console := (console d ++ [e])%list |}).

Definition on_restaurants {A} (m : JsM Table A) : JsM Db A :=
  zoom restaurants set_restaurants m.

Section WithJson.
Variable JSON_stringify_list : list string -> string.
Variable JSON_parse_list : string -> Outcome (list string).
Variable next_rowid : Table -> Z.
(** [fetchRestaurantsFromGooglePlaces] of [restaurants/googleApiService],
    taken as given: what it resolves with for a location query. *)
Variable fetchRestaurantsFromGooglePlaces : string -> Outcome (option (list RestaurantData)).
(** The constant [mockUserRestaurantPreferences], taken as given. *)
Variable mockUserRestaurantPreferences : list MockPreference.

Definition parse_row (row : Row) : JsM Db Restaurant :=
  let* cs := lift (JSON_parse_list (or_empty_array (row_cuisines row))) in
  let* ds := lift (JSON_parse_list (or_empty_array (row_dietaryOptions row))) in
  ret (ParsedRow row cs ds).

Definition getAllRestaurantsFromDb : JsM Db (list Restaurant) :=
  let* rows := gets restaurants in
  map_all parse_row rows.

(** [SELECT COUNT( * ) as c FROM restaurants WHERE googlePlaceId = ? AND id != ?] *)
Definition isRestaurantPreviouslySaved (googlePlaceId : string) (currentIdInDb : Z)
  : JsM Db bool :=
  let* c := gets (fun d =>
    length (List.filter
              (fun r => String.eqb (row_googlePlaceId r) googlePlaceId
                        && negb (row_id r =? currentIdInDb))
              (restaurants d))) in
  ret (0 <? Z.of_nat c).

(** The [for (const resto of restaurantsFromApi)] loop with its counters. *)
Fixpoint save_each (restaurantsFromApi : list RestaurantData)
    (savedCount skippedCount : nat) : JsM Db (nat * nat) :=
  match restaurantsFromApi with
  | [] => ret (savedCount, skippedCount)
  | resto :: rest =>
      let* saved :=
        on_restaurants
          (saveRestaurantToDb JSON_stringify_list JSON_parse_list next_rowid resto) in
      match saved with
      | Some record =>
          let* previously :=
            isRestaurantPreviouslySaved (RestaurantDb.googlePlaceId resto)
              (row_id (restaurant_row record)) in
          if previously then save_each rest savedCount (S skippedCount)
          else save_each rest (S savedCount) skippedCount
      | None => save_each rest savedCount (S skippedCount)
      end
  end.

Definition fetchAndSaveRestaurantsToDb (locationQuery : string) : JsM Db unit :=
  if String.eqb (trim locationQuery) "" then log LogEmptyLocation
  else
    let* restaurantsFromApi := lift (fetchRestaurantsFromGooglePlaces locationQuery) in
    match restaurantsFromApi with
    | None | Some [] => log LogNoRestaurantsFromApi
    | Some found =>
        let* counts := save_each found 0%nat 0%nat in
        log (LogSavedSkipped (fst counts) (snd counts))
    end.

(** [INSERT ... ON CONFLICT(user_id) DO UPDATE SET ...] *)
Definition saveUserRestaurantPreferences (prefs : RestaurantUserPreferences)
  : JsM Db unit :=
  modify (fun d =>
    set_preferences
      (<[pref_user_id prefs :=
           {| pr_favoriteCuisines := JSON_stringify_list (favoriteCuisines prefs);
              pr_dietaryRestrictions := JSON_stringify_list (dietaryRestrictions prefs);
              pr_minRating := minRating prefs |}]>
         (user_restaurant_preferences d)) d).

Definition getUserRestaurantPreferences (userId : Z)
  : JsM Db (option RestaurantUserPreferences) :=
  let* row := gets (fun d => user_restaurant_preferences d !! userId) in
  match row with
  | None => ret None
  | Some r =>
      let* cs := lift (JSON_parse_list (or_empty_array (pr_favoriteCuisines r))) in
      let* ds := lift (JSON_parse_list (or_empty_array (pr_dietaryRestrictions r))) in
      ret (Some {| pref_user_id := userId; favoriteCuisines := cs;
                   dietaryRestrictions := ds; minRating := pr_minRating r |})
  end.

(** [SELECT id, name FROM users ORDER BY id ASC] *)
Definition by_id (u v : UserRow) : Prop := user_id u <= user_id v.

Definition by_id_dec (u v : UserRow) : Decision (by_id u v) :=
  Z_le_dec (user_id u) (user_id v).

Definition users_by_id (d : Db) : list UserRow :=
  @merge_sort UserRow by_id by_id_dec (users d).

Definition prefsToSeed (user : UserRow) (mockPreference : MockPreference)
  : RestaurantUserPreferences :=
  {| pref_user_id := user_id user;
     favoriteCuisines := default [] (mock_favoriteCuisines mockPreference);
     dietaryRestrictions := default [] (mock_dietaryRestrictions mockPreference);
     minRating := default (0 # 1) (mock_minRating mockPreference) |}.

Definition seedInitialRestaurantPreferences : JsM Db unit :=
  let* found := gets users_by_id in
  match found with
  | [] => ret tt
  | firstUser :: _ =>
      let* firstUserPref :=
        gets (fun d => user_restaurant_preferences d !! user_id firstUser) in
      match firstUserPref with
      | Some _ => ret tt
      | None =>
          log LogSeeding ;;
          (* i < Math.min(users.length, mockUserRestaurantPreferences.length) *)
          let pairs := zip found mockUserRestaurantPreferences in
          for_each pairs
            (fun um => saveUserRestaurantPreferences (prefsToSeed (fst um) (snd um))) ;;
          match pairs with
          | [] => ret tt
          | _ => log (LogSeeded (length pairs))
          end
      end
  end.

(** [INSERT ... ON CONFLICT(user_id, restaurant_id) DO NOTHING] *)
Definition recordUserRestaurantLike (userId restaurantId : Z) : JsM Db unit :=
  modify (fun d =>
    if bool_decide ((userId, restaurantId) ∈ user_restaurant_likes d) then d
    else set_likes (user_restaurant_likes d ++ [(userId, restaurantId)])%list d).

(** [SELECT restaurant_id FROM user_restaurant_likes WHERE user_id = ?] has
    no ORDER BY, so the order of the rows it answers is the engine's choice
    (the table's definition is not in this module either).
    [select_likes userId table] is the engine's answer; all that is known of
    it is that it holds the matching rows, each once. *)
Variable select_likes : Z -> list (Z * Z) -> list (Z * Z).

Definition answers_matching_rows : Prop :=
  forall userId table,
    select_likes userId table ≡ₚ List.filter (fun row => fst row =? userId) table.

Definition getLikedRestaurantIdsByUserId (userId : Z) : JsM Db (list Z) :=
  gets (fun d => map snd (select_likes userId (user_restaurant_likes d))).
End WithJson.

End RestaurantStore.

(** ** src/cli/movie.ts *)
Module MovieCli.
Import TmdbService.

Record User := { user_id : Z; user_name : string }.

(** The locally cached movie ([Movie] of [movies/types]). *)
Record Movie := {
  id : Z;
  tmdb_id : Z;
  title : string;
  release_date : option string;
  runtime : option Z;
  vote_count : Z;
  genres : list Genre;
  overview : option string
}.

Record UserMoviePreferences := {
  pref_user_id : Z;
  preferred_genres : option (list string);
  preferred_languages : option (list string);
  release_year_min : option Z;
  release_year_max : option Z;
  duration_min_minutes : option Z;
  duration_max_minutes : option Z;
  min_imdb_rating : option Q;
  preferred_streaming_providers : option (list string)
}.

Definition no_preferences (uid : Z) : UserMoviePreferences :=
  {| pref_user_id := uid; preferred_genres := None; preferred_languages := None;
     release_year_min := None; release_year_max := None;
     duration_min_minutes := None; duration_max_minutes := None;
     min_imdb_rating := None; preferred_streaming_providers := None |}.

Inductive Interaction := liked | disliked | skipped | quit.

(** What the CLI writes to the console (prompts are left out). *)
Inductive Out :=
| OutSummary (m : Movie)
| OutFetchingDetails (m : Movie)
| OutCouldNotFetchDetails
| OutErrorUpdatingDetails
| OutDetails (m : Movie) (details : Json)
| OutLiked (title : string)
| OutDisliked (title : string)
| OutInvalidAction
| OutNoRecommendations
| OutTryRatingMore
| OutHereAreRecommendations
| OutSkippingInvalid
| OutReturningToMenu
| OutFinishedPresenting
| OutNoMoviesFound
| OutSearchResults (shown : list TMDBMovie)
| OutNoDisplayableResults
| OutInvalidSelection
| OutManagePreferences
| OutGenreHint (names : list string) (more : bool)
| OutPreferencesUpdated
| OutNoPreferencesFound
| OutSetPreferencesHint
| OutMenu
| OutFetchingRecommendations
| OutRated (title : string) (rating : Z)
| OutInvalidOption.

(** History of the session, kept for the statements only: a movie shown as
    a recommendation, an id added to the session's exclusion set, a rating
    stored for a movie (named by its TMDB id). *)
Inductive Event :=
| Presented (tmdb : Z)
| Excluded (tmdb : Z)
| Rated (tmdb : Z) (score : Z).

Section WithCollaborators.
(** The database behind [db/movieDb], with the remote service's state. *)
Context {DB : Type}.

Record World := { svc : Svc; db : DB }.

(** [db/movieDb] and [movies/recommender], taken as given. *)
Record Collaborators := {
  saveMovie : Json -> JsM World (option Movie);
  saveUserMovieRating : Z -> Z -> Z -> JsM World unit;
  getRatedMovieIdsByUser : Z -> JsM World (list Z);
  getUserMoviePreferences : Z -> JsM World (option UserMoviePreferences);
  saveUserMoviePreferences : UserMoviePreferences -> JsM World unit;
  getMovieByOurId : Z -> JsM World (option Movie);
  getMovieRecommendationsForUser : User -> gset Z -> JsM World (list Movie)
}.

Variable deps : Collaborators.
Variable env : Env.
Variable net : Net.
(** [parseFloat], [None] standing for [NaN]. *)
Variable parseFloat : string -> option Q.

Record St := {
  world : World;
  stdin : list string;
  out : list Out;
  (** the object bound to [userMoviePrefs] in [runMovieCLI] *)
  userMoviePrefs : UserMoviePreferences;
  (** the [Set] object bound to [sessionPersistentExcludeTmdbIds] *)
  sessionPersistentExcludeTmdbIds : gset Z;
  trace : list Event
}.

Definition CliM := JsM St.

Definition set_world (w : World) (st : St) : St :=
  {| world := w; stdin := stdin st; out := out st;
     userMoviePrefs := userMoviePrefs st;
     sessionPersistentExcludeTmdbIds := sessionPersistentExcludeTmdbIds st;
     trace := trace st |}.
Definition set_stdin (l : list string) (st : St) : St :=
  {| world := world st; stdin := l; out := out st;
     userMoviePrefs := userMoviePrefs st;
     sessionPersistentExcludeTmdbIds := sessionPersistentExcludeTmdbIds st;
     trace := trace st |}.
Definition push_out (o : Out) (st : St) : St :=
  {| world := world st; stdin := stdin st; out := (out st ++ [o])%list;
     userMoviePrefs := userMoviePrefs st;
     sessionPersistentExcludeTmdbIds := sessionPersistentExcludeTmdbIds st;
     trace := trace st |}.
Definition set_prefs (p : UserMoviePreferences) (st : St) : St :=
  {| world := world st; stdin := stdin st; out := out st;
     userMoviePrefs := p;
     sessionPersistentExcludeTmdbIds := sessionPersistentExcludeTmdbIds st;
     trace := trace st |}.
Definition set_excl (e : gset Z) (st : St) : St :=
  {| world := world st; stdin := stdin st; out := out st;
     userMoviePrefs := userMoviePrefs st;
     sessionPersistentExcludeTmdbIds := e;
     trace := trace st |}.
Definition push_trace (e : Event) (st : St) : St :=
  {| world := world st; stdin := stdin st; out := out st;
     userMoviePrefs := userMoviePrefs st;
     sessionPersistentExcludeTmdbIds := sessionPersistentExcludeTmdbIds st;
     trace := (trace st ++ [e])%list |}.

Definition print (o : Out) : CliM unit := modify (push_out o).
Definition note (e : Event) : CliM unit := modify (push_trace e).
Definition ext {A} (m : JsM World A) : CliM A := zoom world set_world m.
Definition service {A} (m : JsM Svc A) : CliM A :=
  ext (zoom svc (fun s w => {| svc := s; db := db w |}) m).

(** [await ask(query)]: the next line of the terminal, if one ever comes. *)
Definition ask : CliM string :=
  fun st =>
    match stdin st with
    | [] => (Pending, st)
    | line :: rest => (Resolved line, set_stdin rest st)
    end.

(** [while (true) { body }], where [body] answers [Some a] to leave the
    loop with [a] and [None] to go round again.  Every loop of the CLI
    reads a line each time round, so the lines left bound the number of
    rounds; a round that reads nothing and goes on would spin for ever. *)
Fixpoint iterate {A} (n : nat) (body : CliM (option A)) (st : St) : Outcome A * St :=
  match n with
  | O => (Diverged, st)
  | S n' =>
      match body st with
      | (Resolved (Some a), st') => (Resolved a, st')
      | (Resolved None, st') =>
          if decide (length (stdin st') < length (stdin st))%nat
          then iterate n' body st'
          else (Diverged, st')
      | (Rejected e, st') => (Rejected e, st')
      | (Pending, st') => (Pending, st')
      | (Diverged, st') => (Diverged, st')
      end
  end.

Definition while_true {A} (body : CliM (option A)) : CliM A :=
  fun st => iterate (S (length (stdin st))) body st.

(** [persistentExcludeTmdbIds.add(id)] after a rating *)
Definition exclude (tmdb : Z) : CliM unit :=
  modify (fun st => set_excl ({[tmdb]} ∪ sessionPersistentExcludeTmdbIds st) st) ;;
  note (Excluded tmdb).

(** [await saveUserMovieRating(currentUser.id, movie.id, score)] *)
Definition rate (currentUser : User) (movie : Movie) (score : Z) : CliM unit :=
  ext (saveUserMovieRating deps (user_id currentUser) (id movie) score) ;;
  note (Rated (tmdb_id movie) score).

Definition displayMovieSummary (movie : Movie) : CliM unit :=
  print (OutSummary movie).

Definition viewAndInteractWithMovieDetails (movieToView : Movie) (currentUser : User)
  : CliM Interaction :=
  print (OutFetchingDetails movieToView) ;;
  let* tmdbDetails := service (getMovieDetails env net (tmdb_id movieToView)) in
  match tmdbDetails with
  | None => print OutCouldNotFetchDetails ;; displayMovieSummary movieToView
  | Some details =>
      let* updatedMovieInDb := ext (saveMovie deps details) in
      match updatedMovieInDb with
      | None => print OutErrorUpdatingDetails ;; displayMovieSummary movieToView
      | Some updated => print (OutDetails updated details)
      end
  end ;;
  while_true
    (let* answer := ask in
     let action := toLowerCase answer in
     if String.eqb action "l" then
       rate currentUser movieToView 5 ;;
       print (OutLiked (title movieToView)) ;;
       ret (Some liked)
     else if String.eqb action "d" then
       rate currentUser movieToView 1 ;;
       print (OutDisliked (title movieToView)) ;;
       ret (Some disliked)
     else if String.eqb action "n" then ret (Some skipped)
     else if String.eqb action "q" then ret (Some quit)
     else print OutInvalidAction ;; ret None).

(** The labelled loop [interactionLoop] for one shown movie. *)
Definition interactionLoop (currentUser : User) (movie : Movie) : CliM Interaction :=
  while_true
    (let* answer := ask in
     let action := toLowerCase answer in
     if String.eqb action "l" then
       rate currentUser movie 5 ;;
       print (OutLiked (title movie)) ;;
       exclude (tmdb_id movie) ;;
       ret (Some liked)
     else if String.eqb action "d" then
       rate currentUser movie 1 ;;
       print (OutDisliked (title movie)) ;;
       exclude (tmdb_id movie) ;;
       ret (Some disliked)
     else if String.eqb action "v" then
       let* interactionResult := viewAndInteractWithMovieDetails movie currentUser in
       match interactionResult with
       | liked | disliked => exclude (tmdb_id movie)
       | _ => ret tt
       end ;;
       ret (Some interactionResult)
     else if String.eqb action "n" then ret (Some skipped)
     else if String.eqb action "q" then ret (Some quit)
     else print OutInvalidAction ;; ret None).

(** The [while (currentRecommendationQueue.length > 0)] loop; the answer
    is [false] when the user quit to the menu. *)
Fixpoint present_queue (currentUser : User) (currentRecommendationQueue : list Movie)
    (sessionShownTmdbIds : gset Z) : CliM bool :=
  match currentRecommendationQueue with
  | [] => ret true
  | movie :: queue =>
      if (id movie =? 0) || (tmdb_id movie =? 0) then
        print OutSkippingInvalid ;;
        present_queue currentUser queue sessionShownTmdbIds
      else
        let* excluded :=
          gets (fun st => bool_decide (tmdb_id movie ∈ sessionPersistentExcludeTmdbIds st)) in
        if excluded || bool_decide (tmdb_id movie ∈ sessionShownTmdbIds) then
          present_queue currentUser queue sessionShownTmdbIds
        else
          displayMovieSummary movie ;;
          note (Presented (tmdb_id movie)) ;;
          let* interactionResult := interactionLoop currentUser movie in
          match interactionResult with
          | quit => print OutReturningToMenu ;; ret false
          | _ => present_queue currentUser queue ({[tmdb_id movie]} ∪ sessionShownTmdbIds)
          end
  end.

Definition presentMovieRecommendationsOneByOne (currentUser : User)
    (initialRecommendations : list Movie) : CliM unit :=
  match initialRecommendations with
  | [] => print OutNoRecommendations ;; print OutTryRatingMore
  | _ =>
      print OutHereAreRecommendations ;;
      let* finished := present_queue currentUser initialRecommendations ∅ in
      if finished : bool then print OutFinishedPresenting else ret tt
  end.

Definition searchAndSelectMovie : CliM (option TMDBMovie) :=
  let* answer := ask in
  let query := trim answer in
  if String.eqb query "" then ret None
  else
    let* searchResults := service (searchMovies env net query 1 None) in
    match searchResults with
    | None => print OutNoMoviesFound ;; ret None
    | Some (JPage p) =>
        match results p with
        | [] => print OutNoMoviesFound ;; ret None
        | _ =>
            let displayableResults := take 10 (results p) in
            print (OutSearchResults displayableResults) ;;
            match displayableResults with
            | [] => print OutNoDisplayableResults ;; ret None
            | _ =>
                let* movieIndex :=
                  while_true
                    (let* line := ask in
                     let choice := trim line in
                     if String.eqb choice "0" then ret (Some None)
                     else
                       match parseInt choice with
                       | Some parsedChoice =>
                           if (1 <=? parsedChoice)
                              && (parsedChoice <=? Z.of_nat (length displayableResults))
                           then ret (Some (Some (parsedChoice - 1)))
                           else print OutInvalidSelection ;; ret None
                       | None => print OutInvalidSelection ;; ret None
                       end) in
                match movieIndex with
                | None => ret None
                | Some i => ret (displayableResults !! Z.to_nat i)
                end
            end
        end
    | Some _ =>
        (* [searchResults.results] is undefined: reading [.length] throws *)
        throw TypeError
    end.

Definition optional_list (s : string) : option (list string) :=
  if String.eqb s "" then None else Some (comma_list s).

Definition optional_list_lower (s : string) : option (list string) :=
  if String.eqb s "" then None
  else Some (List.filter (fun x => negb (String.eqb x ""))
               (map (fun x => toLowerCase (trim x)) (split_comma s))).

Definition optional_int (s : string) : option Z :=
  if String.eqb s "" then None else parseInt s.

Definition optional_float (s : string) : option Q :=
  if String.eqb s "" then None else parseFloat s.

(** [prefs.field = value] on the preferences object of the session. *)
Definition assign (f : UserMoviePreferences -> UserMoviePreferences) : CliM unit :=
  modify (fun st => set_prefs (f (userMoviePrefs st)) st).

Definition manageMoviePreferences : CliM unit :=
  print OutManagePreferences ;;
  let* allGenres := service (getMovieGenreList env net) in
  match allGenres with
  | [] => ret tt
  | _ => print (OutGenreHint (map genre_name (take 10 allGenres))
                  (bool_decide (10 < length allGenres)%nat))
  end ;;
  let* genresStr := ask in
  assign (fun p =>
    {| pref_user_id := pref_user_id p;
       preferred_genres := optional_list (trim genresStr);
       preferred_languages := preferred_languages p;
       release_year_min := release_year_min p; release_year_max := release_year_max p;
       duration_min_minutes := duration_min_minutes p;
       duration_max_minutes := duration_max_minutes p;
       min_imdb_rating := min_imdb_rating p;
       preferred_streaming_providers := preferred_streaming_providers p |}) ;;
  let* langsStr := ask in
  assign (fun p =>
    {| pref_user_id := pref_user_id p;
       preferred_genres := preferred_genres p;
       preferred_languages := optional_list_lower (trim langsStr);
       release_year_min := release_year_min p; release_year_max := release_year_max p;
       duration_min_minutes := duration_min_minutes p;
       duration_max_minutes := duration_max_minutes p;
       min_imdb_rating := min_imdb_rating p;
       preferred_streaming_providers := preferred_streaming_providers p |}) ;;
  let* yearMinStr := ask in
  assign (fun p =>
    {| pref_user_id := pref_user_id p;
       preferred_genres := preferred_genres p;
       preferred_languages := preferred_languages p;
       release_year_min := optional_int (trim yearMinStr);
       release_year_max := release_year_max p;
       duration_min_minutes := duration_min_minutes p;
       duration_max_minutes := duration_max_minutes p;
       min_imdb_rating := min_imdb_rating p;
       preferred_streaming_providers := preferred_streaming_providers p |}) ;;
  let* yearMaxStr := ask in
  assign (fun p =>
    {| pref_user_id := pref_user_id p;
       preferred_genres := preferred_genres p;
       preferred_languages := preferred_languages p;
       release_year_min := release_year_min p;
       release_year_max := optional_int (trim yearMaxStr);
       duration_min_minutes := duration_min_minutes p;
       duration_max_minutes := duration_max_minutes p;
       min_imdb_rating := min_imdb_rating p;
       preferred_streaming_providers := preferred_streaming_providers p |}) ;;
  let* durMinStr := ask in
  assign (fun p =>
    {| pref_user_id := pref_user_id p;
       preferred_genres := preferred_genres p;
       preferred_languages := preferred_languages p;
       release_year_min := release_year_min p; release_year_max := release_year_max p;
       duration_min_minutes := optional_int (trim durMinStr);
       duration_max_minutes := duration_max_minutes p;
       min_imdb_rating := min_imdb_rating p;
       preferred_streaming_providers := preferred_streaming_providers p |}) ;;
  let* durMaxStr := ask in
  assign (fun p =>
    {| pref_user_id := pref_user_id p;
       preferred_genres := preferred_genres p;
       preferred_languages := preferred_languages p;
       release_year_min := release_year_min p; release_year_max := release_year_max p;
       duration_min_minutes := duration_min_minutes p;
       duration_max_minutes := optional_int (trim durMaxStr);
       min_imdb_rating := min_imdb_rating p;
       preferred_streaming_providers := preferred_streaming_providers p |}) ;;
  let* tmdbRatingStr := ask in
  assign (fun p =>
    {| pref_user_id := pref_user_id p;
       preferred_genres := preferred_genres p;
       preferred_languages := preferred_languages p;
       release_year_min := release_year_min p; release_year_max := release_year_max p;
       duration_min_minutes := duration_min_minutes p;
       duration_max_minutes := duration_max_minutes p;
       min_imdb_rating := optional_float (trim tmdbRatingStr);
       preferred_streaming_providers := preferred_streaming_providers p |}) ;;
  let* providersStr := ask in
  assign (fun p =>
    {| pref_user_id := pref_user_id p;
       preferred_genres := preferred_genres p;
       preferred_languages := preferred_languages p;
       release_year_min := release_year_min p; release_year_max := release_year_max p;
       duration_min_minutes := duration_min_minutes p;
       duration_max_minutes := duration_max_minutes p;
       min_imdb_rating := min_imdb_rating p;
       preferred_streaming_providers := optional_list (trim providersStr) |}) ;;
  let* prefs := gets userMoviePrefs in
  ext (saveUserMoviePreferences deps prefs) ;;
  print OutPreferencesUpdated.

(** [case '2']: search, store and rate a movie. *)
Definition rateAMovie (currentUser : User) : CliM unit :=
  let* tmdbMovieFromSearch := searchAndSelectMovie in
  match tmdbMovieFromSearch with
  | None => ret tt
  | Some found =>
      let* detailedTmdbMovieData := service (getMovieDetails env net (tm_id found)) in
      match detailedTmdbMovieData with
      | None => ret tt
      | Some details =>
          let* movieInDb := ext (saveMovie deps details) in
          match movieInDb with
          | None => ret tt
          | Some movie =>
              displayMovieSummary movie ;;
              let* ratingStr := ask in
              match parseInt (trim ratingStr) with
              | Some rating =>
                  if (1 <=? rating) && (rating <=? 5) then
                    rate currentUser movie rating ;;
                    print (OutRated (title movie) rating) ;;
                    exclude (tmdb_id movie)
                  else ret tt
              | None => ret tt
              end
          end
      end
  end.

(** [case '3']: search a movie and view its details. *)
Definition searchAndView (currentUser : User) : CliM unit :=
  let* tmdbMovieFromSearch := searchAndSelectMovie in
  match tmdbMovieFromSearch with
  | None => ret tt
  | Some found =>
      let* detailedTmdbData := service (getMovieDetails env net (tm_id found)) in
      match detailedTmdbData with
      | None => ret tt
      | Some details =>
          let* movieToViewDetails := ext (saveMovie deps details) in
          match movieToViewDetails with
          | None => ret tt
          | Some movie =>
              let* interaction := viewAndInteractWithMovieDetails movie currentUser in
              match interaction with
              | liked | disliked => exclude (tmdb_id movie)
              | _ => ret tt
              end
          end
      end
  end.

(** [case '1']: the recommender receives a copy of the set. *)
Definition recommendOneByOne (currentUser : User) : CliM unit :=
  print OutFetchingRecommendations ;;
  let* copy := gets sessionPersistentExcludeTmdbIds in
  let* recommendations := ext (getMovieRecommendationsForUser deps currentUser copy) in
  presentMovieRecommendationsOneByOne currentUser recommendations.

(** One round of the menu loop; [Some tt] when the user leaves. *)
Definition menu (currentUser : User) : CliM (option unit) :=
  print OutMenu ;;
  let* answer := ask in
  let choice := trim answer in
  if String.eqb choice "1" then recommendOneByOne currentUser ;; ret None
  else if String.eqb choice "2" then rateAMovie currentUser ;; ret None
  else if String.eqb choice "3" then searchAndView currentUser ;; ret None
  else if String.eqb choice "4" then manageMoviePreferences ;; ret None
  else if String.eqb choice "0" then ret (Some tt)
  else print OutInvalidOption ;; ret None.

(** The start of [runMovieCLI]: preferences, then the exclusion set built
    from the movies the user has rated that the cache still holds. *)
Definition loadPreferences (currentUser : User) : CliM unit :=
  let* found := ext (getUserMoviePreferences deps (user_id currentUser)) in
  match found with
  | Some prefs => modify (set_prefs prefs)
  | None =>
      print OutNoPreferencesFound ;;
      print OutSetPreferencesHint ;;
      modify (set_prefs (no_preferences (user_id currentUser)))
  end.

Definition ratedMoviesInDb (currentUser : User) : CliM (list Movie) :=
  let* ratedMovieOurDbIds := ext (getRatedMovieIdsByUser deps (user_id currentUser)) in
  let* looked := map_all (fun i => ext (getMovieByOurId deps i)) ratedMovieOurDbIds in
  ret (omap (fun m => m) looked).

Definition seedExclusions (currentUser : User) : CliM unit :=
  modify (set_excl ∅) ;;
  let* rated := ratedMoviesInDb currentUser in
  for_each rated
    (fun m => modify (fun st =>
       set_excl ({[tmdb_id m]} ∪ sessionPersistentExcludeTmdbIds st) st)).

Definition runMovieCLI (currentUser : User) : CliM unit :=
  loadPreferences currentUser ;;
  seedExclusions currentUser ;;
  while_true (menu currentUser).

End WithCollaborators.
Arguments World : clear implicits.
Arguments Collaborators : clear implicits.
Arguments St : clear implicits.
Arguments CliM : clear implicits.
End MovieCli.

(** ** src/cli/tvShowCli.ts: the details page of a TV show

    The page differs from the movie's by its seasons section, which asks
    for a season and fetches its episodes.  [common/tmdbService] and
    [db/tvShowDb] are taken as given. *)
Module TvShowCli.
Import MovieCli.

(** The locally cached show ([TvShow] of [tvshows/types]), by the fields
    the page reads by name. *)
Record TvShow := {
  id : Z;
  tmdb_id : Z;
  name : string;
  poster_path : option string
}.

Record TMDBSeasonSummary := {
  season_number : Z;
  season_name : string;
  episode_count : Z;
  air_date : option string
}.

Record TMDBEpisodeSummary := {
  episode_number : Z;
  episode_name : string;
  episode_overview : option string
}.

Record TMDBFullSeason := {
  full_season_name : string;
  episodes : option (list TMDBEpisodeSummary)
}.

(** [TMDBTvShow]: besides [seasons], the fields are only printed. *)
Record TMDBTvShow := {
  tagline : option string;
  status : option string;
  seasons : option (list TMDBSeasonSummary)
}.

(** What the page writes to the console (prompts are left out). *)
Inductive Out :=
| OutFetchingDetails (show : TvShow)
| OutCouldNotFetchDetails
| OutErrorUpdatingDetails
| OutSummary (show : TvShow)
| OutDetails (updated : TvShow) (details : TMDBTvShow)
| OutSeasons (shown : list TMDBSeasonSummary) (more : bool)
| OutFetchingSeason (seasonNumber : Z)
| OutEpisodes (seasonNumber : Z) (seasonName : string)
    (shown : list TMDBEpisodeSummary) (more : bool)
| OutCouldNotFetchEpisodes (seasonNumber : Z)
| OutPoster (url : string)
| OutRule
| OutLiked (name : string)
| OutDisliked (name : string)
| OutInvalidAction.

(** History of the page, kept for the statements only: a season asked
    from the remote source, a rating stored for a show (by our id). *)
Inductive Event :=
| SeasonRequested (tmdb seasonNumber : Z)
| Rated (show_id score : Z).

Section WithCollaborators.
(** The database and the remote source. *)
Context {W : Type}.

Record Collaborators := {
  getTMDBTvShowDetails : Z -> JsM W (option TMDBTvShow);
  getTMDBTvShowSeasonDetails : Z -> Z -> JsM W (option TMDBFullSeason);
  saveTvShow : TMDBTvShow -> JsM W (option TvShow);
  saveUserTvShowRating : Z -> Z -> Z -> JsM W unit
}.

Variable deps : Collaborators.

Record St := {
  world : W;
  stdin : list string;
  out : list Out;
  trace : list Event
}.

Definition CliM := JsM St.

Definition print (o : Out) : CliM unit :=
  modify (fun st => {| world := world st; stdin := stdin st;
                       out := (out st ++ [o])%list; trace := trace st |}).

Definition note (e : Event) : CliM unit :=
  modify (fun st => {| world := world st; stdin := stdin st; out := out st;
                       trace := (trace st ++ [e])%list |}).

Definition ext {A} (m : JsM W A) : CliM A :=
  zoom world (fun w st => {| world := w; stdin := stdin st; out := out st;
                             trace := trace st |}) m.

(** [await ask(query)], as in the movie CLI. *)
Definition ask : CliM string :=
  fun st =>
    match stdin st with
    | [] => (Pending, st)
    | line :: rest =>
        (Resolved line,
         {| world := world st; stdin := rest; out := out st; trace := trace st |})
    end.

(** [while (true) { body }], bounded by the lines left as in the movie CLI. *)
Fixpoint iterate {A} (n : nat) (body : CliM (option A)) (st : St) : Outcome A * St :=
  match n with
  | O => (Diverged, st)
  | S n' =>
      match body st with
      | (Resolved (Some a), st') => (Resolved a, st')
      | (Resolved None, st') =>
          if decide (length (stdin st') < length (stdin st))%nat
          then iterate n' body st'
          else (Diverged, st')
      | (Rejected e, st') => (Rejected e, st')
      | (Pending, st') => (Pending, st')
      | (Diverged, st') => (Diverged, st')
      end
  end.

Definition while_true {A} (body : CliM (option A)) : CliM A :=
  fun st => iterate (S (length (stdin st))) body st.

Definition displayTvShowSummary (show : TvShow) : CliM unit :=
  print (OutSummary show).

(** [await saveUserTvShowRating(currentUser.id, internalShowIdToRate, score)] *)
Definition rate (currentUser : User) (show : TvShow) (score : Z) : CliM unit :=
  ext (saveUserTvShowRating deps (user_id currentUser) (id show) score) ;;
  note (Rated (id show) score).

(** The [--- Seasons ---] section of the page. *)
Definition seasonsSection (updatedShowInDb : TvShow) (tmdbDetails : TMDBTvShow)
  : CliM unit :=
  match seasons tmdbDetails with
  | None | Some [] => ret tt
  | Some all =>
      let regularSeasons := List.filter (fun s => 0 <? season_number s) all in
      print (OutSeasons (take 5 regularSeasons)
               (bool_decide (5 < length regularSeasons)%nat)) ;;
      let* answer := ask in
      match parseInt (trim answer) with
      | Some seasonNumberToView =>
          if (0 <? seasonNumberToView)
             && existsb (fun s => season_number s =? seasonNumberToView) regularSeasons
          then
            print (OutFetchingSeason seasonNumberToView) ;;
            note (SeasonRequested (tmdb_id updatedShowInDb) seasonNumberToView) ;;
            let* fullSeasonDetails :=
              ext (getTMDBTvShowSeasonDetails deps (tmdb_id updatedShowInDb)
                     seasonNumberToView) in
            match fullSeasonDetails ≫= episodes with
            | Some eps =>
                print (OutEpisodes seasonNumberToView
                         (default "" (full_season_name <$> fullSeasonDetails))
                         (take 10 eps) (bool_decide (10 < length eps)%nat))
            | None => print (OutCouldNotFetchEpisodes seasonNumberToView)
            end
          else ret tt
      | None => ret tt
      end
  end.

Definition viewAndInteractWithTvShowDetails (showToView : TvShow) (currentUser : User)
  : CliM Interaction :=
  print (OutFetchingDetails showToView) ;;
  let* tmdbDetails := ext (getTMDBTvShowDetails deps (tmdb_id showToView)) in
  match tmdbDetails with
  | None => print OutCouldNotFetchDetails ;; displayTvShowSummary showToView
  | Some details =>
      let* updatedShowInDb := ext (saveTvShow deps details) in
      match updatedShowInDb with
      | None => print OutErrorUpdatingDetails ;; displayTvShowSummary showToView
      | Some updated =>
          print (OutDetails updated details) ;;
          seasonsSection updated details ;;
          match TmdbService.getPosterUrl (poster_path updated) (Some "w342") with
          | Some poster => print (OutPoster poster)
          | None => ret tt
          end ;;
          print OutRule
      end
  end ;;
  while_true
    (let* answer := ask in
     let action := toLowerCase answer in
     if String.eqb action "l" then
       rate currentUser showToView 5 ;;
       print (OutLiked (name showToView)) ;;
       ret (Some liked)
     else if String.eqb action "d" then
       rate currentUser showToView 1 ;;
       print (OutDisliked (name showToView)) ;;
       ret (Some disliked)
     else if String.eqb action "n" then ret (Some skipped)
     else if String.eqb action "q" then ret (Some quit)
     else print OutInvalidAction ;; ret None).

End WithCollaborators.
Arguments Collaborators : clear implicits.
Arguments St : clear implicits.
Arguments CliM : clear implicits.
End TvShowCli.

(** ** The recommendation engine

    [src/movies/recommender.ts] is not among the sources; the definitions of
    this module follow sections 3 and 4 of the specification. *)
Module Engine.

Record CatalogItem := {
  remote_id : Z;
  local_id : option Z;
  title : string;
  year : option Z;
  genres : list string;
  language : option string;
  average_rating : Q;
  vote_count : Z;
  duration : option Z;
  (** [None]: provider data was never fetched for the item *)
  providers : option (list string)
}.

Record Preferences := {
  genre_allow : option (list string);
  language_allow : option (list string);
  year_range : option (Z * Z);
  duration_range : option (Z * Z);
  min_rating : option Q;
  provider_allow : option (list string)
}.

Definition member (s : string) (l : list string) : bool := existsb (String.eqb s) l.

Definition in_range (r : Z * Z) (v : option Z) : bool :=
  match v with
  | Some x => (fst r <=? x) && (x <=? snd r)
  | None => false
  end.

Definition genre_rule (item : CatalogItem) (allow : list string) : bool :=
  existsb (fun g => member g allow) (genres item).

Definition language_rule (item : CatalogItem) (allow : list string) : bool :=
  match language item with
  | Some l => member l allow
  | None => false
  end.

Definition year_rule (item : CatalogItem) (r : Z * Z) : bool := in_range r (year item).

Definition duration_rule (item : CatalogItem) (r : Z * Z) : bool :=
  in_range r (duration item).

Definition rating_rule (item : CatalogItem) (threshold : Q) : bool :=
  (0 <? vote_count item) && Qle_bool threshold (average_rating item).

Definition provider_rule (item : CatalogItem) (allow : list string) : bool :=
  match providers item with
  | Some ps => existsb (fun p => member p allow) ps
  | None => false
  end.

(** A rule constrains only when the preference field is set. *)
Definition active {C} (field : option C) (rule : C -> bool) : bool :=
  match field with
  | Some c => rule c
  | None => true
  end.

(** Modelled from the spec: the preference predicate of section 4.2, whose
    implementation in [movies/recommender] is missing. *)
Definition matches (item : CatalogItem) (prefs : Preferences) : bool :=
  active (genre_allow prefs) (genre_rule item)
  && active (language_allow prefs) (language_rule item)
  && active (year_range prefs) (year_rule item)
  && active (duration_range prefs) (duration_rule item)
  && active (min_rating prefs) (rating_rule item)
  && active (provider_allow prefs) (provider_rule item).

Definition has_id (i : Z) (x : CatalogItem) : bool := remote_id x =? i.

(** Merging keyed by remote id: an item whose id is already in the pool is
    dropped, a new one goes to the end. *)
Definition add_if_new (pool : list CatalogItem) (x : CatalogItem) : list CatalogItem :=
  if existsb (has_id (remote_id x)) pool then pool else (pool ++ [x])%list.

Definition merge (pool items : list CatalogItem) : list CatalogItem :=
  fold_left add_if_new items pool.

Section Aggregator.
(** The remote catalogue (section 6): similar items of a seed (first
    page) and the popularity feed by 1-indexed page, [None] on failure. *)
Variable fetchSimilarItems : Z -> option (list CatalogItem).
Variable fetchPopular : nat -> option (list CatalogItem).
(** The interaction store: ratings (most recent first) and cached items. *)
Variable getRatingsForUser : Z -> list (Z * Z).
Variable getCachedItemByLocalId : Z -> option CatalogItem.
(** The fixed counts of section 4.1. *)
Variable seed_cap : nat.
Variable target_pool_size : nat.
Variable page_ceiling : nat.

Definition like_threshold : Z := 4.

(** Modelled from the spec: seed selection, step 1 of section 4.1. *)
Definition seedIdentifiers (user : Z) : list Z :=
  take seed_cap
    (omap (fun r => if like_threshold <=? snd r
                    then remote_id <$> getCachedItemByLocalId (fst r)
                    else None)
          (getRatingsForUser user)).

(** The pool together with everything fetched so far, in fetch order. *)
Definition Pool : Type := list CatalogItem * list CatalogItem.

Definition absorb (p : Pool) (fetched : option (list CatalogItem)) : Pool :=
  match fetched with
  | Some items => (merge (fst p) items, (snd p ++ items)%list)
  | None => p
  end.

(** Step 2: one similarity request per seed; a failed seed is skipped. *)
Definition similar_pool (seeds : list Z) : Pool :=
  fold_left (fun p seed => absorb p (fetchSimilarItems seed)) seeds ([], []).

(** Step 3: the popularity feed, page after page, while the pool is
    below the target size and the page ceiling is not reached. *)
Fixpoint paginate (pages_left : nat) (page : nat) (p : Pool) : Pool :=
  match pages_left with
  | O => p
  | S n =>
      if decide (target_pool_size <= length (fst p))%nat then p
      else paginate n (S page) (absorb p (fetchPopular page))
  end.

Definition aggregate_run (seeds : list Z) : Pool :=
  paginate page_ceiling 1%nat (similar_pool seeds).

(** Modelled from the spec: the candidate aggregator of section 4.1. *)
Definition aggregate (seeds : list Z) : list CatalogItem := fst (aggregate_run seeds).

(** Every item the aggregation fetched, duplicates included. *)
Definition fetched (seeds : list Z) : list CatalogItem := snd (aggregate_run seeds).

(** Modelled from the spec: [recommend] of section 4.4, the missing
    [getMovieRecommendationsForUser]. *)
Definition recommend (user : Z) (prefs : Preferences) (exclusions : gset Z)
  : list CatalogItem :=
  List.filter (fun item => negb (bool_decide (remote_id item ∈ exclusions)))
    (List.filter (fun item => matches item prefs) (aggregate (seedIdentifiers user))).
End Aggregator.

End Engine.

(** * Properties *)

Local Open Scope list_scope.
Set Warnings "-clear-no-such-hyp".

(** ** The remote catalogue client *)
Module TmdbServiceFacts.
Import TmdbService.

Ltac run := unfold bind, ret, throw, lift, gets, modify, try_catch, log, do_fetch in *; simpl in *.

(** The credentials test that opens [fetchTMDB]. *)
Definition credentials_missing (env : Env) : bool :=
  negb (truthy (TMDB_API_READ_ACCESS_TOKEN env)) && negb (truthy (TMDB_API_KEY_V3 env)).

(** A request that [fetchTMDB] can build: the body of a POST serialises. *)
Definition can_send (method : Method) (body : JsAny) : bool :=
  match method, body with
  | POST, JsUnserializable => false
  | _, _ => true
  end.

(** What a caller is to receive for an answer of the remote side. *)
Definition expected (f : FetchResult) : option Json :=
  match f with
  | NetworkError => None
  | Responded r =>
      if negb (ok r) then None
      else if status r =? 204 then Some JEmpty
      else match body r with
           | JsonValue j => Some j
           | _ => None
           end
  end.

Definition kind_eqb (a b : ItemKind) : bool :=
  match a, b with
  | KMovie, KMovie | KTv, KTv => true
  | _, _ => false
  end.

(** The number of times the genre list of kind [k] was fetched with
    success, read off the console: the service reports each one. *)
Definition cached_count (k : ItemKind) (l : list LogEntry) : nat :=
  length (List.filter (fun e => match e with
                                | LogGenresCached k' => kind_eqb k k'
                                | _ => false
                                end) l).

Lemma cached_count_app k l1 l2 :
  cached_count k (l1 ++ l2) = (cached_count k l1 + cached_count k l2)%nat.
Proof. unfold cached_count. by rewrite List.filter_app, length_app. Qed.

Section Facts.
Variable env : Env.
Variable net : Net.

Lemma fetchTMDB_without_credentials endpoint params method body s :
  credentials_missing env = true ->
  fetchTMDB env net endpoint params method body s
  = (Resolved None,
     {| console := console s ++ [LogMissingCredentials]; sent := sent s;
        movieGenreListCache := movieGenreListCache s;
        tvGenreListCache := tvGenreListCache s |}).
Proof.
  unfold credentials_missing, fetchTMDB. intros ->. reflexivity.
Qed.

Lemma fetchTMDB_with_credentials endpoint params method body s :
  credentials_missing env = false ->
  can_send method body = true ->
  exists rq s',
    fetchTMDB env net endpoint params method body s
    = (Resolved (expected (net (length (sent s)) rq)), s')
    /\ sent s' = sent s ++ [rq]
    /\ req_endpoint rq = endpoint
    /\ movieGenreListCache s' = movieGenreListCache s
    /\ tvGenreListCache s' = tvGenreListCache s
    /\ forall k, cached_count k (console s') = cached_count k (console s).
Proof.
  unfold credentials_missing, fetchTMDB. intros -> Hsend.
  destruct (truthy (TMDB_API_READ_ACCESS_TOKEN env)) eqn:Htok;
    [| destruct (truthy (TMDB_API_KEY_V3 env)) eqn:Hkey];
    destruct method, body; try discriminate Hsend; run;
    (match goal with
     | |- context [net ?n ?rq] =>
         exists rq; destruct (net n rq) as [|r] eqn:Hnet
     end);
    simpl; unfold expected, error_message, response_json;
    try (destruct (ok r) eqn:Hok; simpl;
         [ destruct (status r =? 204) eqn:H204; simpl;
           [| destruct (body r) as [| |j] eqn:Hbody; simpl ]
         | destruct (body r) as [| |[]] eqn:Hbody; simpl;
           destruct (status r =? 401) eqn:H401; simpl ]);
    eexists; (split; [reflexivity|]); simpl;
    repeat split; auto; intros k;
    rewrite ?cached_count_app; unfold cached_count; simpl; try lia.
Qed.

(** [fetchTMDB] on a request it can build: it resolves, and changes
    neither cache nor the count of genre fetches. *)
Lemma fetchTMDB_resolves endpoint params method body s :
  can_send method body = true ->
  exists r s',
    fetchTMDB env net endpoint params method body s = (Resolved r, s')
    /\ movieGenreListCache s' = movieGenreListCache s
    /\ tvGenreListCache s' = tvGenreListCache s
    /\ forall k, cached_count k (console s') = cached_count k (console s).
Proof.
  intros Hsend. destruct (credentials_missing env) eqn:Hc.
  - rewrite fetchTMDB_without_credentials by done.
    do 2 eexists. split; [reflexivity|]. simpl. repeat split; auto.
    intros k. rewrite cached_count_app. unfold cached_count. simpl. lia.
  - destruct (fetchTMDB_with_credentials endpoint params method body s Hc Hsend)
      as (rq & s' & -> & _ & _ & Hm & Ht & Hk).
    eauto 10.
Qed.

Lemma run_call_resolves c s :
  exists r s',
    run_call env net c s = (Resolved r, s')
    /\ movieGenreListCache s' = movieGenreListCache s
    /\ tvGenreListCache s' = tvGenreListCache s
    /\ forall k, cached_count k (console s') = cached_count k (console s).
Proof.
  destruct c; simpl;
    unfold getMovieDetails, getPopularMovies, searchMovies, getMovieRecommendations,
      getTvShowDetails, getTvShowSeasonDetails, getPopularTvShows, searchTvShows,
      getTvShowRecommendations, getMovieWatchProviders, getTvWatchProviders;
    apply fetchTMDB_resolves; reflexivity.
Qed.

Lemma genreListCache_other k0 s s' :
  movieGenreListCache s' = movieGenreListCache s ->
  tvGenreListCache s' = tvGenreListCache s ->
  genreListCache k0 s' = genreListCache k0 s.
Proof. destruct k0; simpl; congruence. Qed.

(** The three ways a call of [getGenreList] can go. *)
Inductive GenreListRun (k : ItemKind) (s : Svc) (r : list Genre) (s' : Svc) : Prop :=
| FromCache :
    genreListCache k s = Some r -> s' = s -> GenreListRun k s r s'
| Fetched :
    genreListCache k s = None ->
    genreListCache k s' = Some r ->
    (forall k0, k0 <> k -> genreListCache k0 s' = genreListCache k0 s) ->
    (forall k0, cached_count k0 (console s')
                = (cached_count k0 (console s) + if kind_eqb k0 k then 1 else 0)%nat) ->
    GenreListRun k s r s'
| Failed :
    genreListCache k s = None ->
    r = [] ->
    (forall k0, genreListCache k0 s' = genreListCache k0 s) ->
    (forall k0, cached_count k0 (console s') = cached_count k0 (console s)) ->
    GenreListRun k s r s'.

Lemma getGenreList_run k s :
  exists r s', getGenreList env net k s = (Resolved r, s') /\ GenreListRun k s r s'.
Proof.
  unfold getGenreList. destruct (genreListCache k s) as [l|] eqn:Hcache.
  { exists l, s. split; [done|]. by apply FromCache. }
  unfold bind at 1.
  destruct (fetchTMDB_resolves (genre_endpoint k) [] GET JsUndefined s eq_refl)
    as (r & s1 & -> & Hm & Ht & Hk).
  destruct (r ≫= response_genres) as [gs|] eqn:Hr; run.
  - do 2 eexists. split; [reflexivity|].
    apply Fetched; auto.
    + destruct k; reflexivity.
    + intros k0 Hne. destruct k, k0; simpl in *; congruence.
    + intros k0. destruct k; simpl; rewrite cached_count_app, Hk;
        unfold cached_count; simpl; destruct k0; simpl; lia.
  - do 2 eexists. split; [reflexivity|].
    apply Failed; auto.
    intros k0. by apply genreListCache_other.
Qed.

Lemma mapGenreIdsToObjects_run k genre_ids s :
  exists r s',
    mapGenreIdsToObjects env net k genre_ids s = (Resolved r, s')
    /\ (s' = s \/ exists full, GenreListRun k s full s').
Proof.
  destruct genre_ids as [[|i ids]|]; simpl; try (do 2 eexists; split; [reflexivity|by left]).
  unfold bind. destruct (getGenreList_run k s) as (full & s' & -> & Hrun).
  do 2 eexists. split; [reflexivity|]. right. eauto.
Qed.

(** The count of successful genre fetches follows the cache. *)
Definition counted (k : ItemKind) (s : Svc) : Prop :=
  cached_count k (console s)
  = match genreListCache k s with Some _ => 1%nat | None => 0%nat end.

Lemma GenreListRun_counted k0 k s r s' :
  GenreListRun k s r s' -> counted k0 s -> counted k0 s'.
Proof.
  unfold counted. intros [Hc ->|Hc Hc' Hother Hk|Hc -> Hother Hk] Hinv; auto.
  - rewrite Hk, Hinv.
    destruct k0, k; simpl kind_eqb.
    all: try (rewrite Hc, Hc'; reflexivity).
    all: rewrite Hother by discriminate; simpl; lia.
  - by rewrite Hk, Hother.
Qed.

Lemma use_counted k u s : counted k s -> counted k (use env net u s).
Proof.
  intros Hinv. destruct u as [c|k'|k' ids]; simpl.
  - destruct (run_call_resolves c s) as (r & s' & -> & Hm & Ht & Hk). simpl.
    unfold counted. rewrite Hk, (genreListCache_other k s s' Hm Ht). exact Hinv.
  - destruct (getGenreList_run k' s) as (r & s' & -> & Hrun). simpl.
    eapply GenreListRun_counted; eauto.
  - destruct (mapGenreIdsToObjects_run k' ids s) as (r & s' & -> & [->|[full Hrun]]);
      simpl; auto.
    eapply GenreListRun_counted; eauto.
Qed.

Lemma uses_counted k us s : counted k s -> counted k (uses env net us s).
Proof.
  unfold uses. revert s. induction us as [|u us IH]; intros s Hinv; simpl; auto.
  apply IH. by apply use_counted.
Qed.

Lemma getGenreList_uncached k s :
  genreListCache k s = None ->
  exists r s',
    getGenreList env net k s = (Resolved r, s')
    /\ (credentials_missing env = true ->
        r = [] /\ genreListCache k s' = None /\ sent s' = sent s)
    /\ (credentials_missing env = false ->
        exists rq,
          sent s' = sent s ++ [rq]
          /\ req_endpoint rq = genre_endpoint k
          /\ match expected (net (length (sent s)) rq) ≫= response_genres with
             | Some gs => r = gs /\ genreListCache k s' = Some gs
             | None => r = [] /\ genreListCache k s' = None
             end).
Proof.
  intros Hcache. unfold getGenreList. rewrite Hcache. unfold bind at 1.
  destruct (credentials_missing env) eqn:Hc.
  - rewrite fetchTMDB_without_credentials by done. run.
    do 2 eexists. split; [reflexivity|]. split; [|discriminate].
    intros _. repeat split. by destruct k.
  - destruct (fetchTMDB_with_credentials (genre_endpoint k) [] GET JsUndefined s Hc eq_refl)
      as (rq & s1 & -> & Hsent & Hep & Hm & Ht & Hk).
    destruct (expected (net (length (sent s)) rq) ≫= response_genres) as [gs|] eqn:Hr; run.
    + do 2 eexists. split; [reflexivity|]. split; [discriminate|].
      intros _. exists rq. rewrite Hr. destruct k; simpl; auto.
    + do 2 eexists. split; [reflexivity|]. split; [discriminate|].
      intros _. exists rq. rewrite Hr. repeat split; auto.
      destruct k; simpl in *; congruence.
Qed.

(** *** Resolving genre ids *)

Lemma find_none_existsb {A} (f : A -> bool) (l : list A) :
  List.find f l = None <-> existsb f l = false.
Proof.
  induction l as [|x l IH]; simpl; [done|].
  destruct (f x); simpl; [split; discriminate | exact IH].
Qed.

Lemma resolve_genres_ids full ids :
  map genre_id (resolve_genres full ids)
  = List.filter (fun i => existsb (fun g => genre_id g =? i) full) ids.
Proof.
  unfold resolve_genres. induction ids as [|i ids IH]; simpl; [done|].
  destruct (List.find (fun g => genre_id g =? i) full) as [g|] eqn:Hfind; simpl.
  - destruct (find_some _ _ Hfind) as [Hin Heq].
    assert (existsb (fun g => genre_id g =? i) full = true) as ->.
    { apply existsb_exists. eauto. }
    simpl. f_equal; [lia | exact IH].
  - apply find_none_existsb in Hfind. rewrite Hfind. exact IH.
Qed.

Lemma resolve_genres_elem full ids g :
  g ∈ resolve_genres full ids
  <-> genre_id g ∈ ids
      /\ List.find (fun h => genre_id h =? genre_id g) full = Some g.
Proof.
  unfold resolve_genres. rewrite list_elem_of_omap. split.
  - intros (o & Ho & Hsome). simpl in Hsome. subst o.
    apply list_elem_of_In, in_map_iff in Ho as (i & Hfind & Hi).
    destruct (find_some _ _ Hfind) as [_ Heq].
    assert (genre_id g = i) as <- by lia.
    split; [by apply list_elem_of_In | exact Hfind].
  - intros [Hin Hfind]. exists (Some g). split; [|done].
    apply list_elem_of_In, in_map_iff. exists (genre_id g).
    split; [exact Hfind | by apply list_elem_of_In].
Qed.

(** With one genre per id in the full list, the resolved genres are the
    genres of the full list whose ids occur in the input. *)
Lemma resolve_genres_unique_ids full ids g :
  NoDup (map genre_id full) ->
  g ∈ resolve_genres full ids <-> g ∈ full /\ genre_id g ∈ ids.
Proof.
  intros Hnd. rewrite resolve_genres_elem. split.
  - intros [Hin Hfind]. split; [|done].
    apply list_elem_of_In. by destruct (find_some _ _ Hfind).
  - intros [Hfull Hin]. split; [done|].
    induction full as [|h full IH]; [by apply elem_of_nil in Hfull|].
    simpl in *. apply NoDup_cons in Hnd as [Hnotin Hnd].
    destruct (genre_id h =? genre_id g) eqn:Heq.
    + apply elem_of_cons in Hfull as [->|Hfull]; [done|].
      exfalso. apply Hnotin. apply list_elem_of_In, in_map_iff.
      exists g. split; [lia | by apply list_elem_of_In].
    + apply elem_of_cons in Hfull as [->|Hfull]; [lia|]. by apply IH.
Qed.
End Facts.

(** *** Concrete surroundings used by the examples *)
Definition token_env : Env :=
  {| TMDB_API_READ_ACCESS_TOKEN := Some "token"; TMDB_API_KEY_V3 := None |}.
Definition no_credentials : Env :=
  {| TMDB_API_READ_ACCESS_TOKEN := None; TMDB_API_KEY_V3 := None |}.
Definition offline : Net := fun _ _ => NetworkError.
Definition drama : Genre := {| genre_id := 18; genre_name := "Drama" |}.
Definition comedy : Genre := {| genre_id := 35; genre_name := "Comedy" |}.
Definition genre_server : Net :=
  fun _ _ => Responded {| status := 200; statusText := "OK";
                          body := JsonValue (JGenres [drama; comedy]) |}.
Definition with_movie_genres (gs : list Genre) : Svc :=
  {| console := []; sent := []; movieGenreListCache := Some gs; tvGenreListCache := None |}.

(** C4.  No remote-fetch operation raises to its caller.  [fetchTMDB] is
    private to the module and none of its call sites passes a method or a
    body, so every call is a GET: on every GET, whatever the endpoint, the
    parameters, the credentials and the remote side do, it resolves, and it
    resolves with null when the credentials are missing, when the transport
    fails, on a status outside 2xx, and on a 2xx answer (other than 204)
    whose body cannot be parsed.  It resolves just as well on any other
    request it can build.  Every exported wrapper, the two genre lists and
    the two genre-id mappers resolve on every input. *)
Theorem fetchTMDB_signals_failure_by_null env net endpoint params body s :
  (exists r s',
     fetchTMDB env net endpoint params GET body s = (Resolved r, s')
     /\ (credentials_missing env = true -> r = None /\ sent s' = sent s)
     /\ (credentials_missing env = false ->
         exists rq,
           sent s' = sent s ++ [rq]
           /\ match net (length (sent s)) rq with
              | NetworkError => r = None
              | Responded resp =>
                  (ok resp = false -> r = None)
                  /\ (ok resp = true -> status resp <> 204 ->
                      TmdbService.body resp = Unparsable -> r = None)
              end))
  /\ (forall method,
        can_send method body = true ->
        exists r s', fetchTMDB env net endpoint params method body s = (Resolved r, s'))
  /\ (forall c s0, exists r s', run_call env net c s0 = (Resolved r, s'))
  /\ (forall k s0, exists r s', getGenreList env net k s0 = (Resolved r, s'))
  /\ (forall k ids s0,
        exists r s', mapGenreIdsToObjects env net k ids s0 = (Resolved r, s')).
Proof.
  assert (can_send GET body = true) as Hsend by (by destruct body).
  split; [|split; [|split; [|split]]].
  2: { intros method Hm.
       destruct (fetchTMDB_resolves env net endpoint params method body s Hm)
         as (r & s' & H & _). eauto. }
  - destruct (credentials_missing env) eqn:Hc.
    + rewrite fetchTMDB_without_credentials by done.
      do 2 eexists. split; [reflexivity|]. split; [done | discriminate].
    + destruct (fetchTMDB_with_credentials env net endpoint params GET body s Hc Hsend)
        as (rq & s' & -> & Hsent & _).
      do 2 eexists. split; [reflexivity|]. split; [discriminate|].
      intros _. exists rq. split; [done|].
      destruct (net (length (sent s)) rq) as [|resp]; simpl; [done|].
      split.
      * intros ->. reflexivity.
      * intros -> H204 ->. simpl.
        destruct (status resp =? 204) eqn:E; [lia | reflexivity].
  - intros c s0. destruct (run_call_resolves env net c s0) as (r & s' & H & _). eauto.
  - intros k s0. destruct (getGenreList_run env net k s0) as (r & s' & H & _). eauto.
  - intros k ids s0.
    destruct (mapGenreIdsToObjects_run env net k ids s0) as (r & s' & H & _). eauto.
Qed.

Example fetchTMDB_offline :
  fst (fetchTMDB token_env offline "movie/popular" [("page", PNum 1)] GET JsUndefined
         fresh)
  = Resolved None.
Proof. reflexivity. Qed.

(** Beyond the call sites: [JSON.stringify] is called before the [try]
    block is entered, so a POST whose body cannot be serialised would
    reject.  No call of the module is a POST. *)
Remark fetchTMDB_stringifies_before_try :
  fst (fetchTMDB token_env offline "list" [] POST JsUnserializable fresh)
  = Rejected TypeError.
Proof. reflexivity. Qed.

(** C9.  For an absent or empty list of ids [mapMovieGenreIdsToObjects]
    answers the empty list and touches nothing.  Otherwise it resolves
    the ids against the list [getMovieGenreList] gives: the ids of the
    result are the input ids that some genre of that list carries, in the
    order (and with the repetitions) of the input, and a genre is in the
    result exactly when its id occurs in the input and it is the genre
    that id resolves to in the full list. *)
Theorem mapMovieGenreIdsToObjects_resolves_in_order env net :
  (forall s,
     mapMovieGenreIdsToObjects env net None s = (Resolved [], s)
     /\ mapMovieGenreIdsToObjects env net (Some []) s = (Resolved [], s))
  /\ (forall i ids s,
        exists full s' result,
          getMovieGenreList env net s = (Resolved full, s')
          /\ mapMovieGenreIdsToObjects env net (Some (i :: ids)) s = (Resolved result, s')
          /\ map genre_id result
             = List.filter (fun j => existsb (fun g => genre_id g =? j) full) (i :: ids)
          /\ forall g,
               g ∈ result
               <-> genre_id g ∈ i :: ids
                   /\ List.find (fun h => genre_id h =? genre_id g) full = Some g).
Proof.
  split; [done|].
  intros i ids s.
  destruct (getGenreList_run env net KMovie s) as (full & s' & Hrun & _).
  exists full, s', (resolve_genres full (i :: ids)).
  split; [exact Hrun|]. split.
  - unfold mapMovieGenreIdsToObjects, mapGenreIdsToObjects, bind. by rewrite Hrun.
  - split; [apply resolve_genres_ids | intros g; apply resolve_genres_elem].
Qed.

Example mapMovieGenreIdsToObjects_example :
  fst (mapMovieGenreIdsToObjects token_env genre_server (Some [35; 99; 18; 35]) fresh)
  = Resolved [comedy; drama; comedy].
Proof. reflexivity. Qed.

End TmdbServiceFacts.

(** ** The remote catalogue client: calls that overlap *)
Module TmdbTasksFacts.
Import TmdbService TmdbServiceFacts TmdbTasks.

(** The requests for the genre list of kind [k] among those sent. *)
Definition genre_requests (k : ItemKind) (l : list Request) : nat :=
  length (List.filter (fun rq => String.eqb (req_endpoint rq) (genre_endpoint k)) l).

(** A call of [fetchTMDB] that may still return something. *)
Definition live (f : Fetching) : bool :=
  match f with
  | Returned None => false
  | _ => true
  end.

(** A task that may still fill the cache of kind [k]. *)
Definition fetching (k : ItemKind) (t : Task) : bool :=
  match t with
  | GenreList k' f | MapIds k' _ (inl f) => kind_eqb k k' && live f
  | _ => false
  end.

(** A task that has begun its genre list of kind [k] and not finished it. *)
Definition awaiting_list (k : ItemKind) (t : Task) : bool :=
  match t with
  | GenreList k' _ | MapIds k' _ (inl _) => kind_eqb k k'
  | _ => false
  end.

Definition count {A} (P : A -> bool) (l : list A) : nat := length (List.filter P l).

Definition as_nat (b : bool) : nat := if b then 1%nat else 0%nat.

Lemma count_app {A} (P : A -> bool) l1 l2 :
  count P (l1 ++ l2) = (count P l1 + count P l2)%nat.
Proof. unfold count. by rewrite List.filter_app, length_app. Qed.

Lemma count_cons {A} (P : A -> bool) x l :
  count P (x :: l) = (as_nat (P x) + count P l)%nat.
Proof. unfold count. simpl. by destruct (P x). Qed.

Lemma count_insert {A} (P : A -> bool) (l : list A) : forall i x y,
  l !! i = Some x ->
  (count P (<[i := y]> l) + as_nat (P x) = count P l + as_nat (P y))%nat.
Proof.
  induction l as [|z l IH]; intros [|i] x y Hi; try done; simpl in *.
  - injection Hi as ->. rewrite !count_cons. lia.
  - rewrite !count_cons. specialize (IH i x y Hi). lia.
Qed.

Lemma count_delete {A} (P : A -> bool) (l : list A) : forall i x,
  l !! i = Some x -> (count P (delete i l) + as_nat (P x) = count P l)%nat.
Proof.
  induction l as [|z l IH]; intros [|i] x Hi; try done; simpl in *.
  - injection Hi as ->. rewrite count_cons. lia.
  - rewrite !count_cons. specialize (IH i x Hi). lia.
Qed.

Lemma genre_requests_app k l1 l2 :
  genre_requests k (l1 ++ l2) = (genre_requests k l1 + genre_requests k l2)%nat.
Proof. unfold genre_requests. by rewrite List.filter_app, length_app. Qed.

Section Facts.
Variable env : Env.
Variable net : Net.

(** *** One stretch at a time *)

Lemma fetch_begin_run endpoint params s :
  exists f s',
    fetch_begin env net endpoint params s = (Resolved f, s')
    /\ movieGenreListCache s' = movieGenreListCache s
    /\ tvGenreListCache s' = tvGenreListCache s
    /\ (forall k, cached_count k (console s') = cached_count k (console s))
    /\ ((f = Returned None /\ sent s' = sent s)
        \/ exists rq,
             f = AwaitingFetch endpoint (net (length (sent s)) rq)
             /\ sent s' = sent s ++ [rq] /\ req_endpoint rq = endpoint).
Proof.
  unfold fetch_begin.
  destruct (truthy (TMDB_API_READ_ACCESS_TOKEN env)) eqn:Htok;
    [|destruct (truthy (TMDB_API_KEY_V3 env)) eqn:Hkey];
    run; do 2 eexists; (split; [reflexivity|]); simpl;
    repeat split; auto;
    try (intros k; rewrite ?cached_count_app; unfold cached_count; simpl; lia);
    first [ left; by split | right; eexists; by repeat split ].
Qed.

Lemma fetch_resume_run f s :
  exists f' s',
    fetch_resume env f s = (Resolved f', s')
    /\ movieGenreListCache s' = movieGenreListCache s
    /\ tvGenreListCache s' = tvGenreListCache s
    /\ sent s' = sent s
    /\ (forall k, cached_count k (console s') = cached_count k (console s))
    /\ (live f' = true -> live f = true).
Proof.
  destruct f as [endpoint [|r]|endpoint r|result]; simpl.
  - run. do 2 eexists. split; [reflexivity|]. simpl. repeat split; auto.
    intros k. rewrite cached_count_app. unfold cached_count. simpl. lia.
  - destruct (negb (ok r)); [|destruct (status r =? 204)];
      do 2 eexists; (split; [reflexivity|]); by repeat split.
  - unfold error_message, response_json.
    destruct (negb (ok r)); run;
      destruct (TmdbService.body r) as [| |[]]; simpl;
      try destruct (status r =? 401); simpl;
      do 2 eexists; (split; [reflexivity|]); simpl; repeat split; auto;
      intros k; rewrite ?cached_count_app; unfold cached_count; simpl; lia.
  - do 2 eexists. split; [reflexivity|]. by repeat split.
Qed.

Lemma genre_list_resume_run k response s :
  exists gs s',
    genre_list_resume k response s = (Resolved gs, s')
    /\ sent s' = sent s
    /\ (forall k0, k0 <> k -> genreListCache k0 s' = genreListCache k0 s)
    /\ match response ≫= response_genres with
       | Some found =>
           gs = found /\ genreListCache k s' = Some found
           /\ forall k0, cached_count k0 (console s')
                         = (cached_count k0 (console s) + as_nat (kind_eqb k0 k))%nat
       | None => gs = [] /\ s' = s
       end.
Proof.
  unfold genre_list_resume.
  destruct (response ≫= response_genres) as [found|]; run.
  - do 2 eexists. split; [reflexivity|]. destruct k; simpl; repeat split; auto.
    all: try (intros k0 Hne; by destruct k0).
    all: intros k0; rewrite cached_count_app; unfold cached_count; simpl;
         destruct k0; simpl; lia.
  - do 2 eexists. split; [reflexivity|]. by repeat split.
Qed.

(** The stretches of [fetchTMDB], run one after the other, are the
    function itself. *)
Lemma fetchTMDB_in_stretches endpoint params body s :
  fetchTMDB env net endpoint params GET body s
  = (let* f := fetch_begin env net endpoint params in
     let* f1 := fetch_resume env f in
     let* f2 := fetch_resume env f1 in
     ret (match f2 with Returned result => result | _ => None end)) s.
Proof.
  unfold fetchTMDB, fetch_begin.
  destruct (truthy (TMDB_API_READ_ACCESS_TOKEN env)) eqn:Htok;
    [|destruct (truthy (TMDB_API_KEY_V3 env)) eqn:Hkey];
    run; try reflexivity;
    (match goal with
     | |- context [net ?n ?rq] => destruct (net n rq) as [|r]
     end);
    simpl; try reflexivity;
    unfold error_message, response_json;
    destruct (ok r) eqn:Hok, (status r =? 204) eqn:H204, (status r =? 401) eqn:H401,
      (TmdbService.body r) as [| |[]] eqn:Hbody;
    run; rewrite ?Hok, ?H204, ?H401, ?Hbody; run;
    unfold error_message, response_json;
    rewrite ?Hok, ?H204, ?H401, ?Hbody; run;
    rewrite ?Hok, ?H204, ?H401, ?Hbody; reflexivity.
Qed.

Lemma getGenreList_in_stretches k s :
  getGenreList env net k s
  = (let* started := genre_list_begin env net k in
     match started with
     | inl f =>
         let* f1 := fetch_resume env f in
         let* f2 := fetch_resume env f1 in
         genre_list_resume k (match f2 with Returned result => result | _ => None end)
     | inr cached => ret cached
     end) s.
Proof.
  unfold getGenreList, genre_list_begin.
  unfold bind. destruct (genreListCache k s) as [cached|] eqn:Hcache;
    rewrite ?Hcache; [reflexivity|].
  rewrite fetchTMDB_in_stretches.
  unfold bind, ret, genre_list_resume.
  destruct (fetch_begin env net (genre_endpoint k) [] s) as [[f| | |] s1]; try done.
  destruct (fetch_resume env f s1) as [[f1| | |] s2]; try done.
  destruct (fetch_resume env f1 s2) as [[f2| | |] s3]; try done.
Qed.
End Facts.

(** *** What a stretch does to the pool *)

(** What a stretch leaves among the tasks, counted by [P]. *)
Definition gain (P : Task -> bool) (r : Task + Answer) : nat :=
  match r with
  | inl t => as_nat (P t)
  | inr _ => 0%nat
  end.

(** The calls that ask for the genre list of kind [k]. *)
Definition asks (k : ItemKind) (u : Use) : bool :=
  match u with
  | UseGenreList k' | UseMapGenreIds k' (Some (_ :: _)) => kind_eqb k k'
  | _ => false
  end.

Lemma fetching_awaiting k t : (as_nat (fetching k t) <= as_nat (awaiting_list k t))%nat.
Proof.
  destruct t as [f|k' f|k' ids [f|full]]; simpl; try lia;
    destruct (kind_eqb k k'), (live f); simpl; lia.
Qed.

Lemma count_fetching_awaiting k l :
  (count (fetching k) l <= count (awaiting_list k) l)%nat.
Proof.
  induction l as [|t l IH]; [done|]. rewrite !count_cons.
  pose proof (fetching_awaiting k t). lia.
Qed.

Lemma kind_eqb_eq k k' : kind_eqb k k' = true <-> k = k'.
Proof. destruct k, k'; simpl; split; congruence. Qed.

Lemma genre_requests_own k rq :
  req_endpoint rq = genre_endpoint k -> genre_requests k [rq] = 1%nat.
Proof. unfold genre_requests. simpl. intros ->. by rewrite String.eqb_refl. Qed.

Section Stretches.
Variable env : Env.
Variable net : Net.

Lemma genre_list_begin_run k s :
  exists started s' new,
    genre_list_begin env net k s = (Resolved started, s')
    /\ sent s' = sent s ++ new
    /\ (forall k0, genreListCache k0 s' = genreListCache k0 s)
    /\ (forall k0, cached_count k0 (console s') = cached_count k0 (console s))
    /\ match started with
       | inl f =>
           genreListCache k s = None
           /\ (as_nat (live f) <= genre_requests k new)%nat
       | inr cached => genreListCache k s = Some cached /\ s' = s
       end.
Proof.
  unfold genre_list_begin. destruct (genreListCache k s) as [cached|] eqn:Hcache.
  - exists (inr cached), s, []. rewrite app_nil_r. by repeat split.
  - unfold bind.
    destruct (fetch_begin_run env net (genre_endpoint k) [] s)
      as (f & s' & -> & Hm & Ht & Hk & Hf).
    destruct Hf as [[-> Hsent]|(rq & -> & Hsent & Hep)].
    + exists (inl (Returned None)), s', []. rewrite app_nil_r. simpl.
      repeat split; auto. intros k0. by apply genreListCache_other.
    + eexists (inl _), s', [rq]. simpl. repeat split; auto.
      * intros k0. by apply genreListCache_other.
      * rewrite genre_requests_own by done. simpl. lia.
Qed.

Lemma begin_effect u s :
  exists r s' new,
    begin env net u s = (Resolved r, s')
    /\ sent s' = sent s ++ new
    /\ (forall k, genreListCache k s' = genreListCache k s)
    /\ (forall k, cached_count k (console s') = cached_count k (console s))
    /\ (forall k, gain (awaiting_list k) r = 0%nat
                  \/ (genreListCache k s = None /\ asks k u = true))
    /\ (forall k, (gain (fetching k) r <= genre_requests k new)%nat).
Proof.
  destruct u as [c|k'|k' [[|i ids]|]]; simpl.
  - unfold bind.
    destruct (fetch_begin_run env net (call_request c).1 (call_request c).2 s)
      as (f & s' & -> & Hm & Ht & Hk & Hf).
    assert (exists new, sent s' = sent s ++ new) as [new Hsent].
    { destruct Hf as [[_ ->]|(rq & _ & -> & _)]; [exists []; by rewrite app_nil_r | eauto]. }
    exists (inl (Wrapper f)), s', new. simpl. repeat split; auto; try lia.
    intros k. by apply genreListCache_other.
  - unfold bind.
    destruct (genre_list_begin_run k' s) as ([f|cached] & s' & new & -> & Hsent & Hc & Hk & Hst).
    + destruct Hst as [Hnone Hreq].
      exists (inl (GenreList k' f)), s', new. simpl. repeat split; auto.
      * intros k. destruct (kind_eqb k k') eqn:Hkk; [|by left].
        apply kind_eqb_eq in Hkk as ->. by right.
      * intros k. destruct (kind_eqb k k') eqn:Hkk; simpl; [|lia].
        apply kind_eqb_eq in Hkk as ->. exact Hreq.
    + destruct Hst as [Hsome ->].
      exists (inr (AnsweredGenres cached)), s, new. simpl. repeat split; auto; lia.
  - exists (inr (AnsweredGenres [])), s, []. rewrite app_nil_r. simpl.
    repeat split; auto; lia.
  - unfold bind.
    destruct (genre_list_begin_run k' s) as ([f|cached] & s' & new & -> & Hsent & Hc & Hk & Hst).
    + destruct Hst as [Hnone Hreq].
      exists (inl (MapIds k' (i :: ids) (inl f))), s', new. simpl. repeat split; auto.
      * intros k. destruct (kind_eqb k k') eqn:Hkk; [|by left].
        apply kind_eqb_eq in Hkk as ->. by right.
      * intros k. destruct (kind_eqb k k') eqn:Hkk; simpl; [|lia].
        apply kind_eqb_eq in Hkk as ->. exact Hreq.
    + destruct Hst as [Hsome ->].
      exists (inl (MapIds k' (i :: ids) (inr cached))), s, new. simpl.
      repeat split; auto; lia.
  - exists (inr (AnsweredGenres [])), s, []. rewrite app_nil_r. simpl.
    repeat split; auto; lia.
Qed.

(** What one more stretch of a task may change for kind [k]. *)
Record Advanced (k : ItemKind) (t : Task) (s : Svc) (r : Task + Answer) (s' : Svc)
  : Prop := {
  still_awaiting : (gain (awaiting_list k) r <= as_nat (awaiting_list k t))%nat;
  paid_for :
    (cached_count k (console s') + gain (fetching k) r
     <= cached_count k (console s) + as_nat (fetching k t))%nat;
  cache_after :
    (genreListCache k s' = genreListCache k s
     /\ cached_count k (console s') = cached_count k (console s))
    \/ (awaiting_list k t = true
        /\ is_Some (genreListCache k s')
        /\ cached_count k (console s') = S (cached_count k (console s)))
}.

Lemma resume_advanced k (w : Fetching -> Task) f s :
  (forall g, awaiting_list k (w g) = awaiting_list k (w f)) ->
  (forall g, fetching k (w g) = awaiting_list k (w f) && live g) ->
  exists f' s',
    fetch_resume env f s = (Resolved f', s')
    /\ sent s' = sent s
    /\ Advanced k (w f) s (inl (w f')) s'.
Proof.
  intros Haw Hfe.
  destruct (fetch_resume_run env f s) as (f' & s' & Hrun & Hm & Ht & Hsent & Hk & Hlive).
  exists f', s'. split; [done|]. split; [done|]. split; simpl.
  - rewrite Haw. lia.
  - rewrite Hk, !Hfe. destruct (awaiting_list k (w f)); simpl; [|lia].
    destruct (live f') eqn:Hf'; simpl; [|lia]. rewrite Hlive by done. simpl. lia.
  - left. split; [by apply genreListCache_other | apply Hk].
Qed.

Lemma list_resume_advanced k k' response s (t : Task) (after : list Genre -> Task + Answer) :
  awaiting_list k t = kind_eqb k k' ->
  fetching k t = kind_eqb k k' && live (Returned response) ->
  (forall gs, gain (awaiting_list k) (after gs) = 0%nat) ->
  (forall gs, gain (fetching k) (after gs) = 0%nat) ->
  exists gs s',
    genre_list_resume k' response s = (Resolved gs, s')
    /\ sent s' = sent s
    /\ Advanced k t s (after gs) s'.
Proof.
  intros Haw Hfe Hafter Hafter'.
  destruct (genre_list_resume_run k' response s) as (gs & s' & Hrun & Hsent & Hother & Hres).
  exists gs, s'. split; [done|]. split; [done|].
  destruct (response ≫= response_genres) as [found|] eqn:Hfound.
  - destruct Hres as (-> & Hcache & Hk).
    assert (live (Returned response) = true) as Hl by (by destruct response).
    split.
    + rewrite Hafter. lia.
    + rewrite Hafter', Hk, Hfe, Hl. destruct (kind_eqb k k'); simpl; lia.
    + destruct (kind_eqb k k') eqn:Hkk.
      * right. apply kind_eqb_eq in Hkk as ->. rewrite Haw, Hcache, Hk.
        assert (kind_eqb k' k' = true) as -> by (by apply kind_eqb_eq).
        repeat split; eauto. simpl. lia.
      * left. rewrite Hk, Hkk. split; [|simpl; lia].
        apply Hother. intros ->. assert (kind_eqb k' k' = true) by (by apply kind_eqb_eq).
        congruence.
  - destruct Hres as [-> ->]. split.
    + rewrite Hafter. lia.
    + rewrite Hafter'. lia.
    + by left.
Qed.

Lemma advance_effect k t s :
  exists r s',
    advance env t s = (Resolved r, s') /\ sent s' = sent s /\ Advanced k t s r s'.
Proof.
  destruct t as [f|k' f|k' ids [f|full]].
  - destruct (resume_advanced k Wrapper f s) as (f' & s' & Hrun & Hsent & Hadv);
      [done | done |].
    destruct f as [e a|e r0|result].
    3: { exists (inr (AnsweredJson result)), s. split; [done|]. split; [done|].
         split; simpl; auto; lia. }
    all: exists (inl (Wrapper f')), s'; split; [|by split].
    all: match goal with
         | |- advance _ (Wrapper ?f) _ = _ =>
             change (advance env (Wrapper f))
               with (let* g := fetch_resume env f in ret (inl (Wrapper g) : Task + Answer))
         end.
    all: unfold bind; by rewrite Hrun.
  - destruct (resume_advanced k (GenreList k') f s) as (f' & s' & Hrun & Hsent & Hadv);
      [done | done |].
    destruct f as [e a|e r0|response].
    3: { simpl advance. unfold bind.
         destruct (list_resume_advanced k k' response s (GenreList k' (Returned response))
                     (fun gs => inr (AnsweredGenres gs)))
           as (gs & s1 & -> & Hsent1 & Hadv1); try done. eauto. }
    all: exists (inl (GenreList k' f')), s'; split; [|by split].
    all: match goal with
         | |- advance _ (GenreList _ ?f) _ = _ =>
             change (advance env (GenreList k' f))
               with (let* g := fetch_resume env f in ret (inl (GenreList k' g) : Task + Answer))
         end.
    all: unfold bind; by rewrite Hrun.
  - destruct (resume_advanced k (fun g => MapIds k' ids (inl g)) f s)
      as (f' & s' & Hrun & Hsent & Hadv); [done | done |].
    destruct f as [e a|e r0|response].
    3: { simpl advance. unfold bind.
         destruct (list_resume_advanced k k' response s
                     (MapIds k' ids (inl (Returned response)))
                     (fun gs => inl (MapIds k' ids (inr gs))))
           as (gs & s1 & -> & Hsent1 & Hadv1); try done. eauto. }
    all: exists (inl (MapIds k' ids (inl f'))), s'; split; [|by split].
    all: match goal with
         | |- advance _ (MapIds _ _ (inl ?f)) _ = _ =>
             change (advance env (MapIds k' ids (inl f)))
               with (let* g := fetch_resume env f
                     in ret (inl (MapIds k' ids (inl g)) : Task + Answer))
         end.
    all: unfold bind; by rewrite Hrun.
  - exists (inr (AnsweredGenres (resolve_genres full ids))), s.
    split; [done|]. split; [done|]. split; simpl; auto; lia.
Qed.

(** *** Invariants of every schedule *)

Lemma settle_spawn_count P r s' p :
  count P (tasks (settle None (Resolved r, s') p)) = (count P (tasks p) + gain P r)%nat.
Proof.
  destruct r as [t|a]; simpl; [|lia].
  rewrite count_app, count_cons. change (count P []) with 0%nat. lia.
Qed.

Lemma settle_advance_count P i t r s' p :
  tasks p !! i = Some t ->
  (count P (tasks (settle (Some i) (Resolved r, s') p)) + as_nat (P t)
   = count P (tasks p) + gain P r)%nat.
Proof.
  intros Hi. destruct r as [t'|a]; simpl.
  - by apply count_insert.
  - rewrite <- (count_delete P (tasks p) i t Hi). lia.
Qed.

Lemma settle_svc i o s' p : svc (settle i (o, s') p) = s'.
Proof. by destruct o as [[t|a]| | |]. Qed.

(** The successes reported for kind [k] and the calls that may still
    report one are no more than the requests sent for its list. *)
Definition paid (k : ItemKind) (p : Pool) : Prop :=
  (cached_count k (console (svc p)) + count (fetching k) (tasks p)
   <= genre_requests k (sent (svc p)))%nat.

Lemma act_paid k a p : paid k p -> paid k (act env net a p).
Proof.
  unfold paid. intros Hinv. destruct a as [u|i]; simpl.
  - destruct (begin_effect u (svc p)) as (r & s' & new & -> & Hsent & _ & Hk & _ & Hreq).
    rewrite settle_svc, settle_spawn_count, Hk, Hsent, genre_requests_app.
    specialize (Hreq k). lia.
  - destruct (tasks p !! i) as [t|] eqn:Hi; [|done].
    destruct (advance_effect k t (svc p)) as (r & s' & -> & Hsent & [_ Hpaid _]).
    rewrite settle_svc, Hsent.
    pose proof (settle_advance_count (fetching k) i t r s' p Hi). lia.
Qed.

Lemma run_paid k acts p : paid k p -> paid k (run env net acts p).
Proof.
  unfold run. revert p. induction acts as [|a acts IH]; intros p Hinv; simpl; auto.
  apply IH. by apply act_paid.
Qed.

(** A filled cache stays filled. *)
Lemma act_keeps_filled k a p :
  is_Some (genreListCache k (svc p)) -> is_Some (genreListCache k (svc (act env net a p))).
Proof.
  intros Hinv. destruct a as [u|i]; simpl.
  - destruct (begin_effect u (svc p)) as (r & s' & new & -> & _ & Hc & _).
    by rewrite settle_svc, Hc.
  - destruct (tasks p !! i) as [t|] eqn:Hi; [|done].
    destruct (advance_effect k t (svc p)) as (r & s' & -> & _ & [_ _ Hcache]).
    rewrite settle_svc. destruct Hcache as [[-> _]|(_ & Hsome & _)]; done.
Qed.

(** With the list of kind [k] cached and no call awaiting that list, the
    cache keeps this very list. *)
Definition at_rest (k : ItemKind) (l : list Genre) (p : Pool) : Prop :=
  genreListCache k (svc p) = Some l /\ count (awaiting_list k) (tasks p) = 0%nat.

Lemma act_at_rest k l a p : at_rest k l p -> at_rest k l (act env net a p).
Proof.
  unfold at_rest. intros [Hcache Hnone]. destruct a as [u|i]; simpl.
  - destruct (begin_effect u (svc p)) as (r & s' & new & -> & _ & Hc & _ & Haw & _).
    rewrite settle_svc, settle_spawn_count, Hc. split; [done|].
    destruct (Haw k) as [->|[Hempty _]]; [lia | congruence].
  - destruct (tasks p !! i) as [t|] eqn:Hi; [|done].
    destruct (advance_effect k t (svc p)) as (r & s' & -> & _ & [Hstill _ Hafter]).
    rewrite settle_svc.
    pose proof (settle_advance_count (awaiting_list k) i t r s' p Hi) as Hcount.
    pose proof (count_delete (awaiting_list k) (tasks p) i t Hi) as Hdel.
    assert (awaiting_list k t = false) as Ht by (destruct (awaiting_list k t); simpl in *; [lia|done]).
    rewrite Ht in *. simpl in *. split; [|lia].
    destruct Hafter as [[-> _]|(Habs & _)]; [done | discriminate].
Qed.

Lemma run_at_rest k l acts p : at_rest k l p -> at_rest k l (run env net acts p).
Proof.
  unfold run. revert p. induction acts as [|a acts IH]; intros p Hinv; simpl; auto.
  apply IH. by apply act_at_rest.
Qed.

(** *** Calls for a genre list that do not overlap *)

(** A schedule in which no call asks for the genre list of kind [k] while
    another call is awaiting that list. *)
Fixpoint apart (k : ItemKind) (acts : list Action) (p : Pool) : bool :=
  match acts with
  | [] => true
  | a :: rest =>
      match a with
      | Spawn u => negb (asks k u) || (count (awaiting_list k) (tasks p) =? 0)%nat
      | Advance _ => true
      end && apart k rest (act env net a p)
  end.

Definition once (k : ItemKind) (p : Pool) : Prop :=
  (cached_count k (console (svc p)) + count (fetching k) (tasks p) <= 1)%nat
  /\ (genreListCache k (svc p) = None -> cached_count k (console (svc p)) = 0%nat).

Lemma act_once k a p :
  match a with
  | Spawn u => negb (asks k u) || (count (awaiting_list k) (tasks p) =? 0)%nat
  | Advance _ => true
  end = true ->
  once k p -> once k (act env net a p).
Proof.
  unfold once. intros Hok [Hsum Hzero]. destruct a as [u|i]; simpl.
  - destruct (begin_effect u (svc p)) as (r & s' & new & -> & _ & Hc & Hk & Haw & _).
    rewrite settle_svc, settle_spawn_count, Hc, Hk. split; [|done].
    assert (gain (fetching k) r <= gain (awaiting_list k) r)%nat as Hle.
    { destruct r as [t|]; simpl; [apply fetching_awaiting | lia]. }
    destruct (Haw k) as [Hnone|[Hempty Hasks]]; [lia|].
    rewrite Hasks in Hok. simpl in Hok. apply Nat.eqb_eq in Hok.
    pose proof (count_fetching_awaiting k (tasks p)).
    specialize (Hzero Hempty).
    assert (gain (fetching k) r <= 1)%nat.
    { destruct r as [t|]; simpl; [destruct (fetching k t); simpl; lia | lia]. }
    lia.
  - destruct (tasks p !! i) as [t|] eqn:Hi; [|done].
    destruct (advance_effect k t (svc p)) as (r & s' & -> & _ & [_ Hpaid Hafter]).
    rewrite settle_svc.
    pose proof (settle_advance_count (fetching k) i t r s' p Hi). split; [lia|].
    destruct Hafter as [[-> ->]|(_ & Hsome & _)]; [done|].
    intros Hnone. rewrite Hnone in Hsome. by destruct Hsome.
Qed.

Lemma run_once k acts p :
  apart k acts p = true -> once k p -> once k (run env net acts p).
Proof.
  unfold run. revert p. induction acts as [|a acts IH]; intros p Hok Hinv; simpl; auto.
  simpl in Hok. apply andb_prop in Hok as [Ha Hrest].
  apply IH; [done|]. by apply act_once.
Qed.
End Stretches.

(** *** One call at a time

    A call that runs all its stretches before the next call begins does
    what the function does when it is run in one piece. *)

(** How many awaits a call of [fetchTMDB] has before it. *)
Definition stage (f : Fetching) : nat :=
  match f with
  | AwaitingFetch _ _ => 2
  | AwaitingJson _ _ => 1
  | Returned _ => 0
  end.

(** The schedule that runs the calls [us] one after the other, each to
    its end. *)
Definition alone (u : Use) : list Action := Spawn u :: replicate 4 (Advance 0%nat).
Definition in_turn (us : list Use) : list Action := flat_map alone us.

Section InTurn.
Variable env : Env.
Variable net : Net.

Lemma fetch_resume_stage f s :
  exists f' s',
    fetch_resume env f s = (Resolved f', s')
    /\ (stage f' <= stage f - 1)%nat.
Proof.
  destruct f as [endpoint [|r]|endpoint r|result]; simpl.
  - run. do 2 eexists. split; [reflexivity|]. simpl. lia.
  - destruct (negb (ok r)); [|destruct (status r =? 204)];
      do 2 eexists; (split; [reflexivity|]); simpl; lia.
  - unfold error_message, response_json.
    destruct (negb (ok r)); run;
      destruct (TmdbService.body r) as [| |[]]; simpl;
      try destruct (status r =? 401); simpl;
      do 2 eexists; (split; [reflexivity|]); simpl; lia.
  - do 2 eexists. split; [reflexivity|]. simpl. lia.
Qed.

Lemma act_advance_head t ts s given :
  act env net (Advance 0) {| svc := s; tasks := t :: ts; answers := given |}
  = settle (Some 0%nat) (advance env t s)
      {| svc := s; tasks := t :: ts; answers := given |}.
Proof. reflexivity. Qed.

Lemma run_app acts1 acts2 p :
  run env net (acts1 ++ acts2) p = run env net acts2 (run env net acts1 p).
Proof. unfold run. apply fold_left_app. Qed.

Lemma run_cons a acts p : run env net (a :: acts) p = run env net acts (act env net a p).
Proof. reflexivity. Qed.

Lemma run_advances_idle n s given :
  run env net (replicate n (Advance 0%nat)) {| svc := s; tasks := []; answers := given |}
  = {| svc := s; tasks := []; answers := given |}.
Proof. induction n as [|n IH]; [done|]. exact IH. Qed.

(** The stretches of [fetchTMDB] inside a task [w], run in the pool. *)
Lemma run_fetching (w : Fetching -> Task) :
  (forall g s, (0 < stage g)%nat ->
     advance env (w g) s
     = (let* g' := fetch_resume env g in ret (inl (w g') : Task + Answer)) s) ->
  forall f s given,
  exists result s' n,
    (let* f1 := fetch_resume env f in fetch_resume env f1) s
    = (Resolved (Returned result), s')
    /\ (n <= 2)%nat
    /\ run env net (replicate n (Advance 0%nat))
         {| svc := s; tasks := [w f]; answers := given |}
       = {| svc := s'; tasks := [w (Returned result)]; answers := given |}.
Proof.
  intros Hw f s given. unfold bind.
  destruct (fetch_resume_stage f s) as (f1 & s1 & Hrun1 & Hst1).
  destruct (fetch_resume_stage f1 s1) as (f2 & s2 & Hrun2 & Hst2).
  rewrite Hrun1, Hrun2.
  assert (stage f <= 2)%nat as Hst by (destruct f; simpl; lia).
  destruct f2 as [| |result]; simpl in Hst2; try lia.
  exists result, s2.
  destruct f as [e a|e r0|r0].
  - destruct f1 as [|e1 r1|r1]; simpl in Hst1; try lia.
    + exists 2%nat. split; [done|]. split; [lia|].
      simpl replicate.
      rewrite run_cons, act_advance_head, Hw by (simpl; lia). unfold bind at 1.
      rewrite Hrun1. simpl settle.
      rewrite run_cons, act_advance_head, Hw by (simpl; lia). unfold bind at 1.
      rewrite Hrun2. reflexivity.
    + exists 1%nat. split; [done|]. split; [lia|].
      simpl in Hrun2. injection Hrun2 as <- <-.
      simpl replicate.
      rewrite run_cons, act_advance_head, Hw by (simpl; lia). unfold bind at 1.
      rewrite Hrun1. reflexivity.
  - destruct f1 as [| |r1]; simpl in Hst1; try lia.
    exists 1%nat. split; [done|]. split; [lia|].
    simpl in Hrun2. injection Hrun2 as <- <-.
    simpl replicate.
    rewrite run_cons, act_advance_head, Hw by (simpl; lia). unfold bind at 1.
    rewrite Hrun1. reflexivity.
  - exists 0%nat. split; [done|]. split; [lia|].
    simpl in Hrun1. injection Hrun1 as <- <-.
    simpl in Hrun2. injection Hrun2 as <- <-. reflexivity.
Qed.

Lemma run_call_request c s :
  run_call env net c s
  = fetchTMDB env net (call_request c).1 (call_request c).2 GET JsUndefined s.
Proof. destruct c; try reflexivity; simpl; destruct year as [y|]; reflexivity. Qed.

(** What the caller of [u] receives when the call is run in one piece. *)
Definition answer_of (u : Use) (s : Svc) : list Answer :=
  match u with
  | UseCall c =>
      match (run_call env net c s).1 with
      | Resolved r => [AnsweredJson r]
      | _ => []
      end
  | UseGenreList k =>
      match (getGenreList env net k s).1 with
      | Resolved gs => [AnsweredGenres gs]
      | _ => []
      end
  | UseMapGenreIds k genre_ids =>
      match (mapGenreIdsToObjects env net k genre_ids s).1 with
      | Resolved gs => [AnsweredGenres gs]
      | _ => []
      end
  end.

Ltac leftover n :=
  replace (replicate 4 (Advance 0%nat))
    with (replicate n (Advance 0%nat) ++ replicate (4 - n) (Advance 0%nat))
    by (rewrite <- replicate_add; f_equal; lia).

Lemma act_spawn u p :
  act env net (Spawn u) p = settle None (begin env net u (svc p)) p.
Proof. reflexivity. Qed.

Lemma alone_is_use u s given :
  run env net (alone u) {| svc := s; tasks := []; answers := given |}
  = {| svc := use env net u s; tasks := []; answers := given ++ answer_of u s |}.
Proof.
  unfold alone. rewrite run_cons, act_spawn. simpl svc.
  destruct u as [c|k|k genre_ids]; unfold use, answer_of.
  - rewrite run_call_request, fetchTMDB_in_stretches.
    unfold begin, bind.
    destruct (fetch_begin_run env net (call_request c).1 (call_request c).2 s)
      as (f & s1 & -> & _).
    simpl settle.
    destruct (run_fetching Wrapper (fun g s0 H => ltac:(by destruct g; [| |simpl in H; lia]))
                f s1 given) as (result & s2 & n & Hrun & Hn & Hpool).
    unfold bind in Hrun.
    destruct (fetch_resume env f s1) as [[f1| | |] s1']; try discriminate Hrun.
    rewrite Hrun. simpl fst. simpl snd.
    leftover n. rewrite run_app, Hpool.
    destruct (4 - n)%nat as [|m] eqn:Hm; [lia|]. simpl replicate.
    rewrite run_cons, act_advance_head. simpl.
    first [reflexivity | apply run_advances_idle].
  - rewrite getGenreList_in_stretches.
    unfold begin, bind.
    destruct (genre_list_begin_run env net k s) as ([f|cached] & s1 & new & -> & _).
    + simpl settle.
      destruct (run_fetching (GenreList k)
                  (fun g s0 H => ltac:(by destruct g; [| |simpl in H; lia]))
                  f s1 given) as (result & s2 & n & Hrun & Hn & Hpool).
      unfold bind in Hrun.
      destruct (fetch_resume env f s1) as [[f1| | |] s1']; try discriminate Hrun.
      rewrite Hrun.
      leftover n. rewrite run_app, Hpool.
      destruct (4 - n)%nat as [|m] eqn:Hm; [lia|]. simpl replicate.
      rewrite run_cons, act_advance_head.
      simpl advance. unfold bind.
      destruct (genre_list_resume_run k result s2) as (gs & s3 & -> & _).
      simpl. first [reflexivity | apply run_advances_idle].
    + simpl. first [reflexivity | apply run_advances_idle].
  - destruct genre_ids as [[|i ids]|].
    2: { unfold mapGenreIdsToObjects, bind. rewrite getGenreList_in_stretches.
         unfold begin, bind.
         destruct (genre_list_begin_run env net k s) as ([f|cached] & s1 & new & -> & _).
         - simpl settle.
           destruct (run_fetching (fun g => MapIds k (i :: ids) (inl g))
                       (fun g s0 H => ltac:(by destruct g; [| |simpl in H; lia]))
                       f s1 given) as (result & s2 & n & Hrun & Hn & Hpool).
           unfold bind in Hrun.
           destruct (fetch_resume env f s1) as [[f1| | |] s1']; try discriminate Hrun.
           rewrite Hrun.
           leftover n. rewrite run_app, Hpool.
           destruct (4 - n)%nat as [|[|m]] eqn:Hm; [lia|lia|]. simpl replicate.
           rewrite run_cons, act_advance_head.
           simpl advance. unfold bind.
           destruct (genre_list_resume_run k result s2) as (gs & s3 & -> & _).
           simpl settle. rewrite run_cons, act_advance_head.
           simpl. first [reflexivity | apply run_advances_idle].
         - simpl settle. simpl replicate. rewrite run_cons, act_advance_head.
           simpl. first [reflexivity | apply run_advances_idle]. }
    all: simpl; first [reflexivity | apply run_advances_idle].
Qed.

(** Calls run in turn leave the module in the state [uses] computes. *)
Lemma in_turn_is_uses us : forall s given,
  svc (run env net (in_turn us) {| svc := s; tasks := []; answers := given |})
  = uses env net us s
  /\ tasks (run env net (in_turn us) {| svc := s; tasks := []; answers := given |}) = [].
Proof.
  induction us as [|u us IH]; intros s given; [done|].
  change (in_turn (u :: us)) with (alone u ++ in_turn us).
  rewrite run_app, alone_is_use. apply IH.
Qed.
End InTurn.

(** *** Concrete schedules used by the examples *)

(** Two calls for the movie genre list, the second begun while the first
    is awaiting [fetch]; then each runs to its end. *)
Definition two_at_once : list Action :=
  [Spawn (UseGenreList KMovie); Spawn (UseGenreList KMovie);
   Advance 0; Advance 1; Advance 0; Advance 1; Advance 0; Advance 0]%nat.

(** A remote side whose genre list changes after the first request. *)
Definition changing_server : Net :=
  fun n _ => Responded {| status := 200; statusText := "OK";
                          body := JsonValue (JGenres (if (n =? 0)%nat then [drama]
                                                      else [comedy])) |}.

(** Two calls for the movie genre list that begin on an empty cache before
    either has finished both send a request, both fill the cache and both
    report a fetched list: the list is fetched with success twice. *)
Lemma overlapping_genre_list_calls_both_fetch :
  cached_count KMovie
    (console (svc (run token_env genre_server two_at_once (idle fresh)))) = 2%nat
  /\ map req_endpoint (sent (svc (run token_env genre_server two_at_once (idle fresh))))
     = ["genre/movie/list"; "genre/movie/list"]
  /\ tasks (run token_env genre_server two_at_once (idle fresh)) = []
  /\ answers (run token_env genre_server two_at_once (idle fresh))
     = [AnsweredGenres [drama; comedy]; AnsweredGenres [drama; comedy]].
Proof. vm_compute. repeat split. Qed.

(** A call that was awaiting the list when another call cached it
    overwrites the cache with its own answer. *)
Example awaiting_call_overwrites_cache :
  genreListCache KMovie
    (svc (run token_env changing_server
            [Spawn (UseGenreList KMovie); Spawn (UseGenreList KMovie);
             Advance 0; Advance 0; Advance 0]%nat (idle fresh)))
  = Some [drama]
  /\ genreListCache KMovie
       (svc (run token_env changing_server
               [Spawn (UseGenreList KMovie); Spawn (UseGenreList KMovie);
                Advance 0; Advance 0; Advance 0;
                Advance 0; Advance 0; Advance 0]%nat (idle fresh)))
     = Some [comedy].
Proof. vm_compute. by split. Qed.

(** C8.  Once the genre list of a kind is cached, [getGenreList] answers
    from the cache and leaves the state as it is (no request is sent), and
    a call that begins among any calls under way is answered at once with
    the cached list.  With an empty cache the function asks the remote
    source: a usable answer is returned and fills the cache, anything else
    gives the empty list and leaves the cache empty, so that the next call
    asks again.  When the calls run one after the other, each to its end
    (which is what [uses] computes), the genre list of a kind is fetched
    with success at most once; so it is under every schedule in which no
    call asks for that list while another call is awaiting it.  Under
    every schedule whatsoever each fetched list was paid for by a request
    of its own. *)
Theorem genre_list_fetched_once_unless_calls_overlap env net k :
  (forall s l, genreListCache k s = Some l ->
               getGenreList env net k s = (Resolved l, s))
  /\ (forall s, genreListCache k s = None ->
       exists r s',
         getGenreList env net k s = (Resolved r, s')
         /\ (credentials_missing env = true ->
             r = [] /\ genreListCache k s' = None /\ sent s' = sent s)
         /\ (credentials_missing env = false ->
             exists rq,
               sent s' = sent s ++ [rq]
               /\ req_endpoint rq = genre_endpoint k
               /\ match expected (net (length (sent s)) rq) ≫= response_genres with
                  | Some gs => r = gs /\ genreListCache k s' = Some gs
                  | None => r = [] /\ genreListCache k s' = None
                  end))
  /\ (forall us, (cached_count k (console (uses env net us fresh)) <= 1)%nat)
  /\ (forall us, svc (run env net (in_turn us) (idle fresh)) = uses env net us fresh)
  /\ (forall p l, genreListCache k (svc p) = Some l ->
        act env net (Spawn (UseGenreList k)) p
        = {| svc := svc p; tasks := tasks p;
             answers := answers p ++ [AnsweredGenres l] |})
  /\ (forall acts, apart env net k acts (idle fresh) = true ->
        (cached_count k (console (svc (run env net acts (idle fresh)))) <= 1)%nat)
  /\ (forall acts,
        (cached_count k (console (svc (run env net acts (idle fresh))))
         <= genre_requests k (sent (svc (run env net acts (idle fresh)))))%nat).
Proof.
  repeat split.
  - intros s l Hcache. unfold getGenreList. by rewrite Hcache.
  - intros s Hcache. by apply getGenreList_uncached.
  - intros us.
    assert (counted k (uses env net us fresh)) as Hc.
    { apply uses_counted. unfold counted. by destruct k. }
    rewrite Hc. destruct (genreListCache k _); lia.
  - intros us. apply in_turn_is_uses.
  - intros p l Hcache. unfold act, begin, bind, genre_list_begin. by rewrite Hcache.
  - intros acts Hapart.
    destruct (run_once env net k acts (idle fresh) Hapart) as [Hsum _]; [|lia].
    split; [unfold cached_count, count; simpl; lia | by destruct k].
  - intros acts.
    assert (paid k (idle fresh)) as Hinv
      by (unfold paid, cached_count, count; simpl; lia).
    apply (run_paid env net k acts) in Hinv. unfold paid in Hinv. lia.
Qed.

Lemma genre_list_fetched_once_unless_calls_overlap_witness :
  getMovieGenreList token_env genre_server (with_movie_genres [drama])
  = (Resolved [drama], with_movie_genres [drama])
  /\ (exists s',
        getMovieGenreList token_env offline fresh = (Resolved [], s')
        /\ movieGenreListCache s' = None)
  /\ (cached_count KMovie
        (console (svc (run token_env genre_server
                         (in_turn [UseGenreList KMovie; UseGenreList KMovie])
                         (idle fresh)))) <= 1)%nat.
Proof.
  destruct (genre_list_fetched_once_unless_calls_overlap token_env genre_server KMovie)
    as (Hhit & _ & _ & _ & _ & Hapart & _).
  destruct (genre_list_fetched_once_unless_calls_overlap token_env offline KMovie)
    as (_ & Hmiss & _).
  split; [|split].
  - apply Hhit. reflexivity.
  - destruct (Hmiss fresh eq_refl) as (r & s' & Hrun & _ & Hnet).
    destruct (Hnet eq_refl) as (rq & _ & _ & Hr). simpl in Hr. destruct Hr as [-> Hcache].
    exists s'. split; [exact Hrun | exact Hcache].
  - apply Hapart. reflexivity.
Defined.

(** X13.  A cached genre list is never cleared, whatever calls begin and
    in whatever order their stretches run.  When no call is awaiting the
    list of that kind, the cache keeps this very list from then on: no
    later call comes to await it, [getGenreList] answers the list and
    leaves the state as it is, and a call that begins is answered at once
    with it. *)
Theorem cached_genre_list_is_kept env net k l p acts :
  genreListCache k (svc p) = Some l ->
  is_Some (genreListCache k (svc (run env net acts p)))
  /\ (count (awaiting_list k) (tasks p) = 0%nat ->
      genreListCache k (svc (run env net acts p)) = Some l
      /\ count (awaiting_list k) (tasks (run env net acts p)) = 0%nat
      /\ getGenreList env net k (svc (run env net acts p))
         = (Resolved l, svc (run env net acts p))
      /\ act env net (Spawn (UseGenreList k)) (run env net acts p)
         = {| svc := svc (run env net acts p);
              tasks := tasks (run env net acts p);
              answers := answers (run env net acts p) ++ [AnsweredGenres l] |}).
Proof.
  intros Hcache. split.
  - assert (is_Some (genreListCache k (svc p))) as Hsome by (by rewrite Hcache).
    clear Hcache. unfold run. revert p Hsome.
    induction acts as [|a acts IH]; intros p Hsome; simpl; [done|].
    apply IH. by apply act_keeps_filled.
  - intros Hnone.
    destruct (run_at_rest env net k l acts p) as [Hkept Hquiet]; [by split|].
    repeat split; auto.
    + unfold getGenreList. by rewrite Hkept.
    + unfold act, begin, bind, genre_list_begin. by rewrite Hkept.
Qed.

Lemma cached_genre_list_is_kept_witness :
  genreListCache KMovie
    (svc (run token_env changing_server two_at_once (idle (with_movie_genres [drama]))))
  = Some [drama].
Proof.
  destruct (cached_genre_list_is_kept token_env changing_server KMovie [drama]
              (idle (with_movie_genres [drama])) two_at_once eq_refl) as [_ Hkept].
  destruct (Hkept eq_refl) as [Hcache _]. exact Hcache.
Defined.

End TmdbTasksFacts.

(** ** Start-up *)
Module IndexFacts.
Import TmdbService TmdbServiceFacts.

(** A step that goes through, whatever the state. *)
Definition resolves {W} (m : JsM W unit) : Prop :=
  forall w, exists w', m w = (Resolved tt, w').

Definition all_resolve {W} (d : Index.Deps W) : Prop :=
  resolves (Index.initDB d) /\ resolves (Index.getDB d) /\ resolves (Index.closeDB d)
  /\ resolves (Index.seedInitialGenericUsers d)
  /\ resolves (Index.seedInitialRestaurantPreferences d)
  /\ resolves (Index.seedInitialMoviePreferences d)
  /\ resolves (Index.seedInitialTvShowPreferences d)
  /\ resolves (Index.runMainCLI d).

Lemma call_resolves {W} (m : JsM W unit) (p : Index.Proc W) :
  resolves m ->
  exists w', Index.call m p
             = (Resolved tt, {| Index.world := w'; Index.console := Index.console p |}).
Proof.
  intros Hm. destruct (Hm (Index.world p)) as [w' Hw].
  exists w'. unfold Index.call, zoom. by rewrite Hw.
Qed.

Lemma program_exits_normally {W} (d : Index.Deps W) (p : Index.Proc W) :
  all_resolve d ->
  exists w',
    Index.program d p
    = (Index.Exited 0,
       {| Index.world := w';
          Index.console := Index.console p
            ++ [Index.LogStarting; Index.LogDatabaseEstablished; Index.LogShutDown] |}).
Proof.
  intros (Hinit & Hget & Hclose & Hs1 & Hs2 & Hs3 & Hs4 & Hcli).
  unfold Index.program, Index.main, Index.print. unfold bind, modify. simpl.
  repeat match goal with
         | |- context [Index.call ?m ?q] =>
             let w := fresh "w" in let H := fresh "H" in
             destruct (call_resolves m q ltac:(assumption)) as [w H];
             rewrite H; clear H; simpl
         end.
  eexists. rewrite <- !app_assoc. reflexivity.
Qed.

(** A process whose CLI does nothing but ask for the movie genres. *)
Definition genre_cli (env : Env) (net : Net) : Index.Deps Svc :=
  {| Index.initDB := ret tt; Index.getDB := ret tt; Index.closeDB := ret tt;
     Index.seedInitialGenericUsers := ret tt;
     Index.seedInitialRestaurantPreferences := ret tt;
     Index.seedInitialMoviePreferences := ret tt;
     Index.seedInitialTvShowPreferences := ret tt;
     Index.runMainCLI := getMovieGenreList env net ;; ret tt |}.

(** C6 (as amended).  Without credentials nothing stops the program at
    start-up: every [fetchTMDB] reports the missing credentials on the
    console and resolves with null without sending a request, so does
    every exported wrapper, and [main], which reads no credential, ends
    with exit status 0 whenever the steps it calls go through. *)
Theorem missing_credentials_are_reported_per_request env net :
  credentials_missing env = true ->
  (forall endpoint params method body s,
     fetchTMDB env net endpoint params method body s
     = (Resolved None,
        {| console := console s ++ [LogMissingCredentials]; sent := sent s;
           movieGenreListCache := movieGenreListCache s;
           tvGenreListCache := tvGenreListCache s |}))
  /\ (forall c s, exists s', run_call env net c s = (Resolved None, s')
                             /\ sent s' = sent s)
  /\ (forall W (d : Index.Deps W) p,
        all_resolve d -> exists p', Index.program d p = (Index.Exited 0, p')).
Proof.
  intros Hc. split; [|split].
  - intros. by apply fetchTMDB_without_credentials.
  - intros c s. destruct c; simpl;
      unfold getMovieDetails, getPopularMovies, searchMovies, getMovieRecommendations,
        getTvShowDetails, getTvShowSeasonDetails, getPopularTvShows, searchTvShows,
        getTvShowRecommendations, getMovieWatchProviders, getTvWatchProviders;
      rewrite fetchTMDB_without_credentials by done; eauto.
  - intros W d p Hd. destruct (program_exits_normally d p Hd) as [w' Hw]. eauto.
Qed.

Lemma missing_credentials_are_reported_per_request_witness :
  fetchTMDB no_credentials offline "movie/popular" [] GET JsUndefined fresh
  = (Resolved None,
     {| console := [LogMissingCredentials]; sent := [];
        movieGenreListCache := None; tvGenreListCache := None |}).
Proof.
  destruct (missing_credentials_are_reported_per_request no_credentials offline eq_refl)
    as [Hfetch _].
  apply (Hfetch "movie/popular" [] GET JsUndefined fresh).
Defined.

(** C6 as stated fails: with no credentials at all the program starts,
    its CLI asks for the genre list and gets the empty list, and the
    process ends with exit status 0. *)
Lemma program_runs_without_credentials :
  Index.program (genre_cli no_credentials offline)
    {| Index.world := fresh; Index.console := [] |}
  = (Index.Exited 0,
     {| Index.world :=
          {| console := [LogMissingCredentials]; sent := [];
             movieGenreListCache := None; tvGenreListCache := None |};
        Index.console :=
          [Index.LogStarting; Index.LogDatabaseEstablished; Index.LogShutDown] |}).
Proof. reflexivity. Qed.

End IndexFacts.

(** ** The restaurant cache *)
Module RestaurantDbFacts.
Import RestaurantDb.

Lemma find_app_none {A} (f : A -> bool) (l : list A) (x : A) :
  List.find f l = None -> List.find f (l ++ [x]) = if f x then Some x else None.
Proof.
  induction l as [|y l IH]; simpl; [done|].
  destruct (f y); [discriminate | exact IH].
Qed.

Lemma find_none_not_exists {A} (f : A -> bool) (l : list A) :
  List.find f l = None -> existsb f l = false.
Proof.
  induction l as [|y l IH]; simpl; [done|].
  destruct (f y); [discriminate | exact IH].
Qed.

Section Facts.
Variable JSON_stringify_list : list string -> string.
Variable JSON_parse_list : string -> Outcome (list string).
Variable next_rowid : Table -> Z.

Local Abbreviation save := (saveRestaurantToDb JSON_stringify_list JSON_parse_list next_rowid).

Definition stored (gpid : string) (t : Table) : option Row :=
  List.find (fun r => String.eqb (row_googlePlaceId r) gpid) t.

Definition new_row (d : RestaurantData) (t : Table) : Row :=
  {| row_id := next_rowid t;
     row_googlePlaceId := googlePlaceId d;
     row_name := name d;
     row_address := address d;
     row_cuisines := JSON_stringify_list (cuisines d);
     row_dietaryOptions := JSON_stringify_list (dietaryOptions d);
     row_rating := rating d |}.

Lemma save_existing d t row :
  stored (googlePlaceId d) t = Some row ->
  save d t = (Resolved (Some (RawRow row)), t).
Proof.
  unfold stored, saveRestaurantToDb, select_by_googlePlaceId, bind, gets.
  intros ->. reflexivity.
Qed.

Lemma getRestaurantById_reads i t :
  snd (getRestaurantById JSON_parse_list i t) = t.
Proof.
  unfold getRestaurantById, select_by_id, bind, gets, lift, ret.
  destruct (List.find _ t) as [r|]; [|done].
  destruct (JSON_parse_list (or_empty_array (row_cuisines r))); try done.
  destruct (JSON_parse_list (or_empty_array (row_dietaryOptions r))); done.
Qed.

Lemma save_new d t :
  stored (googlePlaceId d) t = None ->
  snd (save d t) = t ++ [new_row d t].
Proof.
  unfold stored, saveRestaurantToDb, select_by_googlePlaceId, bind, gets.
  intros Hnone. rewrite Hnone. unfold insert_restaurant.
  rewrite (find_none_not_exists _ _ Hnone). fold (new_row d t).
  destruct (next_rowid t =? 0); [done|].
  apply getRestaurantById_reads.
Qed.

Lemma stored_after_save d t :
  exists row, stored (googlePlaceId d) (snd (save d t)) = Some row.
Proof.
  destruct (stored (googlePlaceId d) t) as [row|] eqn:Hs.
  - rewrite (save_existing d t row Hs). eauto.
  - rewrite (save_new d t Hs). exists (new_row d t).
    unfold stored in *. rewrite (find_app_none _ _ _ Hs). simpl.
    by rewrite String.eqb_refl.
Qed.
End Facts.

(** C7.  When a restaurant with the same [googlePlaceId] is stored,
    [saveRestaurantToDb] inserts nothing and answers the stored row; so a
    second call with the same data answers the row the first call left in
    the table and leaves the table as the first call left it. *)
Theorem saveRestaurantToDb_idempotent
    (JSON_stringify_list : list string -> string)
    (JSON_parse_list : string -> Outcome (list string))
    (next_rowid : Table -> Z) (d : RestaurantData) (t : Table) :
  (forall row,
     stored (googlePlaceId d) t = Some row ->
     saveRestaurantToDb JSON_stringify_list JSON_parse_list next_rowid d t
     = (Resolved (Some (RawRow row)), t))
  /\ (exists r1 t1 row,
        saveRestaurantToDb JSON_stringify_list JSON_parse_list next_rowid d t = (r1, t1)
        /\ stored (googlePlaceId d) t1 = Some row
        /\ saveRestaurantToDb JSON_stringify_list JSON_parse_list next_rowid d t1
           = (Resolved (Some (RawRow row)), t1)).
Proof.
  split.
  - intros row. apply save_existing.
  - destruct (stored_after_save JSON_stringify_list JSON_parse_list next_rowid d t)
      as [row Hrow].
    destruct (saveRestaurantToDb _ _ _ d t) as [r1 t1] eqn:Hrun. simpl in Hrow.
    exists r1, t1, row. split; [done|]. split; [done|].
    by apply save_existing.
Qed.

(** A table holding one restaurant, and the same restaurant fetched again. *)
Definition json_text (l : list string) : string := String.concat "," l.
Definition no_parse (s : string) : Outcome (list string) := Resolved [s].
Definition rowid_by_count (t : Table) : Z := Z.of_nat (length t) + 1.

Definition cafe : RestaurantData :=
  {| googlePlaceId := "place-1"; name := "Cafe"; address := "1 Main St";
     cuisines := ["french"]; dietaryOptions := []; rating := 4 # 1 |}.

Definition cafe_row : Row :=
  {| row_id := 1; row_googlePlaceId := "place-1"; row_name := "Cafe";
     row_address := "1 Main St"; row_cuisines := "french";
     row_dietaryOptions := ""; row_rating := 4 # 1 |}.

Lemma saveRestaurantToDb_idempotent_witness :
  saveRestaurantToDb json_text no_parse rowid_by_count cafe [cafe_row]
  = (Resolved (Some (RawRow cafe_row)), [cafe_row]).
Proof.
  destruct (saveRestaurantToDb_idempotent json_text no_parse rowid_by_count cafe [cafe_row])
    as [Hexisting _].
  apply Hexisting. reflexivity.
Defined.

Example saveRestaurantToDb_twice :
  snd (saveRestaurantToDb json_text no_parse rowid_by_count cafe []) = [cafe_row]
  /\ snd (saveRestaurantToDb json_text no_parse rowid_by_count cafe [cafe_row]) = [cafe_row].
Proof. split; reflexivity. Qed.

End RestaurantDbFacts.

(** ** The recommendation engine (modelled from the specification) *)
Module EngineFacts.
Import Engine.

Definition ids (l : list CatalogItem) : list Z := map remote_id l.







Section Facts.
Variable fetchSimilarItems : Z -> option (list CatalogItem).
Variable fetchPopular : nat -> option (list CatalogItem).
Variable getRatingsForUser : Z -> list (Z * Z).
Variable getCachedItemByLocalId : Z -> option CatalogItem.
Variables seed_cap target_pool_size page_ceiling : nat.






(** When neither feed answers, nothing is recommended. *)
Lemma recommend_outage user prefs exclusions :
  (forall i, fetchSimilarItems i = None) ->
  (forall n, fetchPopular n = None) ->
  recommend fetchSimilarItems fetchPopular getRatingsForUser getCachedItemByLocalId
    seed_cap target_pool_size page_ceiling user prefs exclusions = [].
Proof.
  intros Hsim Hpop. unfold recommend, aggregate, aggregate_run.
  assert (forall seeds p, fold_left (fun p seed => absorb p (fetchSimilarItems seed)) seeds p = p)
    as Hfold.
  { induction seeds as [|seed seeds IH]; intros p; simpl; [done|].
    rewrite Hsim. simpl. apply IH. }
  unfold similar_pool. rewrite Hfold.
  assert (forall n page, paginate fetchPopular target_pool_size n page ([], []) = ([], []))
    as ->; [|done].
  induction n as [|n IH]; intros page; simpl; [done|].
  destruct (decide _); [done|]. rewrite Hpop. simpl. apply IH.
Qed.
End Facts.

(** C1.  Every item [recommend] returns satisfies the preference predicate
    for the preferences given, and its remote id is outside the exclusion
    set given. *)
Theorem recommend_matches_and_not_excluded
    (fetchSimilarItems : Z -> option (list CatalogItem))
    (fetchPopular : nat -> option (list CatalogItem))
    (getRatingsForUser : Z -> list (Z * Z))
    (getCachedItemByLocalId : Z -> option CatalogItem)
    (seed_cap target_pool_size page_ceiling : nat)
    (user : Z) (prefs : Preferences) (exclusions : gset Z) (item : CatalogItem) :
  item ∈ recommend fetchSimilarItems fetchPopular getRatingsForUser
           getCachedItemByLocalId seed_cap target_pool_size page_ceiling
           user prefs exclusions ->
  matches item prefs = true /\ remote_id item ∉ exclusions.
Proof.
  unfold recommend. intros Hin.
  apply list_elem_of_In, filter_In in Hin as [Hin Hexcl].
  apply filter_In in Hin as [_ Hmatch].
  split; [exact Hmatch|].
  apply negb_true_iff, bool_decide_eq_false in Hexcl. exact Hexcl.
Qed.


(** *** The scenario of section 8

    The user liked A and B and disliked C; the items similar to A are X
    and Y, those similar to B are Y and Z, where Z is C itself. *)
Definition item (i : Z) (t : string) (r : Q) : CatalogItem :=
  {| remote_id := i; local_id := Some (100 + i); title := t; year := Some 2020;
     genres := ["Drama"]; language := Some "en"; average_rating := r;
     vote_count := 250; duration := Some 110; providers := None |}.

Definition itemA := item 1 "A" (8 # 1).
Definition itemB := item 2 "B" (8 # 1).
Definition itemC := item 3 "C" (9 # 1).
Definition itemX := item 10 "X" (8 # 1).
Definition itemY := item 11 "Y" (6 # 1).

Definition scenario_similar (seed : Z) : option (list CatalogItem) :=
  if seed =? 1 then Some [itemX; itemY]
  else if seed =? 2 then Some [itemY; itemC]
  else None.

Definition scenario_popular (page : nat) : option (list CatalogItem) := None.

Definition scenario_ratings (user : Z) : list (Z * Z) := [(101, 5); (102, 5); (103, 1)].

Definition scenario_cache (local : Z) : option CatalogItem :=
  if local =? 101 then Some itemA
  else if local =? 102 then Some itemB
  else if local =? 103 then Some itemC
  else None.

Definition scenario_prefs : Preferences :=
  {| genre_allow := Some ["Drama"]; language_allow := None; year_range := None;
     duration_range := None; min_rating := Some (7 # 1); provider_allow := None |}.

Definition scenario_exclusions : gset Z := {[1; 2; 3]}.

Definition scenario_recommend : list CatalogItem :=
  recommend scenario_similar scenario_popular scenario_ratings scenario_cache
    5 3 4 1 scenario_prefs scenario_exclusions.

Example scenario_result : scenario_recommend = [itemX].
Proof. vm_compute. reflexivity. Qed.

Example scenario_pool :
  aggregate scenario_similar scenario_popular 3 4 [1; 2] = [itemX; itemY; itemC].
Proof. vm_compute. reflexivity. Qed.

Lemma recommend_matches_and_not_excluded_witness :
  matches itemX scenario_prefs = true /\ remote_id itemX ∉ scenario_exclusions.
Proof.
  apply (recommend_matches_and_not_excluded scenario_similar scenario_popular
           scenario_ratings scenario_cache 5 3 4 1).
  change (itemX ∈ scenario_recommend).
  rewrite scenario_result. apply list_elem_of_here.
Defined.

End EngineFacts.

(** ** The movie CLI session *)
Module MovieCliFacts.
Import TmdbService MovieCli.

Definition excluded_id (e : Event) : option Z :=
  match e with Excluded i => Some i | _ => None end.
Definition rated_id (e : Event) : option Z :=
  match e with Rated i _ => Some i | _ => None end.

(** The ids added to the exclusion set, and the ids rated, along a history. *)
Definition excluded_ids (t : list Event) : gset Z := list_to_set (omap excluded_id t).
Definition rated_ids (t : list Event) : gset Z := list_to_set (omap rated_id t).

(** A movie is presented as a recommendation only while its id is neither
    in the seed nor among the ids added before. *)
Definition never_presented_once_excluded (seed : gset Z) (t : list Event) : Prop :=
  forall t1 i t2, t = t1 ++ Presented i :: t2 -> i ∉ seed ∪ excluded_ids t1.

(** The state of the exclusion set [ex] after the history [new] of a
    session seeded with [seed]; [pending] holds the id of a rating that is
    stored but not yet added to the set. *)
Definition good (seed pending : gset Z) (new : list Event) (ex : gset Z) : Prop :=
  ex = seed ∪ excluded_ids new
  /\ never_presented_once_excluded seed new
  /\ rated_ids new ⊆ ex ∪ pending
  /\ excluded_ids new ⊆ rated_ids new
  /\ pending ⊆ rated_ids new.

Lemma excluded_ids_snoc t e :
  excluded_ids (t ++ [e])
  = excluded_ids t ∪ match e with Excluded i => {[i]} | _ => ∅ end.
Proof.
  unfold excluded_ids. rewrite omap_app, list_to_set_app_L.
  destruct e; simpl; set_solver.
Qed.

Lemma rated_ids_snoc t e :
  rated_ids (t ++ [e])
  = rated_ids t ∪ match e with Rated i _ => {[i]} | _ => ∅ end.
Proof.
  unfold rated_ids. rewrite omap_app, list_to_set_app_L.
  destruct e; simpl; set_solver.
Qed.

Lemma never_presented_snoc seed t e :
  never_presented_once_excluded seed t ->
  match e with Presented i => i ∉ seed ∪ excluded_ids t | _ => True end ->
  never_presented_once_excluded seed (t ++ [e]).
Proof.
  intros Ht He t1 i t2 Heq.
  destruct (decide (t2 = [])) as [->|Hne].
  - apply app_inj_tail in Heq as [-> ->]. exact He.
  - destruct (exists_last Hne) as (t2' & e' & ->).
    rewrite app_comm_cons, app_assoc in Heq.
    apply app_inj_tail in Heq as [-> ->].
    by apply (Ht t1 i t2').
Qed.

Lemma good_start seed : good seed ∅ [] seed.
Proof.
  unfold good, excluded_ids, rated_ids. simpl. repeat split; try set_solver.
  intros t1 i t2 Heq. by destruct t1.
Qed.

Lemma good_presented seed p new ex i :
  good seed p new ex -> i ∉ ex -> good seed p (new ++ [Presented i]) ex.
Proof.
  intros (Hex & Hnever & Hrated & Hexcl & Hpend) Hi.
  unfold good. rewrite excluded_ids_snoc, rated_ids_snoc.
  repeat split; try set_solver.
  apply never_presented_snoc; [done|]. by rewrite <- Hex.
Qed.

Lemma good_rated seed new ex i score :
  good seed ∅ new ex -> good seed {[i]} (new ++ [Rated i score]) ex.
Proof.
  intros (Hex & Hnever & Hrated & Hexcl & Hpend).
  unfold good. rewrite excluded_ids_snoc, rated_ids_snoc.
  repeat split; try set_solver.
  by apply never_presented_snoc.
Qed.

Lemma good_excluded seed new ex i :
  good seed {[i]} new ex -> good seed ∅ (new ++ [Excluded i]) ({[i]} ∪ ex).
Proof.
  intros (Hex & Hnever & Hrated & Hexcl & Hpend).
  unfold good. rewrite excluded_ids_snoc, rated_ids_snoc.
  repeat split; try set_solver.
  by apply never_presented_snoc.
Qed.


Section Logic.
Context {DB : Type}.

Local Abbreviation State := (St DB).
Local Abbreviation excl := (@sessionPersistentExcludeTmdbIds DB).

(** [triple I P m Q]: from a state in [P], [m] ends in [Q] when it
    resolves, and in [I] when it rejects, waits for ever or diverges. *)
Definition triple {A} (I P : State -> Prop) (m : CliM DB A) (Q : A -> State -> Prop)
  : Prop :=
  forall st, P st ->
    match m st with
    | (Resolved a, st') => Q a st'
    | (_, st') => I st'
    end.

Lemma triple_ret {A} I (Q : A -> State -> Prop) a : triple I (Q a) (ret a) Q.
Proof. intros st H. exact H. Qed.

Lemma triple_bind {A B} I P (m : CliM DB A) (k : A -> CliM DB B) Q R :
  triple I P m Q -> (forall a, triple I (Q a) (k a) R) -> triple I P (bind m k) R.
Proof.
  intros Hm Hk st HP. unfold bind. specialize (Hm st HP).
  destruct (m st) as [[a| | |] st']; try exact Hm.
  by apply Hk.
Qed.

Lemma triple_conseq {A} I (P P' : State -> Prop) (m : CliM DB A) (Q Q' : A -> State -> Prop) :
  triple I P m Q ->
  (forall st, P' st -> P st) -> (forall a st, Q a st -> Q' a st) ->
  triple I P' m Q'.
Proof.
  intros Hm HP HQ st H. specialize (Hm st (HP st H)).
  destruct (m st) as [[a| | |] st']; auto.
Qed.

Lemma triple_gets {A} I (P : State -> Prop) (f : State -> A) :
  triple I P (gets f) (fun a st => P st /\ a = f st).
Proof. intros st H. simpl. auto. Qed.

Lemma triple_modify I (f : State -> State) (Q : unit -> State -> Prop) :
  triple I (fun st => Q tt (f st)) (modify f) Q.
Proof. intros st H. exact H. Qed.

Lemma triple_iterate {A} I P (body : CliM DB (option A)) Q n :
  (forall st, P st -> I st) ->
  triple I P body (fun r st => match r with Some a => Q a st | None => P st end) ->
  triple I P (iterate n body) Q.
Proof.
  intros HPI Hbody. induction n as [|n IH]; intros st HP; simpl; [by apply HPI|].
  specialize (Hbody st HP).
  destruct (body st) as [[[a|]| | |] st']; try exact Hbody.
  destruct (decide _); [by apply IH | by apply HPI].
Qed.

Lemma triple_while_true {A} I P (body : CliM DB (option A)) Q :
  (forall st, P st -> I st) ->
  triple I P body (fun r st => match r with Some a => Q a st | None => P st end) ->
  triple I P (while_true body) Q.
Proof. intros HPI Hbody st HP. by apply (triple_iterate I P body Q). Qed.

(** The bound on the rounds is never what stops a loop: any two bounds
    above the number of lines left give the same run, and [while_true]
    satisfies the equation of the loop it stands for. *)
Lemma iterate_fuel {A} (body : CliM DB (option A)) : forall n m st,
  (length (stdin st) < n)%nat -> (length (stdin st) < m)%nat ->
  iterate n body st = iterate m body st.
Proof.
  induction n as [|n IH]; intros m st Hn Hm; [lia|].
  destruct m as [|m]; [lia|]. simpl.
  destruct (body st) as [[[a|]| | |] st']; try done.
  destruct (decide _); [|done]. apply IH; lia.
Qed.

Lemma iterate_S {A} (body : CliM DB (option A)) n st :
  iterate (S n) body st
  = match body st with
    | (Resolved (Some a), st') => (Resolved a, st')
    | (Resolved None, st') =>
        if decide (length (stdin st') < length (stdin st))%nat
        then iterate n body st'
        else (Diverged, st')
    | (Rejected e, st') => (Rejected e, st')
    | (Pending, st') => (Pending, st')
    | (Diverged, st') => (Diverged, st')
    end.
Proof. reflexivity. Qed.

Lemma while_true_unfold {A} (body : CliM DB (option A)) st :
  while_true body st
  = match body st with
    | (Resolved (Some a), st') => (Resolved a, st')
    | (Resolved None, st') =>
        if decide (length (stdin st') < length (stdin st))%nat
        then while_true body st'
        else (Diverged, st')
    | (Rejected e, st') => (Rejected e, st')
    | (Pending, st') => (Pending, st')
    | (Diverged, st') => (Diverged, st')
    end.
Proof.
  unfold while_true. rewrite iterate_S.
  destruct (body st) as [[[a|]| | |] st']; try done.
  destruct (decide _); [|done]. apply iterate_fuel; lia.
Qed.

(** *** Computations that touch neither the history nor the set *)
Definition silent {A} (m : CliM DB A) : Prop :=
  forall st, trace (snd (m st)) = trace st /\ excl (snd (m st)) = excl st.

Definition stable (P : State -> Prop) : Prop :=
  forall st st', trace st' = trace st -> excl st' = excl st -> P st -> P st'.

Lemma triple_silent {A} I P (m : CliM DB A) :
  silent m -> stable P -> (forall st, P st -> I st) ->
  triple I P m (fun _ => P).
Proof.
  intros Hm HP HPI st H. destruct (Hm st) as [Ht He].
  destruct (m st) as [[a| | |] st']; simpl in *;
    try apply HPI; by apply (HP st st').
Qed.

Lemma silent_ret {A} (a : A) : silent (ret a : CliM DB A).
Proof. by intros st. Qed.

Lemma silent_throw {A} e : silent (throw e : CliM DB A).
Proof. by intros st. Qed.

Lemma silent_bind {A B} (m : CliM DB A) (k : A -> CliM DB B) :
  silent m -> (forall a, silent (k a)) -> silent (bind m k).
Proof.
  intros Hm Hk st. unfold bind. destruct (Hm st) as [Ht He].
  destruct (m st) as [[a| | |] st']; simpl in *; auto.
  destruct (Hk a st') as [Ht' He']. split; congruence.
Qed.

Lemma silent_print o : silent (print o : CliM DB unit).
Proof. by intros st. Qed.

Lemma silent_ext {A} (m : JsM (World DB) A) : silent (ext m).
Proof. intros st. unfold ext, zoom. by destruct (m (world st)). Qed.

Lemma silent_service {A} (m : JsM Svc A) : silent (service m : CliM DB A).
Proof. apply silent_ext. Qed.

Lemma silent_ask : silent (ask : CliM DB string).
Proof. intros st. unfold ask. by destruct (stdin st). Qed.

Lemma silent_gets {A} (f : State -> A) : silent (gets f).
Proof. by intros st. Qed.

Lemma silent_assign f : silent (assign f : CliM DB unit).
Proof. by intros st. Qed.

Lemma silent_set_prefs p : silent (modify (set_prefs p) : CliM DB unit).
Proof. by intros st. Qed.

Lemma silent_iterate {A} (body : CliM DB (option A)) n :
  silent body -> silent (iterate n body).
Proof.
  intros Hb. induction n as [|n IH]; intros st; simpl; [done|].
  destruct (Hb st) as [Ht He].
  destruct (body st) as [[[a|]| | |] st']; simpl in *; auto.
  destruct (decide _); simpl; auto.
  destruct (IH st') as [Ht' He']. split; congruence.
Qed.

Lemma silent_while_true {A} (body : CliM DB (option A)) :
  silent body -> silent (while_true body).
Proof. intros Hb st. by apply silent_iterate. Qed.

Lemma silent_map_all {A B} (f : A -> CliM DB B) (xs : list A) :
  (forall x, silent (f x)) -> silent (map_all f xs).
Proof.
  intros Hf. induction xs as [|x xs IH]; simpl; [apply silent_ret|].
  apply silent_bind; [apply Hf|]. intros y.
  apply silent_bind; [apply IH|]. intros ys. apply silent_ret.
Qed.
End Logic.

Ltac silence :=
  repeat first
    [ apply silent_ret | apply silent_throw | apply silent_print
    | apply silent_service | apply silent_ext | apply silent_ask
    | apply silent_gets | apply silent_assign | apply silent_set_prefs
    | apply silent_while_true
    | apply silent_map_all; intros
    | apply silent_bind; [|intros]
    | match goal with
      | |- silent (match ?x with _ => _ end) => destruct x
      end ].

Section Session.
Context {DB : Type}.
Variable deps : Collaborators DB.
Variable env : Env.
Variable net : Net.
Variable parseFloat : string -> option Q.

Local Abbreviation State := (St DB).
Local Abbreviation excl := (@sessionPersistentExcludeTmdbIds DB).

Lemma silent_displayMovieSummary m : silent (displayMovieSummary m : CliM DB unit).
Proof. apply silent_print. Qed.

Lemma silent_searchAndSelectMovie : silent (searchAndSelectMovie (DB:=DB) env net).
Proof. unfold searchAndSelectMovie. silence. Qed.

Lemma silent_manageMoviePreferences :
  silent (manageMoviePreferences deps env net parseFloat).
Proof. unfold manageMoviePreferences. silence. Qed.

Lemma silent_loadPreferences u : silent (loadPreferences deps u).
Proof. unfold loadPreferences. silence. Qed.

Lemma silent_ratedMoviesInDb u : silent (ratedMoviesInDb deps u).
Proof. unfold ratedMoviesInDb. silence. Qed.

(** The session seeded with [seed], whose history starts after [t0]. *)
Variable seed : gset Z.
Variable t0 : list Event.

Definition Inv (pending : gset Z) (st : State) : Prop :=
  exists new, trace st = t0 ++ new /\ good seed pending new (excl st).

Local Abbreviation J := (Inv ∅).

Lemma stable_Inv p : stable (Inv p).
Proof. intros st st' Ht He (new & Hnew & Hgood). exists new. by rewrite Ht, He. Qed.

Lemma stable_Inv_fresh p i : stable (fun st => Inv p st /\ i ∉ excl st).
Proof.
  intros st st' Ht He [H Hi]. split; [by apply (stable_Inv p st)|]. by rewrite He.
Qed.

Lemma triple_ret_pre {A} (P : State -> Prop) (Q : A -> State -> Prop) a :
  (forall st, P st -> Q a st) -> triple J P (ret a) Q.
Proof. intros H st HP. by apply H. Qed.

Lemma triple_frame {A} (m : CliM DB A) : silent m -> triple J J m (fun _ => J).
Proof. intros Hm. apply triple_silent; auto using stable_Inv. Qed.

Lemma triple_print (P : State -> Prop) o :
  stable P -> triple J P (print o) (fun _ => P).
Proof. intros HP st H. simpl. by apply (HP st). Qed.

Lemma triple_rate u m score :
  triple J J (rate deps u m score) (fun _ => Inv {[tmdb_id m]}).
Proof.
  unfold rate. eapply triple_bind; [apply triple_frame, silent_ext|].
  intros ? st (new & Hnew & Hgood). simpl.
  exists (new ++ [Rated (tmdb_id m) score]). split.
  - simpl. by rewrite Hnew, app_assoc.
  - by apply good_rated.
Qed.

Lemma triple_exclude i : triple J (Inv {[i]}) (exclude i) (fun _ => J).
Proof.
  intros st (new & Hnew & Hgood). simpl.
  exists (new ++ [Excluded i]). split.
  - simpl. by rewrite Hnew, app_assoc.
  - by apply good_excluded.
Qed.

Lemma triple_present i :
  triple J (fun st => J st /\ i ∉ excl st) (note (Presented i)) (fun _ => J).
Proof.
  intros st [(new & Hnew & Hgood) Hi]. simpl.
  exists (new ++ [Presented i]). split.
  - simpl. by rewrite Hnew, app_assoc.
  - by apply good_presented.
Qed.

Definition after_interaction (m : Movie) (r : Interaction) : State -> Prop :=
  match r with
  | liked | disliked => Inv {[tmdb_id m]}
  | _ => J
  end.

Lemma triple_viewAndInteractWithMovieDetails m u :
  triple J J (viewAndInteractWithMovieDetails deps env net m u) (after_interaction m).
Proof.
  unfold viewAndInteractWithMovieDetails.
  eapply triple_bind; [apply triple_frame; silence|]. intros ?; cbv beta.
  eapply triple_bind; [apply triple_frame; silence|]. intros details.
  eapply triple_bind; [apply triple_frame; unfold displayMovieSummary; silence|].
  intros ?; cbv beta. apply triple_while_true; [done|].
  eapply triple_bind; [apply triple_frame, silent_ask|]. intros answer. simpl.
  destruct (String.eqb (toLowerCase answer) "l").
  { eapply triple_bind; [apply triple_rate|]. intros ?; cbv beta.
    eapply triple_bind; [apply triple_print, stable_Inv|]. intros ?; cbv beta.
    by apply triple_ret_pre. }
  destruct (String.eqb (toLowerCase answer) "d").
  { eapply triple_bind; [apply triple_rate|]. intros ?; cbv beta.
    eapply triple_bind; [apply triple_print, stable_Inv|]. intros ?; cbv beta.
    by apply triple_ret_pre. }
  destruct (String.eqb (toLowerCase answer) "n"); [by apply triple_ret_pre|].
  destruct (String.eqb (toLowerCase answer) "q"); [by apply triple_ret_pre|].
  eapply triple_bind; [apply triple_print, stable_Inv|]. intros ?; cbv beta.
  by apply triple_ret_pre.
Qed.

Lemma triple_settle m r :
  triple J (after_interaction m r)
    (match r with
     | liked | disliked => exclude (tmdb_id m)
     | _ => ret tt
     end) (fun _ => J).
Proof. destruct r; simpl; first [apply triple_exclude | by apply triple_ret_pre]. Qed.

Lemma triple_interactionLoop u m :
  triple J J (interactionLoop deps env net u m) (fun _ => J).
Proof.
  unfold interactionLoop. apply triple_while_true; [done|].
  eapply triple_bind; [apply triple_frame, silent_ask|]. intros answer. simpl.
  destruct (String.eqb (toLowerCase answer) "l").
  { eapply triple_bind; [apply triple_rate|]. intros ?; cbv beta.
    eapply triple_bind; [apply triple_print, stable_Inv|]. intros ?; cbv beta.
    eapply triple_bind; [apply triple_exclude|]. intros ?; cbv beta.
    by apply triple_ret_pre. }
  destruct (String.eqb (toLowerCase answer) "d").
  { eapply triple_bind; [apply triple_rate|]. intros ?; cbv beta.
    eapply triple_bind; [apply triple_print, stable_Inv|]. intros ?; cbv beta.
    eapply triple_bind; [apply triple_exclude|]. intros ?; cbv beta.
    by apply triple_ret_pre. }
  destruct (String.eqb (toLowerCase answer) "v").
  { eapply triple_bind; [apply triple_viewAndInteractWithMovieDetails|]. intros r.
    eapply triple_bind; [apply triple_settle|]. intros ?; cbv beta.
    by apply triple_ret_pre. }
  destruct (String.eqb (toLowerCase answer) "n"); [by apply triple_ret_pre|].
  destruct (String.eqb (toLowerCase answer) "q"); [by apply triple_ret_pre|].
  eapply triple_bind; [apply triple_print, stable_Inv|]. intros ?; cbv beta.
  by apply triple_ret_pre.
Qed.

Lemma triple_present_queue u queue : forall shown,
  triple J J (present_queue deps env net u queue shown) (fun _ => J).
Proof.
  induction queue as [|movie queue IH]; intros shown; simpl.
  { by apply triple_ret_pre. }
  destruct ((id movie =? 0) || (tmdb_id movie =? 0)).
  { eapply triple_bind; [apply triple_print, stable_Inv|]. intros ?; cbv beta. apply IH. }
  eapply triple_bind; [apply triple_gets|]. intros excluded. simpl.
  destruct excluded; simpl.
  { eapply triple_conseq; [apply IH | by intros st [H _] | done]. }
  destruct (bool_decide (tmdb_id movie ∈ shown)).
  { eapply triple_conseq; [apply IH | by intros st [H _] | done]. }
  eapply triple_bind.
  { eapply triple_conseq;
      [apply (triple_print (fun st => J st /\ tmdb_id movie ∉ excl st)),
         stable_Inv_fresh | | intros a st H; exact H].
    intros st [H Hex]. split; [done|].
    symmetry in Hex. by apply bool_decide_eq_false in Hex. }
  intros ?; cbv beta.
  eapply triple_bind; [apply triple_present|]. intros ?; cbv beta.
  eapply triple_bind; [apply triple_interactionLoop|]. intros r.
  destruct r; try apply IH.
  eapply triple_bind; [apply triple_print, stable_Inv|]. intros ?; cbv beta.
  by apply triple_ret_pre.
Qed.

Lemma triple_presentMovieRecommendationsOneByOne u recs :
  triple J J (presentMovieRecommendationsOneByOne deps env net u recs) (fun _ => J).
Proof.
  unfold presentMovieRecommendationsOneByOne. destruct recs as [|m recs].
  { apply triple_frame. silence. }
  eapply triple_bind; [apply triple_print, stable_Inv|]. intros ?; cbv beta.
  eapply triple_bind; [apply triple_present_queue|]. intros finished.
  destruct finished; [apply triple_print, stable_Inv | by apply triple_ret_pre].
Qed.

Lemma triple_recommendOneByOne u :
  triple J J (recommendOneByOne deps env net u) (fun _ => J).
Proof.
  unfold recommendOneByOne.
  eapply triple_bind; [apply triple_print, stable_Inv|]. intros ?; cbv beta.
  eapply triple_bind; [apply triple_frame, silent_gets|]. intros copy.
  eapply triple_bind; [apply triple_frame, silent_ext|]. intros recs.
  apply triple_presentMovieRecommendationsOneByOne.
Qed.

Lemma triple_rateAMovie u : triple J J (rateAMovie deps env net u) (fun _ => J).
Proof.
  unfold rateAMovie.
  eapply triple_bind; [apply triple_frame, silent_searchAndSelectMovie|].
  intros [found|]; [|by apply triple_ret_pre].
  eapply triple_bind; [apply triple_frame, silent_service|].
  intros [details|]; [|by apply triple_ret_pre].
  eapply triple_bind; [apply triple_frame, silent_ext|].
  intros [movie|]; [|by apply triple_ret_pre].
  eapply triple_bind; [apply triple_frame, silent_displayMovieSummary|].
  intros ?; cbv beta.
  eapply triple_bind; [apply triple_frame, silent_ask|]. intros ratingStr.
  destruct (parseInt (trim ratingStr)) as [rating|]; [|by apply triple_ret_pre].
  destruct ((1 <=? rating) && (rating <=? 5)); [|by apply triple_ret_pre].
  eapply triple_bind; [apply triple_rate|]. intros ?; cbv beta.
  eapply triple_bind; [apply triple_print, stable_Inv|]. intros ?; cbv beta.
  apply triple_exclude.
Qed.

Lemma triple_searchAndView u : triple J J (searchAndView deps env net u) (fun _ => J).
Proof.
  unfold searchAndView.
  eapply triple_bind; [apply triple_frame, silent_searchAndSelectMovie|].
  intros [found|]; [|by apply triple_ret_pre].
  eapply triple_bind; [apply triple_frame, silent_service|].
  intros [details|]; [|by apply triple_ret_pre].
  eapply triple_bind; [apply triple_frame, silent_ext|].
  intros [movie|]; [|by apply triple_ret_pre].
  eapply triple_bind; [apply triple_viewAndInteractWithMovieDetails|].
  intros r. apply triple_settle.
Qed.

Lemma triple_menu u :
  triple J J (menu deps env net parseFloat u) (fun _ => J).
Proof.
  unfold menu.
  eapply triple_bind; [apply triple_print, stable_Inv|]. intros ?; cbv beta.
  eapply triple_bind; [apply triple_frame, silent_ask|]. intros answer. simpl.
  destruct (String.eqb (trim answer) "1").
  { eapply triple_bind; [apply triple_recommendOneByOne|]. intros ?.
    by apply triple_ret_pre. }
  destruct (String.eqb (trim answer) "2").
  { eapply triple_bind; [apply triple_rateAMovie|]. intros ?.
    by apply triple_ret_pre. }
  destruct (String.eqb (trim answer) "3").
  { eapply triple_bind; [apply triple_searchAndView|]. intros ?.
    by apply triple_ret_pre. }
  destruct (String.eqb (trim answer) "4").
  { eapply triple_bind; [apply triple_frame, silent_manageMoviePreferences|]. intros ?.
    by apply triple_ret_pre. }
  destruct (String.eqb (trim answer) "0"); [by apply triple_ret_pre|].
  eapply triple_bind; [apply triple_print, stable_Inv|]. intros ?.
  by apply triple_ret_pre.
Qed.

(** Whatever the user types and however the menu loop ends, the state
    it ends in is a state of the session. *)
Lemma menu_loop_keeps_session u st :
  J st -> J (snd (while_true (menu deps env net parseFloat u) st)).
Proof.
  intros H.
  assert (triple J J (while_true (menu deps env net parseFloat u)) (fun _ => J)) as Hloop.
  { apply triple_while_true; [done|].
    eapply triple_conseq; [apply triple_menu | done |]. by intros [[]|]. }
  specialize (Hloop st H).
  by destruct (while_true _ st) as [[[]| | |] st'].
Qed.
End Session.

Section Seeding.
Context {DB : Type}.
Variable deps : Collaborators DB.
Variable env : Env.
Variable net : Net.
Variable parseFloat : string -> option Q.

Local Abbreviation State := (St DB).
Local Abbreviation excl := (@sessionPersistentExcludeTmdbIds DB).

(** The rated movies as the database gives them: the ids the user has
    rated, each looked up in the cache, those not found dropped. *)
Definition rated_lookup (u : User) : JsM (World DB) (list Movie) :=
  let* ratedMovieOurDbIds := getRatedMovieIdsByUser deps (user_id u) in
  let* looked := map_all (getMovieByOurId deps) ratedMovieOurDbIds in
  ret (omap (fun m => m) looked).

(** The preferences could be read, so that the session gets to build
    its exclusion set. *)
Definition session_opens (u : User) (w : World DB) : Prop :=
  exists found w1, getUserMoviePreferences deps (user_id u) w = (Resolved found, w1).

(** The TMDB ids of the rated movies when the session opens. *)
Definition session_seed (u : User) (w : World DB) : gset Z :=
  match getUserMoviePreferences deps (user_id u) w with
  | (Resolved _, w1) =>
      match rated_lookup u w1 with
      | (Resolved rated, _) => list_to_set (tmdb_id <$> rated)
      | _ => ∅
      end
  | _ => ∅
  end.

Lemma ext_run {A} (m : JsM (World DB) A) (st : State) :
  ext m st = (fst (m (world st)), set_world (snd (m (world st))) st).
Proof. unfold ext, zoom. by destruct (m (world st)). Qed.

Lemma map_all_ext {A B} (f : A -> JsM (World DB) B) xs : forall st : State,
  map_all (fun x => ext (f x)) xs st
  = (fst (map_all f xs (world st)), set_world (snd (map_all f xs (world st))) st).
Proof.
  induction xs as [|x xs IH]; intros st; simpl.
  { unfold ret. simpl. by destruct st. }
  unfold bind. rewrite ext_run.
  destruct (f x (world st)) as [[y| | |] w1]; simpl; try done.
  rewrite IH. simpl.
  by destruct (map_all f xs w1) as [[ys| | |] w2].
Qed.

Lemma ratedMoviesInDb_world u (st : State) :
  ratedMoviesInDb deps u st
  = (fst (rated_lookup u (world st)), set_world (snd (rated_lookup u (world st))) st).
Proof.
  unfold ratedMoviesInDb, rated_lookup, bind. rewrite ext_run.
  destruct (getRatedMovieIdsByUser deps (user_id u) (world st)) as [[l| | |] w1];
    simpl; try done.
  rewrite map_all_ext. simpl.
  by destruct (map_all (getMovieByOurId deps) l w1) as [[ys| | |] w2].
Qed.

Lemma seed_adds ms : forall st : State,
  exists st',
    for_each ms (fun m => modify (fun st =>
      set_excl ({[tmdb_id m]} ∪ sessionPersistentExcludeTmdbIds st) st)) st
    = (Resolved tt, st')
    /\ trace st' = trace st
    /\ excl st' = list_to_set (tmdb_id <$> ms) ∪ excl st.
Proof.
  induction ms as [|m ms IH]; intros st; simpl.
  { exists st. repeat split. set_solver. }
  destruct (IH (set_excl ({[tmdb_id m]} ∪ excl st) st)) as (st' & Hrun & Ht & He).
  exists st'. split; [|split].
  - unfold bind. change (modify ?f st) with (Resolved tt, f st). exact Hrun.
  - rewrite Ht. reflexivity.
  - rewrite He. simpl. set_solver.
Qed.

Lemma session_opens_dec u w : session_opens u w \/ ~ session_opens u w.
Proof.
  unfold session_opens.
  destruct (getUserMoviePreferences deps (user_id u) w) as [[found| | |] w1];
    [left; eauto | right; intros (f & w2 & H); discriminate ..].
Qed.

Lemma loadPreferences_run u (st0 : State) found w1 :
  getUserMoviePreferences deps (user_id u) (world st0) = (Resolved found, w1) ->
  exists st1,
    loadPreferences deps u st0 = (Resolved tt, st1)
    /\ world st1 = w1 /\ trace st1 = trace st0.
Proof.
  intros Hprefs. unfold loadPreferences, bind. rewrite ext_run, Hprefs. simpl.
  destruct found as [prefs|]; eexists; (split; [reflexivity|]); by simpl.
Qed.

Lemma loadPreferences_fails u (st0 : State) :
  ~ session_opens u (world st0) ->
  fst (loadPreferences deps u st0) <> Resolved tt
  /\ trace (snd (loadPreferences deps u st0)) = trace st0.
Proof.
  intros Hclosed. unfold loadPreferences, bind. rewrite ext_run.
  destruct (getUserMoviePreferences deps (user_id u) (world st0))
    as [[found| | |] w1] eqn:Hprefs; simpl; try done.
  exfalso. apply Hclosed. unfold session_opens. eauto.
Qed.

Lemma seedExclusions_run u (st1 : State) :
  trace (snd (seedExclusions deps u st1)) = trace st1
  /\ excl (snd (seedExclusions deps u st1))
     = match rated_lookup u (world st1) with
       | (Resolved rated, _) => list_to_set (tmdb_id <$> rated)
       | _ => ∅
       end.
Proof.
  unfold seedExclusions, bind.
  change (modify (set_excl ∅) st1) with (Resolved tt, set_excl (DB:=DB) ∅ st1).
  cbv beta iota. rewrite ratedMoviesInDb_world.
  change (world (set_excl ∅ st1)) with (world st1).
  destruct (rated_lookup u (world st1)) as [[rated| | |] w2]; cbn [fst snd];
    try (split; reflexivity).
  destruct (seed_adds rated (set_world w2 (set_excl ∅ st1))) as (st' & Hrun & Ht' & He').
  rewrite Hrun. cbn [fst snd]. split; [by rewrite Ht'|].
  rewrite He'. simpl. set_solver.
Qed.

(** The start of the session: no event, and the set is the seed. *)
Lemma seed_phase u (st0 : State) :
  trace (snd ((loadPreferences deps u ;; seedExclusions deps u) st0)) = trace st0
  /\ (session_opens u (world st0) ->
      excl (snd ((loadPreferences deps u ;; seedExclusions deps u) st0))
      = session_seed u (world st0)).
Proof.
  destruct (session_opens_dec u (world st0)) as [Hopen|Hclosed].
  - destruct Hopen as (found & w1 & Hprefs).
    destruct (loadPreferences_run u st0 found w1 Hprefs) as (st1 & Hrun & Hw & Ht).
    unfold bind. rewrite Hrun.
    destruct (seedExclusions_run u st1) as [Ht' He'].
    split; [congruence|]. intros _.
    rewrite He'. unfold session_seed. by rewrite Hprefs, Hw.
  - destruct (loadPreferences_fails u st0 Hclosed) as [Hr Ht].
    split; [|done]. unfold bind.
    by destruct (loadPreferences deps u st0) as [[[]| | |] st1].
Qed.

Lemma bind_unfold {S A B} (m : JsM S A) (k : A -> JsM S B) s :
  bind m k s
  = match m s with
    | (Resolved a, s') => k a s'
    | (Rejected e, s') => (Rejected e, s')
    | (Pending, s') => (Pending, s')
    | (Diverged, s') => (Diverged, s')
    end.
Proof. reflexivity. Qed.

Lemma bind_assoc {S A B C} (m : JsM S A) (k : A -> JsM S B) (h : B -> JsM S C) s :
  bind m (fun a => bind (k a) h) s = bind (bind m k) h s.
Proof.
  unfold bind. destruct (m s) as [[a| | |] s']; try done.
Qed.

(** Every operation of the menu only adds to the exclusion set, and
    what it adds is the id of a movie rated in that operation. *)
Lemma menu_only_adds u (st : State) :
  exists new,
    trace (snd (menu deps env net parseFloat u st)) = trace st ++ new
    /\ excl (snd (menu deps env net parseFloat u st)) = excl st ∪ excluded_ids new
    /\ excluded_ids new ⊆ rated_ids new.
Proof.
  assert (Inv (excl st) (trace st) ∅ st) as H.
  { exists []. split; [by rewrite app_nil_r | apply good_start]. }
  pose proof (triple_menu deps env net parseFloat (excl st) (trace st) u st H) as Hm.
  assert (Inv (excl st) (trace st) ∅ (snd (menu deps env net parseFloat u st))) as H'.
  { by destruct (menu deps env net parseFloat u st) as [[[[]|]| | |] st']. }
  destruct H' as (new & Ht & He & _ & _ & Hexcl & _). eauto.
Qed.

Lemma presentation_only_adds u recs (st : State) :
  exists new,
    trace (snd (presentMovieRecommendationsOneByOne deps env net u recs st))
    = trace st ++ new
    /\ excl (snd (presentMovieRecommendationsOneByOne deps env net u recs st))
       = excl st ∪ excluded_ids new
    /\ excluded_ids new ⊆ rated_ids new.
Proof.
  assert (Inv (excl st) (trace st) ∅ st) as H.
  { exists []. split; [by rewrite app_nil_r | apply good_start]. }
  pose proof (triple_presentMovieRecommendationsOneByOne deps env net
                (excl st) (trace st) u recs st H) as Hm.
  assert (Inv (excl st) (trace st) ∅
            (snd (presentMovieRecommendationsOneByOne deps env net u recs st))) as H'.
  { by destruct (presentMovieRecommendationsOneByOne deps env net u recs st)
      as [[[]| | |] st']. }
  destruct H' as (new & Ht & He & _ & _ & Hexcl & _). eauto.
Qed.

Lemma session_invariant u (st0 : State) :
  exists new,
    trace (snd (runMovieCLI deps env net parseFloat u st0)) = trace st0 ++ new
    /\ never_presented_once_excluded (session_seed u (world st0)) new
    /\ excluded_ids new ⊆ rated_ids new
    /\ (session_opens u (world st0) ->
        excl (snd (runMovieCLI deps env net parseFloat u st0))
        = session_seed u (world st0) ∪ excluded_ids new
        /\ rated_ids new ⊆ excl (snd (runMovieCLI deps env net parseFloat u st0))).
Proof.
  unfold runMovieCLI. rewrite bind_assoc.
  destruct (seed_phase u st0) as [Ht He].
  rewrite (bind_unfold (loadPreferences deps u ;; seedExclusions deps u)).
  destruct ((loadPreferences deps u ;; seedExclusions deps u) st0)
    as [[[]| | |] st2] eqn:Hstart; simpl in *.
  2-4: exists []; rewrite app_nil_r; simpl;
       (split; [done|]); (split; [by intros [|??] ??[=]|]);
       (split; [done|]); intros Hopen; rewrite (He Hopen);
       unfold excluded_ids, rated_ids; simpl; set_solver.
  destruct (session_opens_dec u (world st0)) as [Hopen|Hclosed].
  - assert (Inv (session_seed u (world st0)) (trace st0) ∅ st2) as H.
    { exists []. split; [by rewrite app_nil_r|]. rewrite (He Hopen). apply good_start. }
    apply (menu_loop_keeps_session deps env net parseFloat) with (u := u) in H.
    destruct H as (new & Hnew & Hex & Hnever & Hrated & Hexcl & _).
    exists new. repeat split; auto. set_solver.
  - exfalso. destruct (loadPreferences_fails u st0 Hclosed) as [Hr _].
    apply Hr. unfold bind in Hstart.
    destruct (loadPreferences deps u st0) as [[[]| | |] st1]; try done;
      destruct (seedExclusions deps u st1) as [[[]| | |] st1']; done.
Qed.
End Seeding.

Section Presentation.
Context {DB : Type}.
Variable deps : Collaborators DB.
Variable env : Env.
Variable net : Net.

Local Abbreviation State := (St DB).
Local Abbreviation excl := (@sessionPersistentExcludeTmdbIds DB).

Lemma present_nothing u (st : State) :
  presentMovieRecommendationsOneByOne deps env net u [] st
  = (Resolved tt, push_out OutTryRatingMore (push_out OutNoRecommendations st)).
Proof. reflexivity. Qed.

Lemma recommend_nothing u (st : State) w' :
  getMovieRecommendationsForUser deps u (excl st) (world st) = (Resolved [], w') ->
  recommendOneByOne deps env net u st
  = (Resolved tt,
     push_out OutTryRatingMore
       (push_out OutNoRecommendations
          (set_world w' (push_out OutFetchingRecommendations st)))).
Proof.
  intros Hrec. unfold recommendOneByOne, bind, print, gets, modify. simpl.
  unfold ext, zoom. simpl. rewrite Hrec. reflexivity.
Qed.

(** One valid movie outside the set, answered with [N]ext. *)
Lemma present_and_skip u m answer rest (st : State) :
  id m <> 0 -> tmdb_id m <> 0 -> tmdb_id m ∉ excl st ->
  stdin st = answer :: rest -> toLowerCase answer = "n" ->
  presentMovieRecommendationsOneByOne deps env net u [m] st
  = (Resolved tt,
     {| world := world st; stdin := rest;
        out := out st ++ [OutHereAreRecommendations; OutSummary m; OutFinishedPresenting];
        userMoviePrefs := userMoviePrefs st;
        sessionPersistentExcludeTmdbIds := excl st;
        trace := trace st ++ [Presented (tmdb_id m)] |}).
Proof.
  intros Hid Htmdb Hex Hin Hn.
  destruct st as [w inp o prefs ex tr]. simpl in *. subst inp.
  apply Z.eqb_neq in Hid, Htmdb.
  unfold presentMovieRecommendationsOneByOne, present_queue.
  rewrite Hid, Htmdb. simpl orb. cbv iota.
  unfold bind, gets, print, note, displayMovieSummary, modify. simpl.
  rewrite (bool_decide_eq_false_2 _ Hex). simpl.
  rewrite bool_decide_eq_false_2 by set_solver.
  unfold interactionLoop, while_true. simpl.
  unfold bind at 1. unfold ask at 1. simpl. rewrite Hn. simpl.
  unfold push_out, set_stdin, push_trace. simpl.
  rewrite <- !app_assoc. reflexivity.
Qed.
End Presentation.

Definition presented_id (e : Event) : option Z :=
match e with Presented i => Some i | _ => None end.

(** The ids presented along a history, in order, repetitions included. *)
Definition presented_ids (t : list Event) : list Z := omap presented_id t.

Section ShownOnce.
Context {DB : Type}.
Variable deps : Collaborators DB.
Variable env : Env.
Variable net : Net.
Variable t0 : list Event.

Local Abbreviation State := (St DB).

(** Computations that extend the history without presenting anything. *)
Definition unpresenting {A} (m : CliM DB A) : Prop :=
  forall st, exists more,
    trace (snd (m st)) = trace st ++ more /\ presented_ids more = [].

Lemma unpresenting_silent {A} (m : CliM DB A) : silent m -> unpresenting m.
Proof.
  intros Hm st. exists []. destruct (Hm st) as [Ht _]. by rewrite app_nil_r.
Qed.

Lemma unpresenting_bind {A B} (m : CliM DB A) (k : A -> CliM DB B) :
  unpresenting m -> (forall a, unpresenting (k a)) -> unpresenting (bind m k).
Proof.
  intros Hm Hk st. unfold bind. destruct (Hm st) as (more & Ht & Hp).
  destruct (m st) as [[a| | |] st']; simpl in *; eauto.
  destruct (Hk a st') as (more' & Ht' & Hp').
  exists (more ++ more'). split.
  - by rewrite Ht', Ht, app_assoc.
  - unfold presented_ids in *. by rewrite omap_app, Hp, Hp'.
Qed.

Lemma unpresenting_iterate {A} (body : CliM DB (option A)) n :
  unpresenting body -> unpresenting (iterate n body).
Proof.
  intros Hb. induction n as [|n IH]; intros st; simpl.
  { exists []. by rewrite app_nil_r. }
  destruct (Hb st) as (more & Ht & Hp).
  destruct (body st) as [[[a|]| | |] st']; simpl in *; eauto.
  destruct (decide _); simpl; eauto.
  destruct (IH st') as (more' & Ht' & Hp').
  exists (more ++ more'). split.
  - by rewrite Ht', Ht, app_assoc.
  - unfold presented_ids in *. by rewrite omap_app, Hp, Hp'.
Qed.

Lemma unpresenting_while_true {A} (body : CliM DB (option A)) :
  unpresenting body -> unpresenting (while_true body).
Proof. intros Hb st. by apply unpresenting_iterate. Qed.

Lemma unpresenting_rate u m score : unpresenting (rate deps u m score).
Proof.
  unfold rate. apply unpresenting_bind; [apply unpresenting_silent, silent_ext|].
  intros _ st. by exists [Rated (tmdb_id m) score].
Qed.

Lemma unpresenting_exclude i : unpresenting (exclude i : CliM DB unit).
Proof. intros st. by exists [Excluded i]. Qed.

Ltac quieten_with tac :=
  repeat first
    [ tac
    | apply unpresenting_rate | apply unpresenting_exclude
    | apply unpresenting_while_true
    | apply unpresenting_silent; silence; fail
    | apply unpresenting_bind; [|intros]
    | progress cbv zeta
    | match goal with
      | |- unpresenting (if ?b then _ else _) => destruct b
      | |- unpresenting (match ?x with _ => _ end) => destruct x
      end ].

Lemma unpresenting_viewAndInteractWithMovieDetails m u :
  unpresenting (viewAndInteractWithMovieDetails deps env net m u).
Proof.
  unfold viewAndInteractWithMovieDetails.
  apply unpresenting_bind; [apply unpresenting_silent; silence|]. intros ?.
  apply unpresenting_bind; [apply unpresenting_silent; silence|]. intros ?.
  apply unpresenting_bind;
    [apply unpresenting_silent; unfold displayMovieSummary; silence|].
  intros ?. quieten_with fail.
Qed.

Lemma unpresenting_interactionLoop u m :
  unpresenting (interactionLoop deps env net u m).
Proof.
  unfold interactionLoop.
  quieten_with ltac:(apply unpresenting_viewAndInteractWithMovieDetails).
Qed.

(** Every id presented so far is in [shown], and none was presented twice. *)
Definition Shown (shown : gset Z) (st : State) : Prop :=
  exists new,
    trace st = t0 ++ new
    /\ NoDup (presented_ids new)
    /\ forall i, i ∈ presented_ids new -> i ∈ shown.

Definition Once (st : State) : Prop :=
  exists new, trace st = t0 ++ new /\ NoDup (presented_ids new).

Lemma Shown_Once shown st : Shown shown st -> Once st.
Proof. intros (new & Ht & Hnd & _). by exists new. Qed.

Lemma triple_unpresenting {A} (m : CliM DB A) shown :
  unpresenting m -> triple Once (Shown shown) m (fun _ => Shown shown).
Proof.
  intros Hm st (new & Ht & Hnd & Hin). destruct (Hm st) as (more & Ht' & Hp).
  assert (Shown shown (snd (m st))) as H.
  { exists (new ++ more). split; [by rewrite Ht', Ht, app_assoc|].
    unfold presented_ids in *. rewrite omap_app, Hp, app_nil_r. by split. }
  destruct (m st) as [[a| | |] st']; simpl in *; eauto using Shown_Once.
Qed.

Lemma triple_present_once shown i :
  i ∉ shown ->
  triple Once (Shown shown) (note (Presented i)) (fun _ => Shown ({[i]} ∪ shown)).
Proof.
  intros Hi st (new & Ht & Hnd & Hin). simpl.
  exists (new ++ [Presented i]). split; [simpl; by rewrite Ht, app_assoc|].
  unfold presented_ids in *. rewrite omap_app. simpl. split.
  - apply NoDup_app. split; [done|]. split; [|apply NoDup_singleton].
    intros j Hj Hji. apply list_elem_of_singleton in Hji. subst j.
    by apply Hi, Hin.
  - intros j Hj. apply elem_of_app in Hj as [Hj|Hj].
    + apply elem_of_union_r. by apply Hin.
    + apply list_elem_of_singleton in Hj. subst j. by apply elem_of_union_l, elem_of_singleton.
Qed.

Lemma triple_present_queue_once u queue : forall shown,
  triple Once (Shown shown) (present_queue deps env net u queue shown) (fun _ => Once).
Proof.
  induction queue as [|movie queue IH]; intros shown; simpl.
  { intros st H. by apply (Shown_Once shown). }
  destruct ((id movie =? 0) || (tmdb_id movie =? 0)).
  { eapply triple_bind;
      [apply triple_unpresenting, unpresenting_silent, silent_print|].
    intros ?. apply IH. }
  eapply triple_bind; [apply triple_gets|]. intros excluded. simpl.
  destruct excluded; simpl.
  { eapply triple_conseq; [apply IH | by intros st [H _] | done]. }
  destruct (bool_decide (tmdb_id movie ∈ shown)) eqn:Hshown.
  { eapply triple_conseq; [apply IH | by intros st [H _] | done]. }
  apply bool_decide_eq_false in Hshown.
  eapply triple_bind.
  { eapply triple_conseq;
      [apply (triple_unpresenting (displayMovieSummary movie) shown),
         unpresenting_silent, silent_displayMovieSummary
      | by intros st [H _] | intros a st H; exact H]. }
  intros ?; cbv beta.
  eapply triple_bind; [by apply triple_present_once|]. intros ?; cbv beta.
  eapply triple_bind;
    [apply triple_unpresenting, unpresenting_interactionLoop|]. intros r.
  destruct r; try apply IH.
  eapply triple_bind;
    [apply triple_unpresenting, unpresenting_silent, silent_print|].
  intros ?. intros st H. by apply (Shown_Once ({[tmdb_id movie]} ∪ shown)).
Qed.
End ShownOnce.

(** Within one presentation no TMDB id is presented twice, whatever the
    list of recommendations holds. *)
Lemma presentation_shows_each_id_once {DB} (deps : Collaborators DB) env net u recs
    (st : St DB) :
  exists new,
    trace (snd (presentMovieRecommendationsOneByOne deps env net u recs st))
    = trace st ++ new
    /\ NoDup (presented_ids new).
Proof.
  assert (Shown (trace st) ∅ st) as H.
  { exists []. split; [by rewrite app_nil_r|]. split; [constructor|].
    intros i Hi. by apply elem_of_nil in Hi. }
  unfold presentMovieRecommendationsOneByOne. destruct recs as [|m recs].
  { exists []. split; [by rewrite app_nil_r | constructor]. }
  assert (triple (Once (trace st)) (Shown (trace st) ∅)
            (print OutHereAreRecommendations ;;
             let* finished := present_queue deps env net u (m :: recs) ∅ in
             if finished : bool then print OutFinishedPresenting else ret tt)
            (fun _ => Once (trace st))) as Htriple.
  { eapply triple_bind;
      [apply triple_unpresenting, unpresenting_silent, silent_print|].
    intros ?. eapply triple_bind; [apply triple_present_queue_once|].
    intros finished. destruct finished.
    - intros st1 (new & Ht & Hnd). simpl. by exists new.
    - intros st1 Hst1. exact Hst1. }
  specialize (Htriple st H).
  destruct ((print OutHereAreRecommendations ;; _) st) as [[[]| | |] st']; exact Htriple.
Qed.

(** *** A small session

    The user has rated movie A before.  The recommender, whatever set it
    is given, proposes A, B and C.  The user asks for recommendations,
    likes B, skips C, asks again, skips C again and leaves. *)
Definition demo_movie (i : Z) (t : string) : Movie :=
  {| id := i; tmdb_id := 11 * i; title := t; release_date := None; runtime := None;
     vote_count := 0; genres := []; overview := None |}.

Definition movieA := demo_movie 1 "A".
Definition movieB := demo_movie 2 "B".
Definition movieC := demo_movie 3 "C".

Definition demo_deps (recommender : User -> gset Z -> JsM (World unit) (list Movie))
  : Collaborators unit :=
  {| saveMovie := fun _ => ret None;
     saveUserMovieRating := fun _ _ _ => ret tt;
     getRatedMovieIdsByUser := fun _ => ret [1; 7];
     getUserMoviePreferences := fun _ => ret None;
     saveUserMoviePreferences := fun _ => ret tt;
     getMovieByOurId := fun i => ret (if i =? 1 then Some movieA else None);
     getMovieRecommendationsForUser := recommender |}.

Definition stubborn : User -> gset Z -> JsM (World unit) (list Movie) :=
  fun _ _ => ret [movieA; movieB; movieC].

Definition to_movie (c : Engine.CatalogItem) : Movie :=
  {| id := default 0 (Engine.local_id c); tmdb_id := Engine.remote_id c;
     title := Engine.title c; release_date := None; runtime := Engine.duration c;
     vote_count := Engine.vote_count c; genres := []; overview := None |}.

(** The engine of the specification behind a remote source that is down. *)
Definition during_outage : User -> gset Z -> JsM (World unit) (list Movie) :=
  fun u exclusions =>
    ret (to_movie <$>
         Engine.recommend (fun _ => None) (fun _ => None)
           (fun _ => [(1, 5)]) (fun _ => None) 5 20 3 (user_id u)
           {| Engine.genre_allow := None; Engine.language_allow := None;
              Engine.year_range := None; Engine.duration_range := None;
              Engine.min_rating := None; Engine.provider_allow := None |}
           exclusions).

Definition alice : User := {| user_id := 1; user_name := "Alice" |}.
Definition no_float : string -> option Q := fun _ => None.

Definition demo_state (inputs : list string) : St unit :=
  {| world := {| svc := fresh; db := tt |}; stdin := inputs; out := [];
     userMoviePrefs := no_preferences 0;
     sessionPersistentExcludeTmdbIds := {[99]};
     trace := [] |}.

Definition demo_session : Outcome unit * St unit :=
  runMovieCLI (demo_deps stubborn) TmdbServiceFacts.token_env TmdbServiceFacts.offline
    no_float alice (demo_state ["1"; "L"; "n"; " 1 "; "N"; "0"]).

Example demo_session_history :
  fst demo_session = Resolved tt
  /\ trace (snd demo_session)
     = [Presented 22; Rated 22 5; Excluded 22; Presented 33; Presented 33]
  /\ sessionPersistentExcludeTmdbIds (snd demo_session) = {[11; 22]}.
Proof. vm_compute. repeat split. Qed.

(** C2.  The exclusion set of a session is seeded with the TMDB ids of
    the movies the user has rated (as the database gives them when the
    session opens) and from then on equals the seed together with the ids
    added during the session, so that nothing leaves it, and nothing of an
    earlier set is left in it; every id added is the id of a movie rated in
    the session and every movie rated in the session has its id in the
    set; and a movie is presented as a recommendation only if its id is
    neither in the seed nor among the ids added before.  Each round of
    the menu only adds to the set. *)
Theorem session_exclusion_set_only_grows {DB} (deps : Collaborators DB) env net parseFloat
    (u : User) (st0 : St DB) :
  (exists new,
     trace (snd (runMovieCLI deps env net parseFloat u st0)) = trace st0 ++ new
     /\ never_presented_once_excluded (session_seed deps u (world st0)) new
     /\ excluded_ids new ⊆ rated_ids new
     /\ (session_opens deps u (world st0) ->
         sessionPersistentExcludeTmdbIds (snd (runMovieCLI deps env net parseFloat u st0))
         = session_seed deps u (world st0) ∪ excluded_ids new
         /\ rated_ids new
            ⊆ sessionPersistentExcludeTmdbIds
                (snd (runMovieCLI deps env net parseFloat u st0))))
  /\ (forall st : St DB,
        exists new,
          trace (snd (menu deps env net parseFloat u st)) = trace st ++ new
          /\ sessionPersistentExcludeTmdbIds (snd (menu deps env net parseFloat u st))
             = sessionPersistentExcludeTmdbIds st ∪ excluded_ids new
          /\ excluded_ids new ⊆ rated_ids new).
Proof.
  split.
  - apply session_invariant.
  - intros st. apply menu_only_adds.
Qed.

Lemma session_exclusion_set_only_grows_witness :
  exists new,
    trace (snd demo_session) = new
    /\ never_presented_once_excluded {[11]} new
    /\ sessionPersistentExcludeTmdbIds (snd demo_session) = {[11]} ∪ excluded_ids new.
Proof.
  destruct (session_exclusion_set_only_grows (demo_deps stubborn)
              TmdbServiceFacts.token_env TmdbServiceFacts.offline no_float alice
              (demo_state ["1"; "L"; "n"; " 1 "; "N"; "0"]))
    as [(new & Htrace & Hnever & _ & Hopen) _].
  assert (session_seed (demo_deps stubborn) alice
            (world (demo_state ["1"; "L"; "n"; " 1 "; "N"; "0"])) = {[11]}) as Hseed.
  { vm_compute. reflexivity. }
  rewrite Hseed in *.
  exists new. split; [exact Htrace|]. split; [exact Hnever|].
  apply Hopen. eexists _, _. reflexivity.
Defined.

(** C5.  When the recommender resolves with the empty sequence, whatever
    made it empty, asking for recommendations prints the two lines that
    say none is available and returns to the menu: it resolves, reads no
    input and leaves the exclusion set and the history as they were. *)
Theorem empty_recommendations_are_reported {DB} (deps : Collaborators DB) env net
    (u : User) (st : St DB) w' :
  getMovieRecommendationsForUser deps u (sessionPersistentExcludeTmdbIds st) (world st)
  = (Resolved [], w') ->
  (exists st',
     recommendOneByOne deps env net u st = (Resolved tt, st')
     /\ out st' = out st ++ [OutFetchingRecommendations; OutNoRecommendations;
                             OutTryRatingMore]
     /\ world st' = w' /\ stdin st' = stdin st
     /\ sessionPersistentExcludeTmdbIds st' = sessionPersistentExcludeTmdbIds st
     /\ trace st' = trace st)
  /\ (forall st1 : St DB,
        presentMovieRecommendationsOneByOne deps env net u [] st1
        = (Resolved tt, push_out OutTryRatingMore (push_out OutNoRecommendations st1))).
Proof.
  intros Hrec. split; [|intros st1; apply present_nothing].
  rewrite (recommend_nothing deps env net u st w' Hrec).
  eexists. split; [reflexivity|]. simpl. rewrite <- !app_assoc. by repeat split.
Qed.

Lemma empty_recommendations_are_reported_witness :
  exists st',
    recommendOneByOne (demo_deps during_outage) TmdbServiceFacts.token_env
      TmdbServiceFacts.offline alice (demo_state ["0"]) = (Resolved tt, st')
    /\ out st' = [OutFetchingRecommendations; OutNoRecommendations; OutTryRatingMore].
Proof.
  destruct (empty_recommendations_are_reported (demo_deps during_outage)
              TmdbServiceFacts.token_env TmdbServiceFacts.offline alice
              (demo_state ["0"]) {| svc := fresh; db := tt |} eq_refl)
    as [(st' & Hrun & Hout & _) _].
  exists st'. split; [exact Hrun | exact Hout].
Defined.

(** C10.  A valid movie outside the exclusion set that is answered with
    [N]ext is shown, and the set is left exactly as it was; shown again in
    a later presentation and skipped again, it is presented a second
    time.  In any presentation, whatever is added to the set is the id of
    a movie rated (liked or disliked) in that presentation. *)
Theorem next_leaves_exclusion_set_unchanged {DB} (deps : Collaborators DB) env net
    (u : User) (m : Movie) (answer : string) (rest : list string) (st : St DB) :
  id m <> 0 -> tmdb_id m <> 0 ->
  tmdb_id m ∉ sessionPersistentExcludeTmdbIds st ->
  stdin st = answer :: rest -> toLowerCase answer = "n" ->
  (exists st',
     presentMovieRecommendationsOneByOne deps env net u [m] st = (Resolved tt, st')
     /\ sessionPersistentExcludeTmdbIds st' = sessionPersistentExcludeTmdbIds st
     /\ trace st' = trace st ++ [Presented (tmdb_id m)]
     /\ stdin st' = rest
     /\ forall answer2 rest2,
          rest = answer2 :: rest2 -> toLowerCase answer2 = "n" ->
          exists st'',
            presentMovieRecommendationsOneByOne deps env net u [m] st'
            = (Resolved tt, st'')
            /\ sessionPersistentExcludeTmdbIds st'' = sessionPersistentExcludeTmdbIds st
            /\ trace st''
               = trace st ++ [Presented (tmdb_id m); Presented (tmdb_id m)])
  /\ (forall recs (st1 : St DB),
        exists new,
          trace (snd (presentMovieRecommendationsOneByOne deps env net u recs st1))
          = trace st1 ++ new
          /\ sessionPersistentExcludeTmdbIds
               (snd (presentMovieRecommendationsOneByOne deps env net u recs st1))
             = sessionPersistentExcludeTmdbIds st1 ∪ excluded_ids new
          /\ excluded_ids new ⊆ rated_ids new).
Proof.
  intros Hid Htmdb Hex Hin Hn. split; [|apply presentation_only_adds].
  rewrite (present_and_skip deps env net u m answer rest st Hid Htmdb Hex Hin Hn).
  eexists. split; [reflexivity|].
  split; [reflexivity|]. split; [reflexivity|]. split; [reflexivity|].
  intros answer2 rest2 -> Hn2.
  rewrite (present_and_skip deps env net u m answer2 rest2); auto.
  eexists. split; [reflexivity|]. split; [reflexivity|].
  cbn [trace]. by rewrite <- app_assoc.
Qed.

Lemma next_leaves_exclusion_set_unchanged_witness :
  exists st',
    presentMovieRecommendationsOneByOne (demo_deps stubborn) TmdbServiceFacts.token_env
      TmdbServiceFacts.offline alice [movieC] (demo_state ["N"; "n"]) = (Resolved tt, st')
    /\ sessionPersistentExcludeTmdbIds st' = {[99]}
    /\ trace st' = [Presented 33].
Proof.
  destruct (next_leaves_exclusion_set_unchanged (demo_deps stubborn)
              TmdbServiceFacts.token_env TmdbServiceFacts.offline alice movieC
              "N" ["n"] (demo_state ["N"; "n"]))
    as [(st' & Hrun & Hexcl & Htrace & _) _];
    [ discriminate | discriminate | vm_compute; set_solver
    | reflexivity | reflexivity | ].
  exists st'. split; [exact Hrun|]. split; [exact Hexcl | exact Htrace].
Defined.

End MovieCliFacts.

(** ** The restaurant tables *)
Module RestaurantStoreFacts.
Import RestaurantDb RestaurantDbFacts RestaurantStore.

Definition place_ids (t : Table) : list string := map row_googlePlaceId t.
Definition row_ids (t : Table) : list Z := map row_id t.

Lemma stored_none gpid t : stored gpid t = None <-> gpid ∉ place_ids t.
Proof.
  unfold stored, place_ids. induction t as [|r t IH]; simpl.
  { split; [intros _; apply not_elem_of_nil | done]. }
  rewrite not_elem_of_cons. destruct (String.eqb_spec (row_googlePlaceId r) gpid).
  - split; [discriminate | intros [Hne _]; congruence].
  - rewrite IH. split; [intros H; split; [congruence | done] | by intros [_ H]].
Qed.

Lemma stored_some gpid t row :
  stored gpid t = Some row -> row ∈ t /\ row_googlePlaceId row = gpid.
Proof.
  unfold stored. intros H. destruct (find_some _ _ H) as [Hin Heq].
  split; [by apply list_elem_of_In | by apply String.eqb_eq].
Qed.

Section Facts.
Variable JSON_stringify_list : list string -> string.
Variable JSON_parse_list : string -> Outcome (list string).
Variable next_rowid : Table -> Z.

Local Abbreviation save := (saveRestaurantToDb JSON_stringify_list JSON_parse_list next_rowid).
Local Abbreviation fresh_row := (new_row JSON_stringify_list next_rowid).

(** The table after a call: as it was, or with the new row at the end. *)
Lemma save_table d t :
  (exists row, stored (googlePlaceId d) t = Some row /\ snd (save d t) = t)
  \/ (stored (googlePlaceId d) t = None /\ snd (save d t) = t ++ [fresh_row d t]).
Proof.
  destruct (stored (googlePlaceId d) t) as [row|] eqn:Hs.
  - left. exists row. split; [done|].
    by rewrite (save_existing JSON_stringify_list JSON_parse_list next_rowid d t row Hs).
  - right. split; [done|]. by apply save_new.
Qed.

Lemma save_keeps_unique d t :
  NoDup (place_ids t) ->
  NoDup (place_ids (snd (save d t)))
  /\ t `prefix_of` snd (save d t)
  /\ googlePlaceId d ∈ place_ids (snd (save d t)).
Proof.
  intros Hnd. destruct (save_table d t) as [(row & Hs & ->)|[Hs ->]].
  - split; [done|]. split; [done|].
    destruct (stored_some _ _ _ Hs) as [Hin <-].
    unfold place_ids. apply list_elem_of_fmap. eauto.
  - unfold place_ids. rewrite map_app. simpl. split; [|split].
    + apply NoDup_app. split; [done|]. split; [|apply NoDup_singleton].
      intros g Hg Hg'. apply list_elem_of_singleton in Hg'. subst g.
      by apply stored_none in Hs.
    + by apply prefix_app_r.
    + apply elem_of_app. right. by apply list_elem_of_singleton.
Qed.

(** What a first save answers, when the rowid is new and the JSON text of
    the two lists parses back. *)
Lemma save_new_answer d t :
  stored (googlePlaceId d) t = None ->
  next_rowid t <> 0 -> next_rowid t ∉ row_ids t ->
  JSON_parse_list (or_empty_array (JSON_stringify_list (cuisines d)))
  = Resolved (cuisines d) ->
  JSON_parse_list (or_empty_array (JSON_stringify_list (dietaryOptions d)))
  = Resolved (dietaryOptions d) ->
  save d t
  = (Resolved (Some (ParsedRow (fresh_row d t) (cuisines d) (dietaryOptions d))),
     t ++ [fresh_row d t]).
Proof.
  intros Hs Hnz Hfresh Hc Hd.
  unfold saveRestaurantToDb, select_by_googlePlaceId, bind, gets.
  fold (stored (googlePlaceId d) t). rewrite Hs. unfold insert_restaurant.
  rewrite (find_none_not_exists _ _ Hs). fold (fresh_row d t).
  apply Z.eqb_neq in Hnz. rewrite Hnz.
  unfold getRestaurantById, select_by_id, bind, gets, lift, ret.
  assert (List.find (fun r => row_id r =? next_rowid t) t = None) as Hnone.
  { clear -Hfresh. unfold row_ids in Hfresh. generalize dependent (next_rowid t).
    intros i Hfresh. induction t as [|r t' IH]; simpl; [done|].
    simpl in Hfresh. apply not_elem_of_cons in Hfresh as [Hne Hrest].
    destruct (row_id r =? i) eqn:E; [lia|]. by apply IH. }
  rewrite (find_app_none _ _ _ Hnone). simpl. rewrite Z.eqb_refl.
  simpl. rewrite Hc, Hd. reflexivity.
Qed.
End Facts.

Lemma NoDup_place_ids_inj t r1 r2 :
  NoDup (place_ids t) -> r1 ∈ t -> r2 ∈ t ->
  row_googlePlaceId r1 = row_googlePlaceId r2 -> r1 = r2.
Proof.
  unfold place_ids. induction t as [|r t IH]; simpl; intros Hnd H1 H2 Heq.
  { by apply elem_of_nil in H1. }
  apply NoDup_cons in Hnd as [Hnotin Hnd].
  apply elem_of_cons in H1 as [->|H1]; apply elem_of_cons in H2 as [->|H2]; auto.
  - exfalso. apply Hnotin. rewrite Heq. apply list_elem_of_In, in_map.
    by apply list_elem_of_In.
  - exfalso. apply Hnotin. rewrite <- Heq. apply list_elem_of_In, in_map.
    by apply list_elem_of_In.
Qed.

Lemma prefix_place_ids t t' g :
  t `prefix_of` t' -> g ∈ place_ids t -> g ∈ place_ids t'.
Proof.
  intros [k ->] Hg. unfold place_ids in *. rewrite map_app. apply elem_of_app. by left.
Qed.

Section Store.
Variable JSON_stringify_list : list string -> string.
Variable JSON_parse_list : string -> Outcome (list string).
Variable next_rowid : Table -> Z.
Variable fetchRestaurantsFromGooglePlaces : string -> Outcome (option (list RestaurantData)).
Variable mockUserRestaurantPreferences : list MockPreference.

Local Abbreviation save := (saveRestaurantToDb JSON_stringify_list JSON_parse_list next_rowid).
Local Abbreviation saveEach :=
  (save_each JSON_stringify_list JSON_parse_list next_rowid).

Lemma on_restaurants_run {A} (m : JsM Table A) d :
  on_restaurants m d
  = (fst (m (restaurants d)), set_restaurants (snd (m (restaurants d))) d).
Proof. unfold on_restaurants, zoom. by destruct (m (restaurants d)). Qed.

(** The loop leaves everything but [restaurants] alone; it keeps one row
    per [googlePlaceId] and every row that was there. *)
Definition extends (d d' : Db) : Prop :=
  NoDup (place_ids (restaurants d'))
  /\ restaurants d `prefix_of` restaurants d'
  /\ users d' = users d
  /\ user_restaurant_preferences d' = user_restaurant_preferences d
  /\ user_restaurant_likes d' = user_restaurant_likes d
  /\ console d' = console d.

Lemma extends_refl d : NoDup (place_ids (restaurants d)) -> extends d d.
Proof. intros H. by repeat split. Qed.

Lemma extends_trans d1 d2 d3 : extends d1 d2 -> extends d2 d3 -> extends d1 d3.
Proof.
  intros (H1 & H2 & H3 & H4 & H5 & H6) (H1' & H2' & H3' & H4' & H5' & H6').
  repeat split; try congruence. by etrans.
Qed.

Lemma save_step resto d :
  NoDup (place_ids (restaurants d)) ->
  extends d (snd (on_restaurants (save resto) d))
  /\ googlePlaceId resto ∈ place_ids (restaurants (snd (on_restaurants (save resto) d))).
Proof.
  intros Hnd. rewrite on_restaurants_run. simpl.
  destruct (save_keeps_unique JSON_stringify_list JSON_parse_list next_rowid
              resto (restaurants d) Hnd) as (H1 & H2 & H3).
  by repeat split.
Qed.

Lemma save_each_keeps restos : forall savedCount skippedCount d,
  NoDup (place_ids (restaurants d)) ->
  extends d (snd (saveEach restos savedCount skippedCount d))
  /\ forall s k,
       fst (saveEach restos savedCount skippedCount d) = Resolved (s, k) ->
       (s + k = savedCount + skippedCount + length restos)%nat
       /\ forall x, x ∈ restos ->
            googlePlaceId x
            ∈ place_ids (restaurants (snd (saveEach restos savedCount skippedCount d))).
Proof.
  induction restos as [|resto restos IH]; intros sc kc d Hnd; simpl.
  { split; [by apply extends_refl|]. intros s k [= <- <-]. split; [lia|].
    intros x Hx. by apply elem_of_nil in Hx. }
  destruct (save_step resto d Hnd) as [Hext Hin].
  rewrite (MovieCliFacts.bind_unfold (on_restaurants (save resto))).
  destruct (on_restaurants (save resto) d) as [[saved| | |] d1]; simpl in *;
    try (split; [done | discriminate]).
  assert (NoDup (place_ids (restaurants d1))) as Hnd1 by apply Hext.
  assert (forall sc' kc',
            (sc' + kc' = S (sc + kc))%nat ->
            extends d (snd (saveEach restos sc' kc' d1))
            /\ forall s k,
                 fst (saveEach restos sc' kc' d1) = Resolved (s, k) ->
                 (s + k = sc + kc + S (length restos))%nat
                 /\ forall x, x ∈ resto :: restos ->
                      googlePlaceId x
                      ∈ place_ids (restaurants (snd (saveEach restos sc' kc' d1)))) as Hrest.
  { intros sc' kc' Hsum. destruct (IH sc' kc' d1 Hnd1) as [Hext' Hres].
    split; [by eapply extends_trans|].
    intros s k Hr. destruct (Hres s k Hr) as [Hlen Hall]. split; [lia|].
    intros x Hx. apply elem_of_cons in Hx as [->|Hx]; [|by apply Hall].
    eapply prefix_place_ids; [apply Hext' | done]. }
  destruct saved as [record|]; [|apply Hrest; lia].
  unfold bind, isRestaurantPreviouslySaved, gets, ret. simpl.
  destruct (0 <? _); apply Hrest; lia.
Qed.

(** With a rowid that is new and not 0, and the text that
    [JSON.stringify] wrote for the two lists of the restaurant accepted by
    [JSON.parse], a save answers a record whose row is in the table.  (A
    row that was stored before is answered as it is, without parsing.) *)
Definition rowids_are_new : Prop :=
  forall t, next_rowid t <> 0 /\ next_rowid t ∉ row_ids t.
Definition written_lists_parse (resto : RestaurantData) : Prop :=
  (exists cs, JSON_parse_list (or_empty_array (JSON_stringify_list (cuisines resto)))
              = Resolved cs)
  /\ (exists ds,
        JSON_parse_list (or_empty_array (JSON_stringify_list (dietaryOptions resto)))
        = Resolved ds).

Lemma save_answers resto t :
  rowids_are_new -> written_lists_parse resto ->
  exists record,
    fst (save resto t) = Resolved (Some record)
    /\ restaurant_row record ∈ snd (save resto t)
    /\ row_googlePlaceId (restaurant_row record) = googlePlaceId resto.
Proof.
  intros Hrow Hjson.
  destruct (stored (googlePlaceId resto) t) as [row|] eqn:Hs.
  - rewrite (save_existing JSON_stringify_list JSON_parse_list next_rowid resto t row Hs).
    exists (RawRow row). simpl. split; [done|]. by apply stored_some.
  - destruct (Hrow t) as [Hnz Hfresh].
    unfold saveRestaurantToDb, select_by_googlePlaceId, bind, gets.
    fold (stored (googlePlaceId resto) t). rewrite Hs. unfold insert_restaurant.
    rewrite (find_none_not_exists _ _ Hs).
    fold (new_row JSON_stringify_list next_rowid resto t).
    apply Z.eqb_neq in Hnz. rewrite Hnz.
    unfold getRestaurantById, select_by_id, bind, gets, lift, ret.
    assert (List.find (fun r => row_id r =? next_rowid t) t = None) as Hnone.
    { clear -Hfresh. unfold row_ids in Hfresh. generalize dependent (next_rowid t).
      intros i Hfresh. induction t as [|r t' IH]; simpl; [done|].
      simpl in Hfresh. apply not_elem_of_cons in Hfresh as [Hne Hrest].
      destruct (row_id r =? i) eqn:E; [lia|]. by apply IH. }
    rewrite (find_app_none _ _ _ Hnone). simpl. rewrite Z.eqb_refl. simpl.
    destruct Hjson as [[cs ->] [ds ->]].
    eexists. simpl. split; [reflexivity|]. split; [|done].
    apply elem_of_app. right. by apply list_elem_of_singleton.
Qed.

(** With one row per [googlePlaceId], no other row shares the place id of
    a row of the table. *)
Lemma no_other_row t row :
  NoDup (place_ids t) -> row ∈ t ->
  List.filter (fun r => String.eqb (row_googlePlaceId r) (row_googlePlaceId row)
                        && negb (row_id r =? row_id row)) t = [].
Proof.
  intros Hnd Hrow.
  destruct (List.filter _ t) as [|r rest] eqn:Hf; [done|]. exfalso.
  assert (In r (List.filter
                  (fun r => String.eqb (row_googlePlaceId r) (row_googlePlaceId row)
                            && negb (row_id r =? row_id row)) t)) as Hin
    by (rewrite Hf; by left).
  apply filter_In in Hin as [Hin Hcond].
  apply andb_true_iff in Hcond as [Hg Hi].
  apply String.eqb_eq in Hg. apply negb_true_iff, Z.eqb_neq in Hi.
  apply Hi. f_equal.
  apply (NoDup_place_ids_inj t); auto. by apply list_elem_of_In.
Qed.

Lemma save_each_counts restos : forall savedCount skippedCount d,
  rowids_are_new -> Forall written_lists_parse restos ->
  NoDup (place_ids (restaurants d)) ->
  fst (saveEach restos savedCount skippedCount d)
  = Resolved ((savedCount + length restos)%nat, skippedCount).
Proof.
  induction restos as [|resto restos IH]; intros sc kc d Hrow Hjson Hnd; simpl.
  { unfold ret. simpl. do 2 f_equal. lia. }
  destruct (save_step resto d Hnd) as [Hext _].
  apply Forall_cons in Hjson as [Hresto Hjson].
  destruct (save_answers resto (restaurants d) Hrow Hresto) as (record & Hr & Hin & Hg).
  rewrite (MovieCliFacts.bind_unfold (on_restaurants (save resto))).
  rewrite on_restaurants_run in *. rewrite Hr. simpl in *.
  unfold bind, isRestaurantPreviouslySaved, gets, ret. simpl.
  rewrite <- Hg.
  rewrite (no_other_row _ (restaurant_row record)); [|apply Hext | done].
  simpl. rewrite IH; auto; [|apply Hext]. do 2 f_equal. lia.
Qed.
End Store.

Section Tables.
Variable JSON_stringify_list : list string -> string.
Variable JSON_parse_list : string -> Outcome (list string).
Variable mockUserRestaurantPreferences : list MockPreference.

Local Abbreviation savePrefs := (saveUserRestaurantPreferences JSON_stringify_list).
Local Abbreviation seed :=
  (seedInitialRestaurantPreferences JSON_stringify_list mockUserRestaurantPreferences).

Definition seed_row (um : UserRow * MockPreference) : PreferenceRow :=
  {| pr_favoriteCuisines :=
       JSON_stringify_list (default [] (mock_favoriteCuisines (snd um)));
     pr_dietaryRestrictions :=
       JSON_stringify_list (default [] (mock_dietaryRestrictions (snd um)));
     pr_minRating := default (0 # 1) (mock_minRating (snd um)) |}.

Definition seeded (pairs : list (UserRow * MockPreference)) (m : gmap Z PreferenceRow)
  : gmap Z PreferenceRow :=
  fold_left (fun m um => <[user_id (fst um) := seed_row um]> m) pairs m.

Lemma seed_loop pairs : forall d,
  for_each pairs (fun um => savePrefs (prefsToSeed (fst um) (snd um))) d
  = (Resolved tt, set_preferences (seeded pairs (user_restaurant_preferences d)) d).
Proof.
  induction pairs as [|um pairs IH]; intros d; simpl.
  { unfold ret. by destruct d. }
  unfold bind, saveUserRestaurantPreferences, modify. rewrite IH. reflexivity.
Qed.

Lemma seeded_keeps pairs : forall m i,
  is_Some (m !! i) -> is_Some (seeded pairs m !! i).
Proof.
  induction pairs as [|um pairs IH]; intros m i Hi; simpl; [done|].
  apply IH. destruct (decide (user_id (fst um) = i)) as [->|Hne].
  - rewrite lookup_insert_eq. eauto.
  - by rewrite lookup_insert_ne.
Qed.

Lemma seeded_first um pairs m : is_Some (seeded (um :: pairs) m !! user_id (fst um)).
Proof. simpl. apply seeded_keeps. rewrite lookup_insert_eq. eauto. Qed.

(** What a run of the seeding does to the state. *)
Lemma seed_run d :
  match users_by_id d with
  | [] => seed d = (Resolved tt, d)
  | firstUser :: rest =>
      match user_restaurant_preferences d !! user_id firstUser with
      | Some _ => seed d = (Resolved tt, d)
      | None =>
          exists d',
            seed d = (Resolved tt, d')
            /\ user_restaurant_preferences d'
               = seeded (zip (firstUser :: rest) mockUserRestaurantPreferences)
                   (user_restaurant_preferences d)
            /\ restaurants d' = restaurants d /\ users d' = users d
            /\ user_restaurant_likes d' = user_restaurant_likes d
      end
  end.
Proof.
  unfold seedInitialRestaurantPreferences, bind, gets.
  destruct (users_by_id d) as [|firstUser rest] eqn:Husers; [done|].
  destruct (user_restaurant_preferences d !! user_id firstUser) eqn:Hfirst; [done|].
  unfold log at 1. unfold modify at 1. cbv beta iota.
  rewrite seed_loop.
  destruct (zip (firstUser :: rest) mockUserRestaurantPreferences) eqn:Hzip;
    eexists; (split; [reflexivity|]); simpl; by repeat split.
Qed.
End Tables.

(** The rowid SQLite gives when ids are positive: one above the largest. *)
Definition next_after_max (t : Table) : Z := 1 + fold_right Z.max 0 (row_ids t).

Lemma next_after_max_is_new : rowids_are_new next_after_max.
Proof.
  intros t. unfold next_after_max.
  assert (forall l i, i ∈ l -> i <= fold_right Z.max 0 l) as Hmax.
  { induction l as [|j l IH]; intros i Hi; [by apply elem_of_nil in Hi|].
    simpl. apply elem_of_cons in Hi as [->|Hi]; [lia|]. specialize (IH i Hi). lia. }
  assert (0 <= fold_right Z.max 0 (row_ids t)) as Hpos.
  { generalize (row_ids t). induction l; simpl; lia. }
  split; [lia|]. intros Hin. apply Hmax in Hin. lia.
Qed.

Definition parse_commas (text : string) : Outcome (list string) :=
  Resolved (if String.eqb text "[]" then [] else split_comma text).

Definition empty_db : Db :=
  {| restaurants := []; users := []; user_restaurant_preferences := ∅;
     user_restaurant_likes := []; console := [] |}.

Definition cafe_db : Db := set_restaurants [cafe_row] empty_db.

Definition places (q : string) : Outcome (option (list RestaurantData)) :=
  Resolved (Some [cafe]).

(** X1.  [saveRestaurantToDb] keeps the table at one row per
    [googlePlaceId]: it never changes or removes a row, adds at most one row
    at the end, and afterwards a row with the place id of its argument is
    stored. *)
Theorem saveRestaurantToDb_keeps_one_row_per_place
    (JSON_stringify_list : list string -> string)
    (JSON_parse_list : string -> Outcome (list string))
    (next_rowid : Table -> Z) (d : RestaurantData) (t : Table) :
  NoDup (place_ids t) ->
  NoDup (place_ids (snd (saveRestaurantToDb JSON_stringify_list JSON_parse_list
                           next_rowid d t)))
  /\ t `prefix_of` snd (saveRestaurantToDb JSON_stringify_list JSON_parse_list
                          next_rowid d t)
  /\ (length (snd (saveRestaurantToDb JSON_stringify_list JSON_parse_list
                     next_rowid d t)) <= S (length t))%nat
  /\ googlePlaceId d
     ∈ place_ids (snd (saveRestaurantToDb JSON_stringify_list JSON_parse_list
                         next_rowid d t)).
Proof.
  intros Hnd.
  destruct (save_keeps_unique JSON_stringify_list JSON_parse_list next_rowid d t Hnd)
    as (H1 & H2 & H3).
  repeat split; auto.
  destruct (save_table JSON_stringify_list JSON_parse_list next_rowid d t)
    as [(row & _ & ->)|[_ ->]]; [lia|].
  rewrite length_app. simpl. lia.
Qed.

Lemma saveRestaurantToDb_keeps_one_row_per_place_witness :
  NoDup (place_ids (snd (saveRestaurantToDb json_text parse_commas next_after_max
                           cafe [cafe_row])))
  /\ googlePlaceId cafe
     ∈ place_ids (snd (saveRestaurantToDb json_text parse_commas next_after_max
                         cafe [cafe_row])).
Proof.
  destruct (saveRestaurantToDb_keeps_one_row_per_place json_text parse_commas
              next_after_max cafe [cafe_row]) as (H1 & _ & _ & H4).
  { apply NoDup_singleton. }
  by split.
Defined.

(** X2.  A restaurant whose place id is not stored yet is inserted under
    the next rowid and handed back as read from the table by that id, with
    its two lists parsed from the stored JSON text: when the rowid is new
    and not 0 and the JSON text of the lists parses back to them, the answer
    carries the data that was passed in. *)
Theorem saveRestaurantToDb_returns_what_it_inserted
    (JSON_stringify_list : list string -> string)
    (JSON_parse_list : string -> Outcome (list string))
    (next_rowid : Table -> Z) (d : RestaurantData) (t : Table) :
  googlePlaceId d ∉ place_ids t ->
  next_rowid t <> 0 -> next_rowid t ∉ row_ids t ->
  JSON_parse_list (or_empty_array (JSON_stringify_list (cuisines d)))
  = Resolved (cuisines d) ->
  JSON_parse_list (or_empty_array (JSON_stringify_list (dietaryOptions d)))
  = Resolved (dietaryOptions d) ->
  exists row,
    saveRestaurantToDb JSON_stringify_list JSON_parse_list next_rowid d t
    = (Resolved (Some (ParsedRow row (cuisines d) (dietaryOptions d))), t ++ [row])
    /\ row_id row = next_rowid t
    /\ row_googlePlaceId row = googlePlaceId d
    /\ row_name row = name d /\ row_address row = address d
    /\ row_rating row = rating d.
Proof.
  intros Hnew Hnz Hfresh Hc Hd. apply stored_none in Hnew.
  exists (new_row JSON_stringify_list next_rowid d t).
  split; [by apply save_new_answer | by repeat split].
Qed.

Lemma saveRestaurantToDb_returns_what_it_inserted_witness :
  saveRestaurantToDb json_text parse_commas next_after_max cafe []
  = (Resolved (Some (ParsedRow cafe_row ["french"] [])), [cafe_row]).
Proof.
  destruct (saveRestaurantToDb_returns_what_it_inserted json_text parse_commas
              next_after_max cafe [])
    as (row & Hrun & _);
    [ apply not_elem_of_nil | discriminate | apply not_elem_of_nil
    | reflexivity | reflexivity | ].
  reflexivity.
Defined.

(** X3.  [fetchAndSaveRestaurantsToDb] only ever adds rows to
    [restaurants], keeps it at one row per [googlePlaceId] and leaves the
    other tables alone.  A blank location is reported without asking the
    places service and changes no row; and when the run goes through, every
    restaurant the service returned has its place id stored. *)
Theorem fetchAndSaveRestaurantsToDb_keeps_rows
    (JSON_stringify_list : list string -> string)
    (JSON_parse_list : string -> Outcome (list string))
    (next_rowid : Table -> Z)
    (fetchRestaurantsFromGooglePlaces : string -> Outcome (option (list RestaurantData)))
    (locationQuery : string) (d : Db) :
  NoDup (place_ids (restaurants d)) ->
  exists r d',
    fetchAndSaveRestaurantsToDb JSON_stringify_list JSON_parse_list next_rowid
      fetchRestaurantsFromGooglePlaces locationQuery d = (r, d')
    /\ NoDup (place_ids (restaurants d'))
    /\ restaurants d `prefix_of` restaurants d'
    /\ users d' = users d
    /\ user_restaurant_preferences d' = user_restaurant_preferences d
    /\ user_restaurant_likes d' = user_restaurant_likes d
    /\ (trim locationQuery = "" ->
        r = Resolved tt /\ restaurants d' = restaurants d
        /\ console d' = console d ++ [LogEmptyLocation])
    /\ (forall found,
          trim locationQuery <> "" ->
          fetchRestaurantsFromGooglePlaces locationQuery = Resolved (Some found) ->
          r = Resolved tt ->
          forall x, x ∈ found -> googlePlaceId x ∈ place_ids (restaurants d')).
Proof.
  intros Hnd. unfold fetchAndSaveRestaurantsToDb.
  destruct (String.eqb_spec (trim locationQuery) "") as [Hblank|Hquery].
  { do 2 eexists. split; [reflexivity|]. simpl. repeat split; auto. done. }
  unfold bind at 1, lift.
  destruct (fetchRestaurantsFromGooglePlaces locationQuery) as [[[|x found]|]| | |];
    try (do 2 eexists; split; [reflexivity|]; simpl; repeat split; auto;
         try done; intros f _ [=]; subst; intros _ y Hy; by apply elem_of_nil in Hy).
  destruct (save_each_keeps JSON_stringify_list JSON_parse_list next_rowid
              (x :: found) 0%nat 0%nat d Hnd) as [Hext Hres].
  rewrite MovieCliFacts.bind_unfold.
  destruct (save_each _ _ _ (x :: found) 0%nat 0%nat d) as [[[sc kc]| | |] d1];
    simpl in *; destruct Hext as (H1 & H2 & H3 & H4 & H5 & H6);
    do 2 eexists; (split; [reflexivity|]); simpl; repeat split; auto; try done.
  intros f _ [= <-] _ y Hy. by apply (Hres sc kc eq_refl).
Qed.

Lemma fetchAndSaveRestaurantsToDb_keeps_rows_witness :
  exists r d',
    fetchAndSaveRestaurantsToDb json_text parse_commas next_after_max places
      "Paris" empty_db = (r, d')
    /\ NoDup (place_ids (restaurants d'))
    /\ restaurants empty_db `prefix_of` restaurants d'.
Proof.
  destruct (fetchAndSaveRestaurantsToDb_keeps_rows json_text parse_commas
              next_after_max places "Paris" empty_db)
    as (r & d' & Hrun & Hnd & Hprefix & _); [constructor|].
  exists r, d'. by repeat split.
Defined.

(** X4.  With one row per [googlePlaceId], rowids that are new, and the
    text written for the lists of the restaurants returned accepted by
    [JSON.parse], the check [isRestaurantPreviouslySaved] never finds
    another row for the record just returned: the closing report counts
    every restaurant the service returned as saved and none as skipped,
    whether it was inserted by this run or stored before. *)
Theorem fetchAndSaveRestaurantsToDb_counts_all_as_saved
    (JSON_stringify_list : list string -> string)
    (JSON_parse_list : string -> Outcome (list string))
    (next_rowid : Table -> Z)
    (fetchRestaurantsFromGooglePlaces : string -> Outcome (option (list RestaurantData)))
    (locationQuery : string) (found : list RestaurantData) (d : Db) :
  rowids_are_new next_rowid ->
  Forall (written_lists_parse JSON_stringify_list JSON_parse_list) found ->
  NoDup (place_ids (restaurants d)) ->
  trim locationQuery <> "" ->
  fetchRestaurantsFromGooglePlaces locationQuery = Resolved (Some found) ->
  found <> [] ->
  exists d',
    fetchAndSaveRestaurantsToDb JSON_stringify_list JSON_parse_list next_rowid
      fetchRestaurantsFromGooglePlaces locationQuery d = (Resolved tt, d')
    /\ console d' = console d ++ [LogSavedSkipped (length found) 0].
Proof.
  intros Hrow Hjson Hnd Hquery Hfetch Hfound. unfold fetchAndSaveRestaurantsToDb.
  apply String.eqb_neq in Hquery. rewrite Hquery.
  unfold bind at 1, lift. rewrite Hfetch.
  destruct found as [|x found]; [done|].
  pose proof (save_each_counts JSON_stringify_list JSON_parse_list next_rowid
                (x :: found) 0%nat 0%nat d Hrow Hjson Hnd) as Hcount.
  destruct (save_each_keeps JSON_stringify_list JSON_parse_list next_rowid
              (x :: found) 0%nat 0%nat d Hnd) as [Hext _].
  rewrite MovieCliFacts.bind_unfold.
  destruct (save_each _ _ _ (x :: found) 0%nat 0%nat d) as [r d1]. simpl in *.
  subst r. eexists. split; [reflexivity|]. simpl.
  destruct Hext as (_ & _ & _ & _ & _ & ->). reflexivity.
Qed.

Lemma fetchAndSaveRestaurantsToDb_counts_all_as_saved_witness :
  exists d',
    fetchAndSaveRestaurantsToDb json_text parse_commas next_after_max places
      "Paris" cafe_db = (Resolved tt, d')
    /\ console d' = [LogSavedSkipped 1 0]
    /\ restaurants d' = [cafe_row].
Proof.
  destruct (fetchAndSaveRestaurantsToDb_counts_all_as_saved json_text parse_commas
              next_after_max places "Paris" [cafe] cafe_db)
    as (d' & Hrun & Hconsole);
    [ apply next_after_max_is_new
    | apply Forall_singleton; split; eexists; reflexivity
    | apply NoDup_singleton
    | discriminate | reflexivity | discriminate | ].
  exists d'. split; [exact Hrun|]. split; [exact Hconsole|].
  vm_compute in Hrun. by injection Hrun as <-.
Defined.

(** X5.  The restaurant preferences of a user are kept as one row per
    user: what [saveUserRestaurantPreferences] stores is what
    [getUserRestaurantPreferences] reads back for that user (when the JSON
    text of the two lists parses back to them), the rows of other users are
    untouched, and a second save for the same user replaces the first. *)
Theorem restaurant_preferences_round_trip
    (JSON_stringify_list : list string -> string)
    (JSON_parse_list : string -> Outcome (list string))
    (prefs : RestaurantUserPreferences) (d : Db) :
  JSON_parse_list (or_empty_array (JSON_stringify_list (favoriteCuisines prefs)))
  = Resolved (favoriteCuisines prefs) ->
  JSON_parse_list (or_empty_array (JSON_stringify_list (dietaryRestrictions prefs)))
  = Resolved (dietaryRestrictions prefs) ->
  getUserRestaurantPreferences JSON_parse_list (pref_user_id prefs)
    (snd (saveUserRestaurantPreferences JSON_stringify_list prefs d))
  = (Resolved (Some prefs), snd (saveUserRestaurantPreferences JSON_stringify_list prefs d))
  /\ (forall other,
        other <> pref_user_id prefs ->
        getUserRestaurantPreferences JSON_parse_list other
          (snd (saveUserRestaurantPreferences JSON_stringify_list prefs d))
        = (fst (getUserRestaurantPreferences JSON_parse_list other d),
           snd (saveUserRestaurantPreferences JSON_stringify_list prefs d)))
  /\ (forall earlier,
        pref_user_id earlier = pref_user_id prefs ->
        snd (saveUserRestaurantPreferences JSON_stringify_list prefs
               (snd (saveUserRestaurantPreferences JSON_stringify_list earlier d)))
        = snd (saveUserRestaurantPreferences JSON_stringify_list prefs d)).
Proof.
  intros Hc Hd. split; [|split].
  - unfold getUserRestaurantPreferences, bind, gets, lift, ret. simpl.
    rewrite lookup_insert_eq. simpl. rewrite Hc, Hd. by destruct prefs.
  - intros other Hne.
    unfold getUserRestaurantPreferences, bind, gets, lift, ret. simpl.
    rewrite lookup_insert_ne by done.
    destruct (user_restaurant_preferences d !! other) as [row|]; [|done].
    destruct (JSON_parse_list (or_empty_array (pr_favoriteCuisines row))); try done.
    destruct (JSON_parse_list (or_empty_array (pr_dietaryRestrictions row))); done.
  - intros earlier Heq. unfold saveUserRestaurantPreferences, modify, set_preferences.
    simpl. rewrite Heq, insert_insert_eq. reflexivity.
Qed.

Definition vegan : RestaurantUserPreferences :=
  {| pref_user_id := 1; favoriteCuisines := ["thai"; "indian"];
     dietaryRestrictions := []; minRating := 4 # 1 |}.

Lemma restaurant_preferences_round_trip_witness :
  fst (getUserRestaurantPreferences parse_commas 1
         (snd (saveUserRestaurantPreferences json_text vegan empty_db)))
  = Resolved (Some vegan).
Proof.
  destruct (restaurant_preferences_round_trip json_text parse_commas vegan empty_db)
    as [Hget _]; [reflexivity | reflexivity |].
  change 1 with (pref_user_id vegan). by rewrite Hget.
Defined.

Section Seeded.
Variable JSON_stringify_list : list string -> string.
Variable mockUserRestaurantPreferences : list MockPreference.

Local Abbreviation seed :=
  (seedInitialRestaurantPreferences JSON_stringify_list mockUserRestaurantPreferences).
Local Abbreviation seeded_with := (seeded JSON_stringify_list).
Local Abbreviation seed_row_of := (seed_row JSON_stringify_list).

Definition paired_ids (pairs : list (UserRow * MockPreference)) : list Z :=
  map (fun um => user_id (fst um)) pairs.

Lemma seeded_other pairs : forall m i,
  i ∉ paired_ids pairs -> seeded_with pairs m !! i = m !! i.
Proof.
  induction pairs as [|um pairs IH]; intros m i Hi; simpl; [done|].
  simpl in Hi. apply not_elem_of_cons in Hi as [Hne Hi].
  rewrite IH by done. by rewrite lookup_insert_ne.
Qed.

Lemma seeded_lookup pairs : forall m um,
  NoDup (paired_ids pairs) -> um ∈ pairs ->
  seeded_with pairs m !! user_id (fst um) = Some (seed_row_of um).
Proof.
  induction pairs as [|p pairs IH]; intros m um Hnd Hin; [by apply elem_of_nil in Hin|].
  simpl in Hnd. apply NoDup_cons in Hnd as [Hp Hnd]. simpl.
  apply elem_of_cons in Hin as [->|Hin]; [|by apply IH].
  rewrite seeded_other by done. by rewrite lookup_insert_eq.
Qed.

Lemma paired_ids_zip (l : list UserRow) : forall (k : list MockPreference) i,
  i ∈ paired_ids (zip l k) -> i ∈ map user_id l.
Proof.
  induction l as [|u l IH]; intros [|m k] i Hi; simpl in *;
    try by apply elem_of_nil in Hi.
  apply elem_of_cons in Hi as [->|Hi]; [left|right; eauto].
Qed.

Lemma paired_ids_NoDup (l : list UserRow) : forall (k : list MockPreference),
  NoDup (map user_id l) -> NoDup (paired_ids (zip l k)).
Proof.
  induction l as [|u l IH]; intros [|m k] Hnd; simpl; try constructor.
  - simpl in Hnd. apply NoDup_cons in Hnd as [Hu _].
    intros Hin. apply Hu. by eapply paired_ids_zip.
  - simpl in Hnd. apply NoDup_cons in Hnd as [_ Hnd]. by apply IH.
Qed.

Lemma users_by_id_NoDup d :
  NoDup (map user_id (users d)) -> NoDup (map user_id (users_by_id d)).
Proof.
  intros Hnd. unfold users_by_id.
  assert (map user_id (@merge_sort UserRow by_id by_id_dec (users d))
          ≡ₚ map user_id (users d)) as Hperm.
  { apply Permutation_map, merge_sort_Permutation. }
  by rewrite Hperm.
Qed.
End Seeded.

(** X6.  [seedInitialRestaurantPreferences] always resolves and touches
    only the preferences table and the console; it never removes the row of
    a user; and, when there is at least one mock preference, a second run
    directly after the first changes nothing, not even the console. *)
Theorem seedInitialRestaurantPreferences_seeds_once
    (JSON_stringify_list : list string -> string)
    (mockUserRestaurantPreferences : list MockPreference) (d : Db) :
  mockUserRestaurantPreferences <> [] ->
  exists d',
    seedInitialRestaurantPreferences JSON_stringify_list
      mockUserRestaurantPreferences d = (Resolved tt, d')
    /\ restaurants d' = restaurants d /\ users d' = users d
    /\ user_restaurant_likes d' = user_restaurant_likes d
    /\ (forall i, is_Some (user_restaurant_preferences d !! i) ->
                  is_Some (user_restaurant_preferences d' !! i))
    /\ seedInitialRestaurantPreferences JSON_stringify_list
         mockUserRestaurantPreferences d' = (Resolved tt, d').
Proof.
  intros Hmock.
  pose proof (seed_run JSON_stringify_list mockUserRestaurantPreferences d) as Hrun.
  destruct (users_by_id d) as [|firstUser rest] eqn:Husers.
  { exists d. by repeat split. }
  destruct (user_restaurant_preferences d !! user_id firstUser) eqn:Hfirst.
  { exists d. by repeat split. }
  destruct Hrun as (d' & Hrun & Hprefs & Hr & Hu & Hl).
  exists d'. repeat split; auto.
  - intros i Hi. rewrite Hprefs. by apply seeded_keeps.
  - pose proof (seed_run JSON_stringify_list mockUserRestaurantPreferences d') as Hagain.
    assert (users_by_id d' = firstUser :: rest) as Husers'.
    { unfold users_by_id in *. by rewrite Hu. }
    rewrite Husers' in Hagain.
    destruct mockUserRestaurantPreferences as [|m ms]; [done|].
    destruct (seeded_first JSON_stringify_list (firstUser, m) (zip rest ms)
                (user_restaurant_preferences d)) as [row Hrow].
    simpl in Hprefs, Hrow. rewrite Hprefs, Hrow in Hagain. exact Hagain.
Qed.

Definition ann : UserRow := {| user_id := 1; user_name := "Ann" |}.
Definition bob : UserRow := {| user_id := 2; user_name := "Bob" |}.

Definition two_users : Db :=
  {| restaurants := []; users := [bob; ann]; user_restaurant_preferences := ∅;
     user_restaurant_likes := []; console := [] |}.

Definition likes_thai : MockPreference :=
  {| mock_favoriteCuisines := Some ["thai"]; mock_dietaryRestrictions := None;
     mock_minRating := None |}.

Lemma seedInitialRestaurantPreferences_seeds_once_witness :
  exists d',
    seedInitialRestaurantPreferences json_text [likes_thai] two_users
    = (Resolved tt, d')
    /\ console d' = [LogSeeding; LogSeeded 1]
    /\ seedInitialRestaurantPreferences json_text [likes_thai] d' = (Resolved tt, d').
Proof.
  destruct (seedInitialRestaurantPreferences_seeds_once json_text [likes_thai] two_users)
    as (d' & Hrun & _ & _ & _ & _ & Hagain); [discriminate|].
  exists d'. split; [exact Hrun|]. split; [|exact Hagain].
  vm_compute in Hrun. by injection Hrun as <-.
Defined.

(** X7.  When user ids are distinct and the first user in id order has no
    preferences yet, the seeding pairs the users in ascending id order with
    the mock preferences in list order: each paired user then has the row of
    its mock preference (absent fields replaced by the empty list and by 0),
    also when that user had a row before, and every other user keeps what it
    had. *)
Theorem seedInitialRestaurantPreferences_pairs_users_in_id_order
    (JSON_stringify_list : list string -> string)
    (mockUserRestaurantPreferences : list MockPreference) (d : Db)
    (firstUser : UserRow) (rest : list UserRow) :
  NoDup (map user_id (users d)) ->
  users_by_id d = firstUser :: rest ->
  user_restaurant_preferences d !! user_id firstUser = None ->
  exists d',
    seedInitialRestaurantPreferences JSON_stringify_list
      mockUserRestaurantPreferences d = (Resolved tt, d')
    /\ (forall user mockPreference,
          (user, mockPreference) ∈ zip (firstUser :: rest) mockUserRestaurantPreferences ->
          user_restaurant_preferences d' !! user_id user
          = Some {| pr_favoriteCuisines :=
                      JSON_stringify_list
                        (default [] (mock_favoriteCuisines mockPreference));
                    pr_dietaryRestrictions :=
                      JSON_stringify_list
                        (default [] (mock_dietaryRestrictions mockPreference));
                    pr_minRating := default (0 # 1) (mock_minRating mockPreference) |})
    /\ (forall i,
          i ∉ map user_id (take (length mockUserRestaurantPreferences)
                             (firstUser :: rest)) ->
          user_restaurant_preferences d' !! i = user_restaurant_preferences d !! i).
Proof.
  intros Hnd Husers Hfirst.
  pose proof (seed_run JSON_stringify_list mockUserRestaurantPreferences d) as Hrun.
  rewrite Husers, Hfirst in Hrun. destruct Hrun as (d' & Hrun & Hprefs & _).
  exists d'. split; [exact Hrun|]. rewrite Hprefs. split.
  - intros user mockPreference Hin.
    apply (seeded_lookup JSON_stringify_list _ _ (user, mockPreference)); [|done].
    apply paired_ids_NoDup. rewrite <- Husers. by apply users_by_id_NoDup.
  - intros i Hi. apply seeded_other. intros Hin. apply Hi.
    clear - Hin. revert Hin.
    generalize (firstUser :: rest). intros l. revert mockUserRestaurantPreferences.
    induction l as [|u l IH]; intros [|m k] Hin; simpl in *;
      try by apply elem_of_nil in Hin.
    apply elem_of_cons in Hin as [->|Hin]; [left|right; eauto].
Qed.

Lemma seedInitialRestaurantPreferences_pairs_users_in_id_order_witness :
  exists d',
    seedInitialRestaurantPreferences json_text [likes_thai] two_users
    = (Resolved tt, d')
    /\ user_restaurant_preferences d' !! 1
       = Some {| pr_favoriteCuisines := json_text ["thai"];
                 pr_dietaryRestrictions := json_text [];
                 pr_minRating := 0 # 1 |}
    /\ user_restaurant_preferences d' !! 2 = None.
Proof.
  destruct (seedInitialRestaurantPreferences_pairs_users_in_id_order json_text
              [likes_thai] two_users ann [bob])
    as (d' & Hrun & Hpaired & Hother);
    [ | reflexivity | reflexivity | ].
  { simpl. apply NoDup_cons. split; [|apply NoDup_singleton].
    intros H. apply list_elem_of_singleton in H. discriminate. }
  exists d'. split; [exact Hrun|]. split.
  - apply (Hpaired ann likes_thai). by left.
  - rewrite (Hother 2); [reflexivity|]. simpl.
    intros H. apply list_elem_of_singleton in H. discriminate.
Defined.

Lemma liked_elem (u r : Z) (l : list (Z * Z)) :
  r ∈ map snd (List.filter (fun row => fst row =? u) l) <-> (u, r) ∈ l.
Proof.
  induction l as [|[v q] l IH]; simpl.
  { split; intros H; by apply elem_of_nil in H. }
  destruct (Z.eqb_spec v u) as [->|Hne]; simpl.
  - rewrite !elem_of_cons, IH. split; intros [H|H]; auto; left; congruence.
  - rewrite IH, elem_of_cons. split; [auto|]. intros [[=]|H]; [congruence|done].
Qed.

Lemma liked_app (u : Z) (l k : list (Z * Z)) :
  map snd (List.filter (fun row => fst row =? u) (l ++ k))
  = map snd (List.filter (fun row => fst row =? u) l)
    ++ map snd (List.filter (fun row => fst row =? u) k).
Proof. by rewrite List.filter_app, map_app. Qed.

Section Likes.
Variable select_likes : Z -> list (Z * Z) -> list (Z * Z).
Hypothesis engine : answers_matching_rows select_likes.

Lemma liked_permutation (u : Z) (table : list (Z * Z)) :
  map snd (select_likes u table)
  ≡ₚ map snd (List.filter (fun row => fst row =? u) table).
Proof. apply Permutation_map, engine. Qed.

(** X8.  [recordUserRestaurantLike] records a like once.  Whatever the
    order in which the engine answers the rows of a user: afterwards the
    user's liked ids are the ids liked before, together with the new one
    unless it was there already (then the answer is the same list); the
    liked ids of every other user are the same ids, as often; recording
    the same like again changes nothing; and the table stays free of
    duplicate pairs, so that no id is answered twice. *)
Theorem recordUserRestaurantLike_records_once (userId restaurantId : Z) (d : Db) :
  exists before after,
    getLikedRestaurantIdsByUserId select_likes userId d = (Resolved before, d)
    /\ getLikedRestaurantIdsByUserId select_likes userId
         (snd (recordUserRestaurantLike userId restaurantId d))
       = (Resolved after, snd (recordUserRestaurantLike userId restaurantId d))
    /\ (restaurantId ∈ before -> after = before)
    /\ (restaurantId ∉ before -> after ≡ₚ before ++ [restaurantId])
    /\ restaurantId ∈ after
    /\ (forall r, r ∈ after <-> r ∈ before \/ r = restaurantId)
    /\ (forall other,
          other <> userId ->
          exists theirs theirs',
            fst (getLikedRestaurantIdsByUserId select_likes other d) = Resolved theirs
            /\ fst (getLikedRestaurantIdsByUserId select_likes other
                      (snd (recordUserRestaurantLike userId restaurantId d)))
               = Resolved theirs'
            /\ theirs' ≡ₚ theirs)
    /\ recordUserRestaurantLike userId restaurantId
         (snd (recordUserRestaurantLike userId restaurantId d))
       = (Resolved tt, snd (recordUserRestaurantLike userId restaurantId d))
    /\ (NoDup (user_restaurant_likes d) ->
        NoDup (user_restaurant_likes
                 (snd (recordUserRestaurantLike userId restaurantId d)))
        /\ NoDup before /\ NoDup after).
Proof.
  do 2 eexists. split; [reflexivity|]. split; [reflexivity|].
  unfold recordUserRestaurantLike, getLikedRestaurantIdsByUserId, modify, gets. simpl.
  assert (forall u r table, r ∈ map snd (select_likes u table) <-> (u, r) ∈ table)
    as Hliked.
  { intros u r table. rewrite liked_permutation. apply liked_elem. }
  assert (forall u table, NoDup table -> NoDup (map snd (select_likes u table))) as Hnodup.
  { intros u table Hnd. rewrite liked_permutation.
    apply NoDup_fmap_2_strong.
    - intros [v q] [v' q'] Hx Hy Heq. simpl in Heq. subst q'.
      apply list_elem_of_In, filter_In in Hx as [_ Hv].
      apply list_elem_of_In, filter_In in Hy as [_ Hv']. simpl in *.
      f_equal. lia.
    - apply NoDup_ListNoDup, List.NoDup_filter, NoDup_ListNoDup, Hnd. }
  destruct (decide ((userId, restaurantId) ∈ user_restaurant_likes d)) as [Hin|Hnew].
  - rewrite (bool_decide_eq_true_2 _ Hin). simpl.
    rewrite (bool_decide_eq_true_2 _ Hin).
    split; [done|]. split; [intros Habs; by rewrite Hliked in Habs|].
    split; [by apply Hliked|].
    split; [intros r; split; [auto | intros [H| ->]; [done | by apply Hliked]]|].
    split; [intros other Hne; by do 2 eexists|].
    split; [done|]. intros Hnd. auto.
  - rewrite (bool_decide_eq_false_2 _ Hnew). simpl.
    assert ((userId, restaurantId)
            ∈ user_restaurant_likes d ++ [(userId, restaurantId)]) as Hnow.
    { apply elem_of_app. right. by left. }
    rewrite (bool_decide_eq_true_2 _ Hnow).
    assert (NoDup (user_restaurant_likes d) ->
            NoDup (user_restaurant_likes d ++ [(userId, restaurantId)])) as Hnd'.
    { intros Hnd. apply NoDup_app. split; [done|]. split; [|apply NoDup_singleton].
      intros x Hx Hx'. apply list_elem_of_singleton in Hx'. by subst. }
    split; [intros Habs; by rewrite Hliked in Habs|].
    split.
    { intros _. rewrite !liked_permutation, liked_app. simpl. by rewrite Z.eqb_refl. }
    split; [by apply Hliked|].
    split.
    { intros r. rewrite !Hliked, elem_of_app, list_elem_of_singleton.
      split; [intros [H|[= ->]]; auto | intros [H| ->]; auto]. }
    split.
    { intros other Hne. do 2 eexists. split; [reflexivity|]. split; [reflexivity|].
      rewrite !liked_permutation, liked_app. simpl.
      destruct (Z.eqb_spec userId other) as [->|_]; [done|].
      simpl. by rewrite app_nil_r. }
    split; [done|]. intros Hnd. auto.
Qed.
End Likes.

(** An engine that answers the rows of a user from the index on the pair
    (user, restaurant), lowest restaurant first, whatever the order in
    which they were inserted. *)
Definition from_index (userId : Z) (table : list (Z * Z)) : list (Z * Z) :=
  merge_sort (fun a b => bool_decide (snd a <= snd b))
    (List.filter (fun row => fst row =? userId) table).

Definition liking : Db :=
  {| restaurants := []; users := []; user_restaurant_preferences := ∅;
     user_restaurant_likes := [(1, 5); (2, 4)]; console := [] |}.

Example liked_ids_from_index :
  user_restaurant_likes (snd (recordUserRestaurantLike 1 3 liking))
  = [(1, 5); (2, 4); (1, 3)]
  /\ fst (getLikedRestaurantIdsByUserId from_index 1
            (snd (recordUserRestaurantLike 1 3 liking)))
     = Resolved [3; 5].
Proof. vm_compute. by split. Qed.

Lemma recordUserRestaurantLike_records_once_witness :
  answers_matching_rows from_index
  /\ exists after,
       getLikedRestaurantIdsByUserId from_index 1
         (snd (recordUserRestaurantLike 1 3 liking))
       = (Resolved after, snd (recordUserRestaurantLike 1 3 liking))
       /\ 3 ∈ after /\ (forall r, r ∈ after <-> r ∈ [5] \/ r = 3).
Proof.
  assert (answers_matching_rows from_index) as Hengine.
  { intros u table. apply merge_sort_Permutation. }
  split; [exact Hengine|].
  destruct (recordUserRestaurantLike_records_once from_index Hengine 1 3 liking)
    as (before & after & Hbefore & Hafter & _ & _ & Hin & Hall & _).
  injection Hbefore as <-.
  exists after. split; [exact Hafter|]. split; [exact Hin | exact Hall].
Defined.

Section Listing.
Variable JSON_parse_list : string -> Outcome (list string).

(** What [getAllRestaurantsFromDb] makes of one row. *)
Definition parsed (r : Restaurant) (row : Row) : Prop :=
  exists cs ds,
    r = ParsedRow row cs ds
    /\ JSON_parse_list (or_empty_array (row_cuisines row)) = Resolved cs
    /\ JSON_parse_list (or_empty_array (row_dietaryOptions row)) = Resolved ds.

Definition parses (row : Row) : Prop :=
  (exists cs, JSON_parse_list (or_empty_array (row_cuisines row)) = Resolved cs)
  /\ (exists ds, JSON_parse_list (or_empty_array (row_dietaryOptions row)) = Resolved ds).

Lemma map_all_parse_row rows : forall d,
  snd (map_all (parse_row JSON_parse_list) rows d) = d
  /\ (forall rs, fst (map_all (parse_row JSON_parse_list) rows d) = Resolved rs ->
                 Forall2 parsed rs rows)
  /\ (Forall parses rows ->
      exists rs, fst (map_all (parse_row JSON_parse_list) rows d) = Resolved rs).
Proof.
  induction rows as [|row rows IH]; intros d; simpl.
  { split; [done|]. split; [intros rs [= <-]; constructor | eauto]. }
  destruct (IH d) as (Hst & Hres & Hall).
  unfold bind at 1.
  remember (map_all (parse_row JSON_parse_list) rows) as others eqn:Hothers.
  unfold bind, parse_row, lift, ret.
  destruct (JSON_parse_list (or_empty_array (row_cuisines row))) as [cs| | |] eqn:Hc;
    try (split; [done|split; [done|]]; intros Hp; apply Forall_cons in Hp as [[[? ?] _] _];
         congruence).
  destruct (JSON_parse_list (or_empty_array (row_dietaryOptions row))) as [ds| | |] eqn:Hd;
    try (split; [done|split; [done|]]; intros Hp; apply Forall_cons in Hp as [[_ [? ?]] _];
         congruence).
  simpl. destruct (others d) as [[rs| | |] d1]; simpl in *; subst d1;
    (split; [done|]); split; try done.
  - intros ? [= <-]. constructor; [by exists cs, ds | by apply Hres].
  - eauto.
  - intros Hp. apply Forall_cons in Hp as [_ Hp]. by destruct (Hall Hp).
  - intros Hp. apply Forall_cons in Hp as [_ Hp]. by destruct (Hall Hp).
  - intros Hp. apply Forall_cons in Hp as [_ Hp]. by destruct (Hall Hp).
Qed.
End Listing.

(** X9.  [getAllRestaurantsFromDb] only reads: the database is as before.
    What it resolves with has one record per row, in table order, each the
    row with its two list columns parsed; and it does resolve when the JSON
    text of every row parses (one row that does not parse makes the whole
    call fail). *)
Theorem getAllRestaurantsFromDb_lists_every_row
    (JSON_parse_list : string -> Outcome (list string)) (d : Db) :
  snd (getAllRestaurantsFromDb JSON_parse_list d) = d
  /\ (forall rs,
        fst (getAllRestaurantsFromDb JSON_parse_list d) = Resolved rs ->
        Forall2 (parsed JSON_parse_list) rs (restaurants d)
        /\ map restaurant_row rs = restaurants d)
  /\ (Forall (parses JSON_parse_list) (restaurants d) ->
      exists rs, fst (getAllRestaurantsFromDb JSON_parse_list d) = Resolved rs)
  /\ (forall row,
        row ∈ restaurants d ->
        (forall cs, JSON_parse_list (or_empty_array (row_cuisines row)) <> Resolved cs) ->
        forall rs, fst (getAllRestaurantsFromDb JSON_parse_list d) <> Resolved rs).
Proof.
  unfold getAllRestaurantsFromDb, bind, gets. simpl.
  destruct (map_all_parse_row JSON_parse_list (restaurants d) d) as (Hst & Hres & Hall).
  split; [done|]. split; [|split; [done|]].
  - intros rs Hrs. specialize (Hres rs Hrs). split; [done|].
    clear - Hres. induction Hres as [|r row rs rows (cs & ds & -> & _) _ IH]; simpl;
      [done | by rewrite IH].
  - intros row Hin Hbad rs Hrs. specialize (Hres rs Hrs).
    clear - Hres Hin Hbad.
    induction Hres as [|r row' rs rows (cs & ds & _ & Hc & _) _ IH];
      [by apply elem_of_nil in Hin|].
    apply elem_of_cons in Hin as [->|Hin]; [by apply (Hbad cs) | by apply IH].
Qed.

End RestaurantStoreFacts.

(** ** The remote catalogue client: requests, console and caches *)
Module TmdbRequestFacts.
Import TmdbService TmdbServiceFacts.

(** The entries of the query string under the name [k]. *)
Definition entries_named (k : string) (q : list (string * string)) :=
  List.filter (fun kv => String.eqb k (fst kv)) q.

(** [String(v)] of every parameter, as [fetchTMDB] puts them in the URL. *)
Definition query_of (params : list (string * ParamValue)) : list (string * string) :=
  map (fun kv => (fst kv, String_of (snd kv))) params.

Lemma query_remove_none k q : entries_named k (query_remove k q) = [].
Proof.
  induction q as [|[k' v'] q IH]; simpl; [done|].
  destruct (String.eqb k k') eqn:E; simpl; [done|]. by rewrite E.
Qed.

Lemma query_remove_idem k q : query_remove k (query_remove k q) = query_remove k q.
Proof.
  induction q as [|[k' v'] q IH]; simpl; [done|].
  destruct (String.eqb k k') eqn:E; simpl; [done|]. by rewrite E, IH.
Qed.

Lemma query_set_once k v q : entries_named k (query_set k v q) = [(k, v)].
Proof.
  induction q as [|[k' v'] q IH]; simpl.
  - by rewrite String.eqb_refl.
  - destruct (String.eqb k k') eqn:E; simpl.
    + by rewrite String.eqb_refl, query_remove_none.
    + by rewrite E.
Qed.

Lemma query_set_others k v q : query_remove k (query_set k v q) = query_remove k q.
Proof.
  induction q as [|[k' v'] q IH]; simpl.
  - by rewrite String.eqb_refl.
  - destruct (String.eqb k k') eqn:E; simpl.
    + by rewrite String.eqb_refl, query_remove_idem.
    + by rewrite E, IH.
Qed.

(** The entries the service itself writes for a failed request. *)
Definition is_failure_report (e : LogEntry) : bool :=
  match e with
  | LogMissingCredentials | LogApiError _ _ _ _ | LogNetworkError _ => true
  | _ => false
  end.

Lemma fetchTMDB_request env net endpoint params method body s :
  credentials_missing env = false ->
  can_send method body = true ->
  exists rq s',
    fetchTMDB env net endpoint params method body s
    = (Resolved (expected (net (length (sent s)) rq)), s')
    /\ sent s' = sent s ++ [rq]
    /\ req_endpoint rq = endpoint /\ req_method rq = method
    /\ (if truthy (TMDB_API_READ_ACCESS_TOKEN env)
        then req_authorization rq
             = Some ("Bearer " ++ default "" (TMDB_API_READ_ACCESS_TOKEN env))%string
             /\ req_query rq = query_of params
        else req_authorization rq = None
             /\ entries_named "api_key" (req_query rq)
                = [("api_key", default "" (TMDB_API_KEY_V3 env))]
             /\ query_remove "api_key" (req_query rq)
                = query_remove "api_key" (query_of params))
    /\ (method = GET -> req_body rq = None /\ req_content_type rq = None).
Proof.
  unfold credentials_missing, fetchTMDB. intros Hc Hsend. rewrite Hc.
  destruct (truthy (TMDB_API_READ_ACCESS_TOKEN env)) eqn:Htok;
    [| destruct (truthy (TMDB_API_KEY_V3 env)) eqn:Hkey; [|discriminate Hc] ];
    clear Hc; destruct method, body; try discriminate Hsend; run;
    (match goal with
     | |- context [net ?n ?rq] =>
         exists rq; destruct (net n rq) as [|r] eqn:Hnet
     end);
    simpl; unfold expected, error_message, response_json;
    try (destruct (ok r) eqn:Hok; simpl;
         [ destruct (status r =? 204) eqn:H204; simpl;
           [| destruct (TmdbService.body r) as [| |j] eqn:Hbody; simpl ]
         | destruct (TmdbService.body r) as [| |[]] eqn:Hbody; simpl;
           destruct (status r =? 401) eqn:H401; simpl ]);
    eexists; (split; [reflexivity|]); simpl;
    repeat split; auto; try discriminate;
    try apply query_set_once; try apply query_set_others.
Qed.

(** X10.  With a credential set, [fetchTMDB] hands exactly one request to
    [fetch], for the endpoint and with the method it was given, and answers
    from that request alone.  With a read access token the request carries
    it in the [Authorization] header and the URL holds the parameters
    unchanged, so the API key is never sent, even when set; without a token
    the header is absent and the URL holds the key as its only [api_key]
    entry, the other parameters being kept in order.  A GET has neither a
    body nor a content type. *)
Theorem fetchTMDB_authenticates_each_request env net endpoint params method body s :
  credentials_missing env = false ->
  can_send method body = true ->
  exists rq s',
    fetchTMDB env net endpoint params method body s
    = (Resolved (expected (net (length (sent s)) rq)), s')
    /\ sent s' = sent s ++ [rq]
    /\ req_endpoint rq = endpoint /\ req_method rq = method
    /\ (if truthy (TMDB_API_READ_ACCESS_TOKEN env)
        then req_authorization rq
             = Some ("Bearer " ++ default "" (TMDB_API_READ_ACCESS_TOKEN env))%string
             /\ req_query rq = query_of params
        else req_authorization rq = None
             /\ entries_named "api_key" (req_query rq)
                = [("api_key", default "" (TMDB_API_KEY_V3 env))]
             /\ query_remove "api_key" (req_query rq)
                = query_remove "api_key" (query_of params))
    /\ (method = GET -> req_body rq = None /\ req_content_type rq = None).
Proof. apply fetchTMDB_request. Qed.

Definition key_env : Env :=
  {| TMDB_API_READ_ACCESS_TOKEN := None; TMDB_API_KEY_V3 := Some "k3" |}.

Lemma fetchTMDB_authenticates_each_request_witness :
  exists s',
    fetchTMDB key_env genre_server "movie/popular"
      [("api_key", PStr "mine"); ("page", PNum 2)] GET JsUndefined fresh
    = (Resolved (Some (JGenres [drama; comedy])), s')
    /\ sent s'
       = [{| req_endpoint := "movie/popular";
             req_query := [("api_key", "k3"); ("page", "2")];
             req_method := GET; req_authorization := None;
             req_content_type := None; req_body := None |}].
Proof.
  destruct (fetchTMDB_authenticates_each_request key_env genre_server "movie/popular"
              [("api_key", PStr "mine"); ("page", PNum 2)] GET JsUndefined fresh
              eq_refl eq_refl)
    as (rq & s' & Hrun & _).
  exists s'. split; [exact Hrun|].
  vm_compute in Hrun. by injection Hrun as <-.
Defined.

(** X11.  What [fetchTMDB] writes to the console tells how the request
    went, with one gap.  A result other than null comes with no failure
    report; a null result comes with one (missing credentials, an API error
    or a network error), except when the remote side answers 2xx, other than
    204, with the JSON literal [null]: that null is passed on in silence.
    The console only grows, and a 401 adds the two hints about the
    credential in use. *)
Theorem fetchTMDB_reports_failures env net endpoint params method body s :
  can_send method body = true ->
  exists r s' new,
    fetchTMDB env net endpoint params method body s = (Resolved r, s')
    /\ console s' = console s ++ new
    /\ (is_Some r -> existsb is_failure_report new = false)
    /\ (r = None ->
        existsb is_failure_report new = true
        \/ exists rq resp,
             net (length (sent s)) rq = Responded resp
             /\ sent s' = sent s ++ [rq]
             /\ ok resp = true /\ status resp <> 204
             /\ TmdbService.body resp = JsonNull)
    /\ (forall rq resp,
          sent s' = sent s ++ [rq] ->
          net (length (sent s)) rq = Responded resp ->
          status resp = 401 ->
          exists before message,
            new = before
                  ++ [LogApiError 401 endpoint (authMethodUsed env) message;
                      LogInvalidCredential (authMethodUsed env); LogVerifyToken]
            \/ (TmdbService.body resp = JsonNull
                /\ new = before ++ [LogNetworkError endpoint])).
Proof.
  intros Hsend. unfold fetchTMDB.
  destruct (negb (truthy (TMDB_API_READ_ACCESS_TOKEN env))
            && negb (truthy (TMDB_API_KEY_V3 env))) eqn:Hc.
  { run. exists None. eexists. exists [LogMissingCredentials].
    split; [reflexivity|]. simpl. split; [done|]. split; [by intros []|].
    split; [by left|]. intros rq resp Hsent. exfalso.
    apply (f_equal length) in Hsent. rewrite length_app in Hsent. simpl in Hsent. lia. }
  destruct (truthy (TMDB_API_READ_ACCESS_TOKEN env)) eqn:Htok;
    [| destruct (truthy (TMDB_API_KEY_V3 env)) eqn:Hkey; [|discriminate Hc] ];
    clear Hc; destruct method, body; try discriminate Hsend; run;
    (match goal with
     | |- context [net ?n ?rq] =>
         pose (sent_rq := rq); destruct (net n rq) as [|r] eqn:Hnet
     end);
    simpl; unfold error_message, response_json;
    try (destruct (ok r) eqn:Hok; simpl;
         [ destruct (status r =? 204) eqn:H204; simpl;
           [| destruct (TmdbService.body r) as [| |j] eqn:Hbody; simpl ]
         | destruct (TmdbService.body r) as [| |[]] eqn:Hbody; simpl;
           destruct (status r =? 401) eqn:H401; simpl ]);
    do 2 eexists;
    (match goal with
     | |- exists new, (_, {| console := console s ++ ?l |}) = _ /\ _ => exists l
     | |- exists new, (_, {| console := (console s ++ ?l1) ++ ?l2 |}) = _ /\ _ =>
         exists (l1 ++ l2)
     | |- exists new, (_, {| console := ((console s ++ ?l1) ++ ?l2) ++ ?l3 |}) = _ /\ _ =>
         exists (l1 ++ l2 ++ l3)
     | |- exists new,
            (_, {| console := (((console s ++ ?l1) ++ ?l2) ++ ?l3) ++ ?l4 |}) = _ /\ _ =>
         exists (l1 ++ l2 ++ l3 ++ l4)
     | |- exists new,
            (_, {| console := ((((console s ++ ?l1) ++ ?l2) ++ ?l3) ++ ?l4) ++ ?l5 |})
            = _ /\ _ =>
         exists (l1 ++ l2 ++ l3 ++ l4 ++ l5)
     | |- exists new, (_, {| console := console s |}) = _ /\ _ => exists []
     end);
    (split; [reflexivity|]); simpl;
    (split; [by rewrite <- ?app_assoc, ?app_nil_r|]);
    (split; [try done; by intros [? [=]]|]);
    (split;
     [ first [ by left
             | intros [=]; fail
             | intros _; right; exists sent_rq, r; repeat split; auto; lia ]
     | ]);
    intros rq resp Hsent Hresp H401';
    apply app_inj_tail in Hsent as [_ <-]; subst sent_rq;
    rewrite Hnet in Hresp; try discriminate Hresp;
    injection Hresp as <-;
    try (unfold ok in Hok; rewrite H401' in Hok; discriminate Hok);
    try (rewrite H401' in H401; discriminate H401);
    rewrite ?H401';
    first [ eexists [], _; left; reflexivity
          | eexists [_], _; left; reflexivity
          | exists [], endpoint; right; split; [assumption|reflexivity]
          | exists [LogFallbackApiKey], endpoint; right;
            split; [assumption|reflexivity] ].
Qed.

Definition null_server : Net :=
  fun _ _ => Responded {| status := 200; statusText := "OK"; body := JsonNull |}.

Lemma fetchTMDB_reports_failures_witness :
  fetchTMDB token_env null_server "movie/popular" [] GET JsUndefined fresh
  = (Resolved None,
     {| console := [];
        sent := [{| req_endpoint := "movie/popular"; req_query := [];
                    req_method := GET; req_authorization := Some "Bearer token";
                    req_content_type := None; req_body := None |}];
        movieGenreListCache := None; tvGenreListCache := None |})
  /\ exists r s' new,
       fetchTMDB token_env offline "movie/popular" [] GET JsUndefined fresh
       = (Resolved r, s')
       /\ console s' = new.
Proof.
  split; [reflexivity|].
  destruct (fetchTMDB_reports_failures token_env offline "movie/popular" [] GET
              JsUndefined fresh eq_refl)
    as (r & s' & new & Hrun & Hconsole & _).
  by exists r, s', new.
Defined.

(** X12.  Every exported wrapper is a GET without body: with a
    credential set it sends exactly one request, answers from it, and
    leaves both genre caches alone.  In the two searches a year of 0 is
    left out of the request like an absent one. *)
Theorem every_wrapper_sends_one_get env net c s :
  credentials_missing env = false ->
  (exists rq s',
     run_call env net c s = (Resolved (expected (net (length (sent s)) rq)), s')
     /\ sent s' = sent s ++ [rq]
     /\ req_method rq = GET /\ req_body rq = None /\ req_content_type rq = None
     /\ movieGenreListCache s' = movieGenreListCache s
     /\ tvGenreListCache s' = tvGenreListCache s)
  /\ (forall query page,
        searchMovies env net query page (Some 0) s
        = searchMovies env net query page None s
        /\ searchTvShows env net query page (Some 0) s
           = searchTvShows env net query page None s).
Proof.
  intros Hc. split; [|done].
  assert (forall endpoint params,
            exists rq s',
              fetchTMDB env net endpoint params GET JsUndefined s
              = (Resolved (expected (net (length (sent s)) rq)), s')
              /\ sent s' = sent s ++ [rq]
              /\ req_method rq = GET /\ req_body rq = None /\ req_content_type rq = None
              /\ movieGenreListCache s' = movieGenreListCache s
              /\ tvGenreListCache s' = tvGenreListCache s) as Hget.
  { intros endpoint params.
    destruct (fetchTMDB_request env net endpoint params GET JsUndefined s Hc eq_refl)
      as (rq & s' & Hrun & Hsent & _ & Hm & _ & Hbody).
    destruct (fetchTMDB_with_credentials env net endpoint params GET JsUndefined s Hc eq_refl)
      as (rq' & s'' & Hrun' & _ & _ & Hcm & Hct & _).
    rewrite Hrun in Hrun'. injection Hrun' as _ <-.
    destruct (Hbody eq_refl) as [Hb Hty].
    exists rq, s'. by repeat split. }
  destruct c; simpl;
    unfold getMovieDetails, getPopularMovies, searchMovies, getMovieRecommendations,
      getTvShowDetails, getTvShowSeasonDetails, getPopularTvShows, searchTvShows,
      getTvShowRecommendations, getMovieWatchProviders, getTvWatchProviders;
    apply Hget.
Qed.

Lemma every_wrapper_sends_one_get_witness :
  exists s',
    getPopularMovies key_env offline 1 fresh = (Resolved None, s')
    /\ length (sent s') = 1%nat.
Proof.
  destruct (every_wrapper_sends_one_get key_env offline (CallPopularMovies 1) fresh eq_refl)
    as [(rq & s' & Hrun & Hsent & _) _].
  exists s'. split; [exact Hrun | by rewrite Hsent].
Defined.

(** X14.  [mapMovieGenreIdsToObjects] and [mapTvGenreIdsToObjects] resolve
    ids against the list [getGenreList] of their kind gives, in the state it
    leaves: the result is never longer than the input, holds only genres of
    that list, and, when every input id is known to the list, carries
    exactly the input ids in the input order. *)
Theorem mapGenreIdsToObjects_known_ids_round_trip env net k i ids s :
  exists full s' result,
    getGenreList env net k s = (Resolved full, s')
    /\ mapGenreIdsToObjects env net k (Some (i :: ids)) s = (Resolved result, s')
    /\ (length result <= length (i :: ids))%nat
    /\ (forall g, g ∈ result -> g ∈ full)
    /\ ((forall j, j ∈ i :: ids -> j ∈ map genre_id full) ->
        map genre_id result = i :: ids).
Proof.
  destruct (getGenreList_run env net k s) as (full & s' & Hrun & _).
  exists full, s', (resolve_genres full (i :: ids)).
  split; [exact Hrun|]. split.
  { unfold mapGenreIdsToObjects, bind. by rewrite Hrun. }
  split; [|split].
  - rewrite <- (length_map genre_id), resolve_genres_ids. apply List.filter_length_le.
  - intros g Hg. apply resolve_genres_elem in Hg as [_ Hfind].
    apply list_elem_of_In. by destruct (find_some _ _ Hfind).
  - intros Hknown. rewrite resolve_genres_ids.
    generalize dependent (i :: ids). clear i ids. intros ids.
    induction ids as [|j ids IH]; intros Hknown; simpl; [done|].
    assert (existsb (fun g => genre_id g =? j) full = true) as ->.
    { apply existsb_exists.
      assert (j ∈ map genre_id full) as Hj by (apply Hknown; by left).
      apply list_elem_of_In, in_map_iff in Hj as (g & <- & Hin).
      exists g. split; [done | lia]. }
    f_equal. apply IH. intros j' Hj'. apply Hknown. by right.
Qed.

Lemma length_append (s1 s2 : string) :
  String.length (String.append s1 s2) = (String.length s1 + String.length s2)%nat.
Proof. induction s1 as [|c s1 IH]; simpl; [done | by rewrite IH]. Qed.

Lemma prefix_append (s1 s2 : string) : String.prefix s1 (String.append s1 s2) = true.
Proof.
  induction s1 as [|c s1 IH]; simpl; [by destruct s2|].
  by destruct (ascii_dec c c).
Qed.

(** X15.  [getPosterUrl] and [getStillUrl] answer null exactly for a null
    or empty path.  For any other path the URL is the image base, then the
    size, then the path, where the size is the one given, or w342 for a
    poster and w300 for a still when none is given; so the two functions
    agree on every explicit size. *)
Theorem image_urls_are_base_size_path (path size : option string) :
  (getPosterUrl path size = None <-> (path = None \/ path = Some ""))
  /\ (getStillUrl path size = None <-> (path = None \/ path = Some ""))
  /\ (forall given, getStillUrl path (Some given) = getPosterUrl path (Some given))
  /\ (forall p, path = Some p -> p <> "" ->
        getPosterUrl path size
        = Some (TMDB_IMAGE_BASE_URL +:+ default "w342" size +:+ p)
        /\ getStillUrl path size
           = Some (TMDB_IMAGE_BASE_URL +:+ default "w300" size +:+ p)
        /\ getPosterUrl path None = Some ("https://image.tmdb.org/t/p/w342" +:+ p)
        /\ getStillUrl path None = Some ("https://image.tmdb.org/t/p/w300" +:+ p))
  /\ (forall url,
        getPosterUrl path size = Some url \/ getStillUrl path size = Some url ->
        exists p, path = Some p /\ p <> ""
                  /\ String.prefix TMDB_IMAGE_BASE_URL url = true).
Proof.
  unfold getPosterUrl, getStillUrl, truthy.
  destruct path as [p|]; simpl.
  - destruct (String.eqb_spec p "") as [->|Hne]; simpl.
    + repeat split; auto; try done;
        first [ congruence | by intros url [|] ].
    + split; [|split; [|split; [|split]]]; try done.
      * split; [done|]. intros [[=]|[=]]. done.
      * split; [done|]. intros [[=]|[=]]. done.
      * intros q [= <-] _. done.
      * intros url Hurl. exists p. split; [done|]. split; [done|].
        destruct Hurl as [[= <-]|[= <-]]; apply prefix_append.
  - repeat split; auto; try done. by intros url [|].
Qed.

End TmdbRequestFacts.

(** ** Start-up and shut-down: the error path *)
Module ProgramFacts.
Import Index.

(** A step that comes back, by resolving or by rejecting. *)
Definition settles {W} (m : JsM W unit) : Prop :=
  forall w, exists r w', m w = (r, w') /\ (r = Resolved tt \/ exists e, r = Rejected e).

Definition all_settle {W} (d : Deps W) : Prop :=
  settles (initDB d) /\ settles (getDB d) /\ settles (closeDB d)
  /\ settles (seedInitialGenericUsers d)
  /\ settles (seedInitialRestaurantPreferences d)
  /\ settles (seedInitialMoviePreferences d)
  /\ settles (seedInitialTvShowPreferences d)
  /\ settles (runMainCLI d).

Lemma call_settles {W} (m : JsM W unit) (p : Proc W) :
  settles m ->
  exists r w',
    call m p = (r, {| world := w'; console := console p |})
    /\ (r = Resolved tt \/ exists e, r = Rejected e).
Proof.
  intros Hm. destruct (Hm (world p)) as (r & w' & Hw & Hr).
  exists r, w'. unfold call, zoom. by rewrite Hw.
Qed.

Ltac step_call :=
  match goal with
  | |- context [call ?m ?q] =>
      let r := fresh "r" in let w := fresh "w" in
      let H := fresh "H" in let e := fresh "e" in
      destruct (call_settles m q ltac:(assumption)) as (r & w & H & [->|[e ->]]);
      rewrite H; clear H; simpl
  end.

(** How [main] comes back. *)
Inductive MainRun {W} (p : Proc W) : Outcome unit -> Proc W -> Prop :=
| MainDone w :
    MainRun p (Resolved tt)
      {| world := w;
         console := console p ++ [LogStarting; LogDatabaseEstablished; LogShutDown] |}
| MainFailedInit e w :
    MainRun p (Rejected e) {| world := w; console := console p ++ [LogStarting] |}
| MainFailedLater e w :
    MainRun p (Rejected e)
      {| world := w; console := console p ++ [LogStarting; LogDatabaseEstablished] |}.

Lemma main_run {W} (d : Deps W) (p : Proc W) :
  all_settle d -> exists r p', main d p = (r, p') /\ MainRun p r p'.
Proof.
  intros (Hinit & Hget & Hclose & Hs1 & Hs2 & Hs3 & Hs4 & Hcli).
  unfold main, print. unfold bind, modify. simpl.
  step_call; [|do 2 eexists; split; [reflexivity | apply MainFailedInit]].
  repeat (step_call;
          [|do 2 eexists; split; [reflexivity|]; rewrite <- ?app_assoc;
            apply MainFailedLater]).
  do 2 eexists. split; [reflexivity|]. rewrite <- !app_assoc. apply MainDone.
Qed.

Lemma on_unhandled_run {W} (d : Deps W) (err : JsError) (p : Proc W) :
  settles (getDB d) -> settles (closeDB d) ->
  exists w closing,
    on_unhandled d err p
    = (Resolved tt,
       {| world := w; console := console p ++ LogUnhandledError err :: closing |})
    /\ (closing = [] \/ closing = [LogClosedOnError] \/ closing = [LogErrorClosing]).
Proof.
  intros Hget Hclose.
  unfold on_unhandled, print. unfold bind, modify, try_catch, ret. simpl.
  step_call.
  - step_call; do 2 eexists; rewrite <- ?app_assoc; simpl; split; try reflexivity; auto.
  - do 2 eexists. split; [reflexivity|]. auto.
Qed.

(** X16.  When each step [main] calls comes back, resolving or rejecting,
    the process always exits, with status 0 or 1.  Status 0 means every step
    went through and the console shows the start, the database and the
    shut-down lines.  Status 1 means a step rejected: the steps after it
    were not run (no shut-down line), the error is reported once, and the
    handler itself never fails, whether or not the database can still be
    opened or closed. *)
Theorem program_exit_status {W} (d : Deps W) (p : Proc W) :
  all_settle d ->
  exists code p' new,
    program d p = (Exited code, p')
    /\ console p' = console p ++ LogStarting :: new
    /\ ((code = 0 /\ fst (main d p) = Resolved tt
         /\ new = [LogDatabaseEstablished; LogShutDown])
        \/ (code = 1 /\ (LogShutDown ∉ new)
            /\ exists e closing,
                 fst (main d p) = Rejected e
                 /\ (new = LogUnhandledError e :: closing
                     \/ new = LogDatabaseEstablished :: LogUnhandledError e :: closing)
                 /\ (closing = [] \/ closing = [LogClosedOnError]
                     \/ closing = [LogErrorClosing]))).
Proof.
  intros Hd. destruct (main_run d p Hd) as (r & p1 & Hmain & Hrun).
  unfold program. rewrite Hmain. simpl.
  destruct Hd as (_ & Hget & Hclose & _).
  destruct Hrun as [w|e w|e w].
  - do 3 eexists. split; [reflexivity|]. split; [reflexivity|]. left. by repeat split.
  - match goal with
    | |- context [on_unhandled d e ?q] =>
        destruct (on_unhandled_run d e q Hget Hclose) as (w' & closing & -> & Hclosing)
    end.
    simpl. do 3 eexists. split; [reflexivity|]. simpl. rewrite <- app_assoc. simpl.
    split; [reflexivity|]. right. split; [done|]. split.
    + destruct Hclosing as [-> | [-> | ->]]; set_solver.
    + exists e, closing. auto.
  - match goal with
    | |- context [on_unhandled d e ?q] =>
        destruct (on_unhandled_run d e q Hget Hclose) as (w' & closing & -> & Hclosing)
    end.
    simpl. do 3 eexists. split; [reflexivity|]. simpl. rewrite <- app_assoc. simpl.
    split; [reflexivity|]. right. split; [done|]. split.
    + destruct Hclosing as [-> | [-> | ->]]; set_solver.
    + exists e, closing. auto.
Qed.

(** A process whose database cannot be opened at all. *)
Definition no_database : Deps unit :=
  {| initDB := throw OtherError; getDB := throw OtherError; closeDB := ret tt;
     seedInitialGenericUsers := ret tt;
     seedInitialRestaurantPreferences := ret tt;
     seedInitialMoviePreferences := ret tt;
     seedInitialTvShowPreferences := ret tt;
     runMainCLI := ret tt |}.

Lemma program_exit_status_witness :
  exists p',
    program no_database {| world := tt; console := [] |} = (Exited 1, p')
    /\ console p' = [LogStarting; LogUnhandledError OtherError].
Proof.
  destruct (program_exit_status no_database {| world := tt; console := [] |})
    as (code & p' & new & Hrun & _).
  { repeat split; intros w; do 2 eexists; (split; [reflexivity|]); eauto. }
  exists p'. vm_compute in Hrun. injection Hrun as <- <-. by split.
Defined.

End ProgramFacts.

(** ** The movie CLI: ratings, interactions, presentations and search *)
Module MovieSessionFacts.
Import TmdbService MovieCli MovieCliFacts.

(** *** Histories whose new events all satisfy a property *)
Section Appends.
Context {DB : Type}.
Variable ok_event : Event -> Prop.

Definition appends {A} (m : CliM DB A) : Prop :=
  forall st, exists more,
    trace (snd (m st)) = trace st ++ more /\ Forall ok_event more.

Lemma appends_silent {A} (m : CliM DB A) : silent m -> appends m.
Proof.
  intros Hm st. exists []. destruct (Hm st) as [Ht _]. by rewrite app_nil_r.
Qed.

Lemma appends_bind {A B} (m : CliM DB A) (k : A -> CliM DB B) :
  appends m -> (forall a, appends (k a)) -> appends (bind m k).
Proof.
  intros Hm Hk st. unfold bind. destruct (Hm st) as (more & Ht & Hp).
  destruct (m st) as [[a| | |] st']; simpl in *; eauto.
  destruct (Hk a st') as (more' & Ht' & Hp').
  exists (more ++ more'). split.
  - by rewrite Ht', Ht, app_assoc.
  - by apply Forall_app.
Qed.

Lemma appends_iterate {A} (body : CliM DB (option A)) n :
  appends body -> appends (iterate n body).
Proof.
  intros Hb. induction n as [|n IH]; intros st; simpl.
  { exists []. by rewrite app_nil_r. }
  destruct (Hb st) as (more & Ht & Hp).
  destruct (body st) as [[[a|]| | |] st']; simpl in *; eauto.
  destruct (decide _); simpl; eauto.
  destruct (IH st') as (more' & Ht' & Hp').
  exists (more ++ more'). split.
  - by rewrite Ht', Ht, app_assoc.
  - by apply Forall_app.
Qed.

Lemma appends_while_true {A} (body : CliM DB (option A)) :
  appends body -> appends (while_true body).
Proof. intros Hb st. by apply appends_iterate. Qed.

Lemma appends_note e : ok_event e -> appends (note e : CliM DB unit).
Proof. intros He st. exists [e]. split; [done|]. by constructor. Qed.

Lemma appends_exclude i : ok_event (Excluded i) -> appends (exclude i : CliM DB unit).
Proof. intros He st. exists [Excluded i]. split; [done|]. by constructor. Qed.

Lemma appends_rate (deps : Collaborators DB) u m score :
  ok_event (Rated (tmdb_id m) score) -> appends (rate deps u m score).
Proof.
  intros He. unfold rate. apply appends_bind; [apply appends_silent, silent_ext|].
  intros _. by apply appends_note.
Qed.
End Appends.

(** A stored score that is one of the five stars. *)
Definition score_in_range (e : Event) : Prop :=
  match e with
  | Rated _ score => 1 <= score <= 5
  | _ => True
  end.

Ltac appending_with tac :=
  repeat first
    [ tac
    | apply appends_rate; simpl; lia
    | apply appends_exclude; exact I
    | apply appends_note; exact I
    | apply appends_while_true
    | apply appends_silent; silence; fail
    | apply appends_bind; [|intros]
    | progress cbv zeta
    | match goal with
      | |- appends _ (if ?b then _ else _) => destruct b eqn:?
      | |- appends _ (match ?x with _ => _ end) => destruct x eqn:?
      end ].

Section Scores.
Context {DB : Type}.
Variable deps : Collaborators DB.
Variable env : Env.
Variable net : Net.
Variable parseFloat : string -> option Q.

Local Abbreviation scored := (@appends DB score_in_range).

Lemma scored_viewAndInteractWithMovieDetails m u :
  scored (viewAndInteractWithMovieDetails deps env net m u).
Proof.
  unfold viewAndInteractWithMovieDetails.
  apply appends_bind; [apply appends_silent; silence|]. intros ?.
  apply appends_bind; [apply appends_silent; silence|]. intros ?.
  apply appends_bind;
    [apply appends_silent; unfold displayMovieSummary; silence|].
  intros ?. appending_with fail.
Qed.

Lemma scored_interactionLoop u m : scored (interactionLoop deps env net u m).
Proof.
  unfold interactionLoop.
  appending_with ltac:(apply scored_viewAndInteractWithMovieDetails).
Qed.

Lemma scored_present_queue u queue : forall shown,
  scored (present_queue deps env net u queue shown).
Proof.
  induction queue as [|movie queue IH]; intros shown; simpl.
  { apply appends_silent, silent_ret. }
  destruct ((id movie =? 0) || (tmdb_id movie =? 0)).
  { apply appends_bind; [apply appends_silent, silent_print | intros; apply IH]. }
  apply appends_bind; [apply appends_silent, silent_gets|]. intros excluded.
  destruct (excluded || bool_decide (tmdb_id movie ∈ shown)); [apply IH|].
  apply appends_bind; [apply appends_silent, silent_displayMovieSummary|]. intros ?.
  apply appends_bind; [by apply appends_note|]. intros ?.
  apply appends_bind; [apply scored_interactionLoop|]. intros r.
  destruct r; try apply IH.
  apply appends_silent. silence.
Qed.

Lemma scored_recommendOneByOne u : scored (recommendOneByOne deps env net u).
Proof.
  unfold recommendOneByOne.
  apply appends_bind; [apply appends_silent, silent_print|]. intros ?.
  apply appends_bind; [apply appends_silent, silent_gets|]. intros copy.
  apply appends_bind; [apply appends_silent, silent_ext|]. intros recs.
  unfold presentMovieRecommendationsOneByOne. destruct recs as [|m recs].
  { apply appends_silent. silence. }
  apply appends_bind; [apply appends_silent, silent_print|]. intros ?.
  apply appends_bind; [apply scored_present_queue|]. intros finished.
  apply appends_silent. destruct finished; silence.
Qed.

Lemma scored_rateAMovie u : scored (rateAMovie deps env net u).
Proof.
  unfold rateAMovie.
  apply appends_bind; [apply appends_silent, silent_searchAndSelectMovie|].
  intros [found|]; [|apply appends_silent, silent_ret].
  apply appends_bind; [apply appends_silent, silent_service|].
  intros [details|]; [|apply appends_silent, silent_ret].
  apply appends_bind; [apply appends_silent, silent_ext|].
  intros [movie|]; [|apply appends_silent, silent_ret].
  apply appends_bind; [apply appends_silent, silent_displayMovieSummary|]. intros ?.
  apply appends_bind; [apply appends_silent, silent_ask|]. intros ratingStr.
  destruct (parseInt (trim ratingStr)) as [rating|]; [|apply appends_silent, silent_ret].
  destruct ((1 <=? rating) && (rating <=? 5)) eqn:Hrange;
    [|apply appends_silent, silent_ret].
  apply andb_true_iff in Hrange as [Hlow Hhigh].
  apply appends_bind; [apply appends_rate; simpl; lia|]. intros ?.
  apply appends_bind; [apply appends_silent, silent_print|]. intros ?.
  by apply appends_exclude.
Qed.

Lemma scored_searchAndView u : scored (searchAndView deps env net u).
Proof.
  unfold searchAndView.
  apply appends_bind; [apply appends_silent, silent_searchAndSelectMovie|].
  intros [found|]; [|apply appends_silent, silent_ret].
  apply appends_bind; [apply appends_silent, silent_service|].
  intros [details|]; [|apply appends_silent, silent_ret].
  apply appends_bind; [apply appends_silent, silent_ext|].
  intros [movie|]; [|apply appends_silent, silent_ret].
  apply appends_bind; [apply scored_viewAndInteractWithMovieDetails|].
  intros r. destruct r; first [by apply appends_exclude | apply appends_silent, silent_ret].
Qed.

Lemma scored_menu u : scored (menu deps env net parseFloat u).
Proof.
  unfold menu.
  apply appends_bind; [apply appends_silent, silent_print|]. intros ?.
  apply appends_bind; [apply appends_silent, silent_ask|]. intros answer. cbv zeta.
  destruct (String.eqb (trim answer) "1").
  { apply appends_bind; [apply scored_recommendOneByOne|]. intros ?.
    apply appends_silent, silent_ret. }
  destruct (String.eqb (trim answer) "2").
  { apply appends_bind; [apply scored_rateAMovie|]. intros ?.
    apply appends_silent, silent_ret. }
  destruct (String.eqb (trim answer) "3").
  { apply appends_bind; [apply scored_searchAndView|]. intros ?.
    apply appends_silent, silent_ret. }
  destruct (String.eqb (trim answer) "4").
  { apply appends_bind; [apply appends_silent, silent_manageMoviePreferences|]. intros ?.
    apply appends_silent, silent_ret. }
  destruct (String.eqb (trim answer) "0"); [apply appends_silent, silent_ret|].
  apply appends_silent. silence.
Qed.

Lemma scored_runMovieCLI u : scored (runMovieCLI deps env net parseFloat u).
Proof.
  intros st. unfold runMovieCLI. rewrite bind_assoc.
  apply appends_bind; [|intros; apply appends_while_true, scored_menu].
  intros st0. exists []. rewrite app_nil_r. split; [|constructor].
  by destruct (seed_phase deps u st0) as [Ht _].
Qed.
End Scores.

(** X17.  Every rating a movie session stores is from 1 to 5: a like
    stores 5, a dislike 1, and a typed rating is stored only when it lies in
    that range, whatever the user types and whatever the collaborators
    answer. *)
Theorem session_stores_scores_from_1_to_5 {DB} (deps : Collaborators DB) env net
    parseFloat (u : User) (st : St DB) :
  exists new,
    trace (snd (runMovieCLI deps env net parseFloat u st)) = trace st ++ new
    /\ forall tmdb score, Rated tmdb score ∈ new -> 1 <= score <= 5.
Proof.
  destruct (scored_runMovieCLI deps env net parseFloat u st) as (new & Ht & Hall).
  exists new. split; [exact Ht|]. intros tmdb score Hin.
  rewrite Forall_forall in Hall. exact (Hall _ Hin).
Qed.

(** *** What one interaction leaves behind *)
Section Interaction.
Context {DB : Type}.
Variable deps : Collaborators DB.
Variable env : Env.
Variable net : Net.
Variable m : Movie.
Variable u : User.
(** The history and the exclusion set when the interaction starts. *)
Variable t0 : list Event.
Variable e0 : gset Z.

Local Abbreviation State := (St DB).
Local Abbreviation excl := (@sessionPersistentExcludeTmdbIds DB).

Definition untouched (st : State) : Prop := trace st = t0 /\ excl st = e0.

Definition rated_with (score : Z) (st : State) : Prop :=
  trace st = t0 ++ [Rated (tmdb_id m) score] /\ excl st = e0.

Definition excluded_with (score : Z) (st : State) : Prop :=
  trace st = t0 ++ [Rated (tmdb_id m) score; Excluded (tmdb_id m)]
  /\ excl st = {[tmdb_id m]} ∪ e0.

Definition viewed (r : Interaction) : State -> Prop :=
  match r with
  | liked => rated_with 5
  | disliked => rated_with 1
  | skipped | quit => untouched
  end.

Definition settled (r : Interaction) : State -> Prop :=
  match r with
  | liked => excluded_with 5
  | disliked => excluded_with 1
  | skipped | quit => untouched
  end.

Lemma stable_untouched : stable untouched.
Proof. intros st st' Ht He [H1 H2]. split; congruence. Qed.

Lemma stable_rated_with score : stable (rated_with score).
Proof. intros st st' Ht He [H1 H2]. split; congruence. Qed.

Lemma stable_excluded_with score : stable (excluded_with score).
Proof. intros st st' Ht He [H1 H2]. split; congruence. Qed.

Lemma triple_quiet {A} (c : CliM DB A) :
  silent c -> triple untouched untouched c (fun _ => untouched).
Proof. intros Hc. apply triple_silent; auto using stable_untouched. Qed.

Lemma triple_printed (P : State -> Prop) o :
  stable P -> triple untouched P (print o) (fun _ => P).
Proof. intros HP st H. simpl. by apply (HP st). Qed.

Lemma triple_return {A} (P : State -> Prop) (Q : A -> State -> Prop) a :
  (forall st, P st -> Q a st) -> triple untouched P (ret a) Q.
Proof. intros H st HP. by apply H. Qed.

Lemma triple_rated score :
  triple untouched untouched (rate deps u m score) (fun _ => rated_with score).
Proof.
  unfold rate. eapply triple_bind; [apply triple_quiet, silent_ext|].
  intros ? st [Ht He]. split; simpl; [by rewrite Ht | exact He].
Qed.

Lemma triple_excluded score :
  triple untouched (rated_with score) (exclude (tmdb_id m))
    (fun _ => excluded_with score).
Proof.
  intros st [Ht He]. split; simpl.
  - by rewrite Ht, <- app_assoc.
  - by rewrite He.
Qed.

Lemma triple_viewed :
  triple untouched untouched (viewAndInteractWithMovieDetails deps env net m u) viewed.
Proof.
  unfold viewAndInteractWithMovieDetails.
  eapply triple_bind; [apply triple_quiet; silence|]. intros ?; cbv beta.
  eapply triple_bind; [apply triple_quiet; silence|]. intros details.
  eapply triple_bind; [apply triple_quiet; unfold displayMovieSummary; silence|].
  intros ?; cbv beta. apply triple_while_true; [done|].
  eapply triple_bind; [apply triple_quiet, silent_ask|]. intros answer. simpl.
  destruct (String.eqb (toLowerCase answer) "l").
  { eapply triple_bind; [apply triple_rated|]. intros ?; cbv beta.
    eapply triple_bind; [apply triple_printed, stable_rated_with|]. intros ?; cbv beta.
    by apply triple_return. }
  destruct (String.eqb (toLowerCase answer) "d").
  { eapply triple_bind; [apply triple_rated|]. intros ?; cbv beta.
    eapply triple_bind; [apply triple_printed, stable_rated_with|]. intros ?; cbv beta.
    by apply triple_return. }
  destruct (String.eqb (toLowerCase answer) "n"); [by apply triple_return|].
  destruct (String.eqb (toLowerCase answer) "q"); [by apply triple_return|].
  eapply triple_bind; [apply triple_printed, stable_untouched|]. intros ?; cbv beta.
  by apply triple_return.
Qed.

Lemma triple_settled :
  triple untouched untouched (interactionLoop deps env net u m) settled.
Proof.
  unfold interactionLoop. apply triple_while_true; [done|].
  eapply triple_bind; [apply triple_quiet, silent_ask|]. intros answer. simpl.
  destruct (String.eqb (toLowerCase answer) "l").
  { eapply triple_bind; [apply triple_rated|]. intros ?; cbv beta.
    eapply triple_bind; [apply triple_printed, stable_rated_with|]. intros ?; cbv beta.
    eapply triple_bind; [apply triple_excluded|]. intros ?; cbv beta.
    by apply triple_return. }
  destruct (String.eqb (toLowerCase answer) "d").
  { eapply triple_bind; [apply triple_rated|]. intros ?; cbv beta.
    eapply triple_bind; [apply triple_printed, stable_rated_with|]. intros ?; cbv beta.
    eapply triple_bind; [apply triple_excluded|]. intros ?; cbv beta.
    by apply triple_return. }
  destruct (String.eqb (toLowerCase answer) "v").
  { eapply triple_bind; [apply triple_viewed|]. intros r.
    eapply triple_bind with (Q := fun _ => settled r).
    - destruct r; simpl; first [apply triple_excluded | by apply triple_return].
    - intros ?. by apply triple_return. }
  destruct (String.eqb (toLowerCase answer) "n"); [by apply triple_return|].
  destruct (String.eqb (toLowerCase answer) "q"); [by apply triple_return|].
  eapply triple_bind; [apply triple_printed, stable_untouched|]. intros ?; cbv beta.
  by apply triple_return.
Qed.
End Interaction.

(** X18.  One interaction with a shown movie stores at most one rating.
    When [interactionLoop] answers liked or disliked, the rating 5 or 1 of
    that movie was stored once and its id added to the exclusion set, also
    when the rating was given on the details page; when it answers skipped
    or quit, or does not come back, neither the ratings nor the set have
    changed.  [viewAndInteractWithMovieDetails] stores the rating but leaves
    the set to its caller. *)
Theorem interaction_stores_one_rating {DB} (deps : Collaborators DB) env net
    (u : User) (m : Movie) (st : St DB) :
  match interactionLoop deps env net u m st with
  | (Resolved liked, st') =>
      trace st' = trace st ++ [Rated (tmdb_id m) 5; Excluded (tmdb_id m)]
      /\ sessionPersistentExcludeTmdbIds st'
         = {[tmdb_id m]} ∪ sessionPersistentExcludeTmdbIds st
  | (Resolved disliked, st') =>
      trace st' = trace st ++ [Rated (tmdb_id m) 1; Excluded (tmdb_id m)]
      /\ sessionPersistentExcludeTmdbIds st'
         = {[tmdb_id m]} ∪ sessionPersistentExcludeTmdbIds st
  | (_, st') =>
      trace st' = trace st
      /\ sessionPersistentExcludeTmdbIds st' = sessionPersistentExcludeTmdbIds st
  end
  /\ match viewAndInteractWithMovieDetails deps env net m u st with
     | (Resolved liked, st') =>
         trace st' = trace st ++ [Rated (tmdb_id m) 5]
         /\ sessionPersistentExcludeTmdbIds st' = sessionPersistentExcludeTmdbIds st
     | (Resolved disliked, st') =>
         trace st' = trace st ++ [Rated (tmdb_id m) 1]
         /\ sessionPersistentExcludeTmdbIds st' = sessionPersistentExcludeTmdbIds st
     | (_, st') =>
         trace st' = trace st
         /\ sessionPersistentExcludeTmdbIds st' = sessionPersistentExcludeTmdbIds st
     end.
Proof.
  assert (untouched (trace st) (sessionPersistentExcludeTmdbIds st) st) as H by done.
  split.
  - pose proof (triple_settled deps env net m u _ _ st H) as Hrun.
    by destruct (interactionLoop deps env net u m st) as [[[]| | |] st'].
  - pose proof (triple_viewed deps env net m u _ _ st H) as Hrun.
    by destruct (viewAndInteractWithMovieDetails deps env net m u st) as [[[]| | |] st'].
Qed.

(** *** What a presentation shows *)

(** The test that opens the loop body: both ids are set. *)
Definition presentable (movie : Movie) : bool :=
  negb ((id movie =? 0) || (tmdb_id movie =? 0)).

Lemma presented_ids_app t1 t2 :
  presented_ids (t1 ++ t2) = presented_ids t1 ++ presented_ids t2.
Proof. unfold presented_ids. by rewrite omap_app. Qed.

Lemma presented_ids_split i t :
  i ∈ presented_ids t -> exists t1 t2, t = t1 ++ Presented i :: t2.
Proof.
  unfold presented_ids. rewrite list_elem_of_omap. intros (e & He & Hi).
  destruct e; try discriminate. injection Hi as ->.
  by apply list_elem_of_split.
Qed.

Section Shown.
Context {DB : Type}.
Variable deps : Collaborators DB.
Variable env : Env.
Variable net : Net.
Variable u : User.

Local Abbreviation State := (St DB).

Lemma present_queue_presents queue : forall shown (st : State),
  exists new,
    trace (snd (present_queue deps env net u queue shown st)) = trace st ++ new
    /\ presented_ids new `sublist_of` map tmdb_id (List.filter presentable queue).
Proof.
  induction queue as [|movie queue IH]; intros shown st.
  { exists []. simpl. rewrite app_nil_r. split; [done | constructor]. }
  cbn [present_queue List.filter]. unfold presentable at 1.
  destruct ((id movie =? 0) || (tmdb_id movie =? 0)); cbn [negb].
  { rewrite bind_unfold.
    change (print OutSkippingInvalid st)
      with (Resolved tt, push_out OutSkippingInvalid st).
    cbv beta iota.
    destruct (IH shown (push_out OutSkippingInvalid st)) as (new & Ht & Hsub).
    exists new. split; [exact Ht | exact Hsub]. }
  rewrite bind_unfold.
  change (gets ?f st) with (Resolved (f st), st). cbv beta iota.
  destruct (bool_decide (tmdb_id movie ∈ sessionPersistentExcludeTmdbIds st)
            || bool_decide (tmdb_id movie ∈ shown)).
  { destruct (IH shown st) as (new & Ht & Hsub).
    exists new. split; [exact Ht|]. simpl. by apply sublist_cons. }
  rewrite bind_unfold.
  change (displayMovieSummary movie st) with (Resolved tt, push_out (OutSummary movie) st).
  cbv beta iota. rewrite bind_unfold.
  change (note ?e ?st1) with (Resolved tt, push_trace e st1). cbv beta iota.
  rewrite bind_unfold.
  destruct (unpresenting_interactionLoop deps env net u movie
              (push_trace (Presented (tmdb_id movie)) (push_out (OutSummary movie) st)))
    as (more & Hmore & Hnone).
  destruct (interactionLoop deps env net u movie _) as [[r| | |] st3];
    cbn [snd trace push_trace push_out] in Hmore.
  2-4: exists (Presented (tmdb_id movie) :: more);
       (split; [cbn [snd]; by rewrite Hmore, <- app_assoc|]);
       change (presented_ids (Presented (tmdb_id movie) :: more))
         with (tmdb_id movie :: presented_ids more);
       rewrite Hnone; simpl; apply sublist_skip, sublist_nil_l.
  assert (exists new,
            trace (snd (present_queue deps env net u queue
                          ({[tmdb_id movie]} ∪ shown) st3))
            = trace st ++ new
            /\ presented_ids new
               `sublist_of` (tmdb_id movie :: map tmdb_id (List.filter presentable queue))) as Hnext.
  { destruct (IH ({[tmdb_id movie]} ∪ shown) st3) as (new & Ht & Hsub).
    exists (Presented (tmdb_id movie) :: more ++ new). split.
    - rewrite Ht, Hmore, <- !app_assoc. reflexivity.
    - change (presented_ids (Presented (tmdb_id movie) :: more ++ new))
        with (tmdb_id movie :: presented_ids (more ++ new)).
      rewrite presented_ids_app, Hnone. simpl. by apply sublist_skip. }
  destruct r; try exact Hnext.
  rewrite bind_unfold.
  change (print OutReturningToMenu st3) with (Resolved tt, push_out OutReturningToMenu st3).
  cbv beta iota. exists (Presented (tmdb_id movie) :: more). split.
  - simpl. by rewrite Hmore, <- app_assoc.
  - change (presented_ids (Presented (tmdb_id movie) :: more))
      with (tmdb_id movie :: presented_ids more).
    rewrite Hnone. simpl. apply sublist_skip, sublist_nil_l.
Qed.
End Shown.

Lemma presentation_presents {DB} (deps : Collaborators DB) env net u recs (st : St DB) :
  exists new,
    trace (snd (presentMovieRecommendationsOneByOne deps env net u recs st))
    = trace st ++ new
    /\ presented_ids new `sublist_of` map tmdb_id (List.filter presentable recs).
Proof.
  unfold presentMovieRecommendationsOneByOne. destruct recs as [|m recs].
  { exists []. simpl. rewrite app_nil_r. split; [done | constructor]. }
  rewrite bind_unfold.
  change (print OutHereAreRecommendations st)
    with (Resolved tt, push_out OutHereAreRecommendations st).
  cbv beta iota. rewrite bind_unfold.
  destruct (present_queue_presents deps env net u (m :: recs) ∅
              (push_out OutHereAreRecommendations st)) as (new & Ht & Hsub).
  exists new. split; [|exact Hsub].
  destruct (present_queue deps env net u (m :: recs) ∅ _) as [[[]| | |] st1];
    exact Ht.
Qed.

Lemma presentation_skips_excluded {DB} (deps : Collaborators DB) env net u recs
    (st : St DB) :
  exists new,
    trace (snd (presentMovieRecommendationsOneByOne deps env net u recs st))
    = trace st ++ new
    /\ never_presented_once_excluded (sessionPersistentExcludeTmdbIds st) new.
Proof.
  assert (Inv (sessionPersistentExcludeTmdbIds st) (trace st) ∅ st) as H.
  { exists []. split; [by rewrite app_nil_r | apply good_start]. }
  pose proof (triple_presentMovieRecommendationsOneByOne deps env net
                (sessionPersistentExcludeTmdbIds st) (trace st) u recs st H) as Hm.
  assert (Inv (sessionPersistentExcludeTmdbIds st) (trace st) ∅
            (snd (presentMovieRecommendationsOneByOne deps env net u recs st))) as H'.
  { by destruct (presentMovieRecommendationsOneByOne deps env net u recs st)
      as [[[]| | |] st']. }
  destruct H' as (new & Ht & _ & Hnever & _). eauto.
Qed.

(** X19.  What one presentation shows is drawn from the recommendations
    in their order: the TMDB ids presented form a sub-sequence of the ids of
    the recommendations that have both ids set, without repetition, and none
    of them was in the exclusion set when the presentation began.  Movies
    with an id of 0, repeated movies and excluded movies are passed over. *)
Theorem presentation_follows_the_recommendations {DB} (deps : Collaborators DB) env net
    (u : User) (recs : list Movie) (st : St DB) :
  exists new,
    trace (snd (presentMovieRecommendationsOneByOne deps env net u recs st))
    = trace st ++ new
    /\ presented_ids new `sublist_of` map tmdb_id (List.filter presentable recs)
    /\ NoDup (presented_ids new)
    /\ forall i, i ∈ presented_ids new ->
                 i <> 0 /\ i ∉ sessionPersistentExcludeTmdbIds st.
Proof.
  destruct (presentation_presents deps env net u recs st) as (new & Ht & Hsub).
  destruct (presentation_shows_each_id_once deps env net u recs st) as (new1 & Ht1 & Hnd).
  destruct (presentation_skips_excluded deps env net u recs st) as (new2 & Ht2 & Hnever).
  assert (new1 = new) as -> by (apply (app_inv_head (trace st)); congruence).
  assert (new2 = new) as -> by (apply (app_inv_head (trace st)); congruence).
  exists new. split; [exact Ht|]. split; [exact Hsub|]. split; [exact Hnd|].
  intros i Hi. split.
  - assert (i ∈ map tmdb_id (List.filter presentable recs)) as Hin.
    { by apply (elem_of_sublist (presented_ids new)). }
    apply list_elem_of_In, in_map_iff in Hin as (movie & <- & Hin).
    apply filter_In in Hin as [_ Hok]. unfold presentable in Hok.
    apply negb_true_iff, orb_false_iff in Hok as [_ Hok]. lia.
  - destruct (presented_ids_split i new Hi) as (t1 & t2 & Hsplit).
    specialize (Hnever t1 i t2 Hsplit). set_solver.
Qed.

(** *** Searching *)

Ltac dead :=
  let H := fresh "Hdead" in
  intros H; unfold bind, print, modify, ret, throw in H; simpl in H; discriminate H.

(** X20.  [searchAndSelectMovie] on a blank query answers nothing at once:
    no request is sent and nothing is printed.  When it answers a movie,
    the search for the trimmed query (page 1, no year) gave a page of
    results and the movie is one of the first ten of that page: the index
    the user types is accepted only within the list shown. *)
Theorem searchAndSelectMovie_selects_from_first_ten {DB} env net (st : St DB)
    (line : string) (rest : list string) :
  stdin st = line :: rest ->
  (trim line = "" ->
   searchAndSelectMovie env net st = (Resolved None, set_stdin rest st))
  /\ (forall found st',
        searchAndSelectMovie env net st = (Resolved (Some found), st') ->
        exists p st1,
          service (searchMovies env net (trim line) 1 None) (set_stdin rest st)
          = (Resolved (Some (JPage p)), st1)
          /\ found ∈ take 10 (results p)).
Proof.
  intros Hin. unfold searchAndSelectMovie. split.
  { intros Hblank. rewrite bind_unfold. unfold ask at 1.
    rewrite Hin. cbv beta iota zeta. by rewrite Hblank. }
  intros found st'. rewrite bind_unfold. unfold ask at 1.
  rewrite Hin. cbv beta iota zeta.
  destruct (String.eqb (trim line) ""); [dead|].
  rewrite bind_unfold.
  destruct (service (searchMovies env net (trim line) 1 None) (set_stdin rest st))
    as [[[j|]| | |] st1]; try dead.
  destruct j as [|gs|p|mv|sm msg]; try dead.
  destruct (results p) as [|r0 rs] eqn:Hres; [dead|].
  rewrite bind_unfold.
  change (print ?o st1) with (Resolved tt, push_out o st1). cbv beta iota.
  destruct (take 10 (r0 :: rs)) as [|d0 ds] eqn:Htake; [dead|].
  rewrite bind_unfold.
  match goal with
  | |- context [while_true ?body ?s] =>
      destruct (while_true body s) as [[[i|]| | |] st2]; try dead
  end.
  unfold ret.
  intros Hfound. injection Hfound as Hlook <-.
  exists p, st1. split; [reflexivity|].
  rewrite Hres, Htake. by apply list_elem_of_lookup_2 in Hlook.
Qed.

Definition the_matrix : TMDBMovie :=
  {| tm_id := 603; tm_title := "The Matrix"; tm_overview := "";
     tm_release_date := Some "1999-03-30"; tm_vote_count := 1;
     tm_genre_ids := None; tm_runtime := None; tm_original_language := None;
     tm_tagline := None |}.

Definition search_server : Net :=
  fun _ _ =>
    Responded {| status := 200; statusText := "OK";
                 body := JsonValue (JPage {| page := 1; results := [the_matrix];
                                             total_pages := 1; total_results := 1 |}) |}.

Lemma searchAndSelectMovie_selects_from_first_ten_witness :
  fst (searchAndSelectMovie TmdbServiceFacts.token_env search_server
         (demo_state [" matrix "; "1"]))
  = Resolved (Some the_matrix)
  /\ exists p, the_matrix ∈ take 10 (results p).
Proof.
  split; [vm_compute; reflexivity|].
  destruct (searchAndSelectMovie_selects_from_first_ten TmdbServiceFacts.token_env
              search_server (demo_state [" matrix "; "1"]) " matrix " ["1"] eq_refl)
    as [_ Hsel].
  destruct (searchAndSelectMovie TmdbServiceFacts.token_env search_server
              (demo_state [" matrix "; "1"])) as [r st'] eqn:Hrun.
  assert (r = Resolved (Some the_matrix)) as ->.
  { change r with (fst (r, st')). rewrite <- Hrun. vm_compute. reflexivity. }
  destruct (Hsel the_matrix st' eq_refl) as (p & st1 & _ & Hfound).
  by exists p.
Defined.

(** *** Preferences *)

Lemma service_run {DB A} (c : JsM Svc A) (st : St DB) :
  service c st
  = (fst (c (svc (world st))),
     set_world {| svc := snd (c (svc (world st))); db := db (world st) |} st).
Proof.
  unfold service. rewrite ext_run. unfold zoom.
  by destruct (c (svc (world st))).
Qed.

Ltac tidy :=
  cbn [set_world push_out set_stdin set_prefs world stdin out userMoviePrefs
       sessionPersistentExcludeTmdbIds trace pref_user_id preferred_genres
       preferred_languages release_year_min release_year_max duration_min_minutes
       duration_max_minutes min_imdb_rating preferred_streaming_providers].

(** What the eight answers make of the preferences of user [uid]. *)
Definition answered (parseFloat : string -> option Q) (uid : Z)
    (genresStr langsStr yearMinStr yearMaxStr durMinStr durMaxStr tmdbRatingStr
       providersStr : string) : UserMoviePreferences :=
  {| pref_user_id := uid;
     preferred_genres := optional_list (trim genresStr);
     preferred_languages := optional_list_lower (trim langsStr);
     release_year_min := optional_int (trim yearMinStr);
     release_year_max := optional_int (trim yearMaxStr);
     duration_min_minutes := optional_int (trim durMinStr);
     duration_max_minutes := optional_int (trim durMaxStr);
     min_imdb_rating := optional_float parseFloat (trim tmdbRatingStr);
     preferred_streaming_providers := optional_list (trim providersStr) |}.

(** X21.  [manageMoviePreferences] overwrites every preference field of
    the session's preferences object from the eight lines it reads, keeping
    only the user id: nothing of the earlier preferences survives, a blank
    answer clearing the field.  The years and durations typed are read by
    [parseInt], which is exact up to [Number.MAX_SAFE_INTEGER]: the four
    answers are taken to parse to a safe integer or to [NaN].  The record
    handed to [saveUserMoviePreferences] is the one the session then holds,
    whether or not the save goes through, and neither the exclusion set nor
    the history is touched. *)
Theorem manageMoviePreferences_overwrites_every_field {DB} (deps : Collaborators DB)
    env net parseFloat (st : St DB)
    (l1 l2 l3 l4 l5 l6 l7 l8 : string) (rest : list string) :
  stdin st = l1 :: l2 :: l3 :: l4 :: l5 :: l6 :: l7 :: l8 :: rest ->
  safe_integer (parseInt (trim l3)) -> safe_integer (parseInt (trim l4)) ->
  safe_integer (parseInt (trim l5)) -> safe_integer (parseInt (trim l6)) ->
  exists r st' w1 w2,
    manageMoviePreferences deps env net parseFloat st = (r, st')
    /\ userMoviePrefs st'
       = answered parseFloat (pref_user_id (userMoviePrefs st)) l1 l2 l3 l4 l5 l6 l7 l8
    /\ stdin st' = rest
    /\ trace st' = trace st
    /\ sessionPersistentExcludeTmdbIds st' = sessionPersistentExcludeTmdbIds st
    /\ saveUserMoviePreferences deps (userMoviePrefs st') w1 = (r, w2)
    /\ world st' = w2.
Proof.
  intros Hin _ _ _ _. unfold manageMoviePreferences.
  rewrite bind_unfold.
  change (print OutManagePreferences st) with (Resolved tt, push_out OutManagePreferences st).
  cbv beta iota. rewrite bind_unfold, service_run.
  destruct (TmdbServiceFacts.getGenreList_run env net KMovie
              (svc (world (push_out OutManagePreferences st))))
    as (gs & s1 & Hgenres & _).
  unfold getMovieGenreList. rewrite Hgenres. cbn [fst snd].
  destruct st as [w inp o prefs ex tr]. simpl in Hin. subst inp.
  tidy. rewrite bind_unfold.
  assert (forall (s : St DB),
            exists o',
              (match gs with
               | [] => ret tt
               | _ :: _ =>
                   print (OutGenreHint (map genre_name (take 10 gs))
                            (bool_decide (10 < length gs)%nat))
               end) s
              = (Resolved tt,
                 {| world := world s; stdin := stdin s; out := o';
                    userMoviePrefs := userMoviePrefs s;
                    sessionPersistentExcludeTmdbIds := sessionPersistentExcludeTmdbIds s;
                    trace := trace s |})) as Hhint.
  { intros s. destruct gs; [exists (out s); by destruct s | eexists; reflexivity]. }
  match goal with
  | |- context [match gs with [] => ret tt | _ :: _ => ?p end ?s] =>
      destruct (Hhint s) as [o' ->]
  end.
  clear Hhint. cbv beta iota. tidy.
  do 8 (rewrite bind_unfold; unfold ask at 1; tidy; cbv beta iota; tidy;
        rewrite bind_unfold;
        change (assign ?f ?s) with (Resolved tt, set_prefs (f (userMoviePrefs s)) s);
        cbv beta iota; tidy).
  rewrite bind_unfold. change (gets ?f ?s) with (Resolved (f s), s).
  cbv beta iota. tidy. rewrite bind_unfold, ext_run. tidy.
  fold (answered parseFloat (pref_user_id prefs) l1 l2 l3 l4 l5 l6 l7 l8).
  destruct (saveUserMoviePreferences deps
              (answered parseFloat (pref_user_id prefs) l1 l2 l3 l4 l5 l6 l7 l8)
              {| svc := s1; db := db w |}) as [r w2] eqn:Hsave.
  cbn [fst snd].
  destruct r as [[]| | |]; do 4 eexists;
    (split; [reflexivity|]); tidy; repeat split; exact Hsave.
Qed.

Lemma manageMoviePreferences_overwrites_every_field_witness :
  exists r st',
    manageMoviePreferences (demo_deps stubborn) TmdbServiceFacts.token_env
      TmdbServiceFacts.offline no_float
      (demo_state ["Drama, Comedy"; ""; "1990"; ""; ""; "x"; ""; ""; "0"])
    = (r, st')
    /\ userMoviePrefs st'
       = answered no_float 0 "Drama, Comedy" "" "1990" "" "" "x" "" ""
    /\ stdin st' = ["0"].
Proof.
  destruct (manageMoviePreferences_overwrites_every_field (demo_deps stubborn)
              TmdbServiceFacts.token_env TmdbServiceFacts.offline no_float
              (demo_state ["Drama, Comedy"; ""; "1990"; ""; ""; "x"; ""; ""; "0"])
              "Drama, Comedy" "" "1990" "" "" "x" "" "" ["0"] eq_refl)
    as (r & st' & w1 & w2 & Hrun & Hprefs & Hstdin & _);
    try (vm_compute; first [exact I | discriminate]).
  exists r, st'. split; [exact Hrun|]. split; [exact Hprefs | exact Hstdin].
Defined.

(** *** Every loop waits for the user *)
Section Progress.
Context {DB : Type}.

Local Abbreviation State := (St DB).

(** [m] never spins, and reads lines without ever putting one back. *)
Definition tame {A} (m : CliM DB A) : Prop :=
  forall st,
    fst (m st) <> Diverged
    /\ (length (stdin (snd (m st))) <= length (stdin st))%nat.

(** [m] is tame and has read at least one line whenever it resolves. *)
Definition reads {A} (m : CliM DB A) : Prop :=
  tame m
  /\ forall st a st', m st = (Resolved a, st') ->
                      (length (stdin st') < length (stdin st))%nat.

Lemma tame_ret {A} (a : A) : tame (ret a : CliM DB A).
Proof. intros st. simpl. split; [done | lia]. Qed.

Lemma tame_throw {A} e : tame (throw e : CliM DB A).
Proof. intros st. simpl. split; [done | lia]. Qed.

Lemma tame_gets {A} (f : State -> A) : tame (gets f).
Proof. intros st. simpl. split; [done | lia]. Qed.

Lemma tame_modify (f : State -> State) :
  (forall st, stdin (f st) = stdin st) -> tame (modify f).
Proof. intros Hf st. simpl. rewrite Hf. split; [done | lia]. Qed.

Lemma tame_print o : tame (print o : CliM DB unit).
Proof. by apply tame_modify. Qed.

Lemma tame_note e : tame (note e : CliM DB unit).
Proof. by apply tame_modify. Qed.

Lemma tame_assign f : tame (assign f : CliM DB unit).
Proof. by apply tame_modify. Qed.

Lemma tame_ext {A} (m : JsM (World DB) A) :
  (forall w, fst (m w) <> Diverged) -> tame (ext m).
Proof.
  intros Hm st. rewrite ext_run. simpl. split; [apply Hm | lia].
Qed.

Lemma tame_service {A} (m : JsM Svc A) :
  (forall s, exists r s', m s = (Resolved r, s')) -> tame (service m : CliM DB A).
Proof.
  intros Hm st. rewrite service_run. simpl.
  destruct (Hm (svc (world st))) as (r & s' & ->). split; [done | lia].
Qed.

Lemma tame_bind {A B} (m : CliM DB A) (k : A -> CliM DB B) :
  tame m -> (forall a, tame (k a)) -> tame (bind m k).
Proof.
  intros Hm Hk st. unfold bind. destruct (Hm st) as [Hd Hl].
  destruct (m st) as [[a| | |] st']; simpl in *; try done.
  destruct (Hk a st') as [Hd' Hl']. split; [done | lia].
Qed.

Lemma tame_ask : tame (ask : CliM DB string).
Proof.
  intros st. unfold ask. destruct (stdin st) as [|line rest] eqn:Hin; simpl.
  - rewrite Hin. split; [done | simpl; lia].
  - split; [done | lia].
Qed.

Lemma reads_ask : reads (ask : CliM DB string).
Proof.
  split; [apply tame_ask|]. intros st a st'. unfold ask.
  destruct (stdin st) as [|line rest]; [done|]. intros [= _ <-]. simpl. lia.
Qed.

Lemma reads_bind_l {A B} (m : CliM DB A) (k : A -> CliM DB B) :
  reads m -> (forall a, tame (k a)) -> reads (bind m k).
Proof.
  intros [Hm Hread] Hk. split; [by apply tame_bind|].
  intros st b st'. unfold bind.
  destruct (m st) as [[a| | |] st1] eqn:Hrun; try done.
  specialize (Hread st a st1 Hrun). intros Hk'.
  destruct (Hk a st1) as [_ Hl]. rewrite Hk' in Hl. simpl in Hl. lia.
Qed.

Lemma reads_bind_r {A B} (m : CliM DB A) (k : A -> CliM DB B) :
  tame m -> (forall a, reads (k a)) -> reads (bind m k).
Proof.
  intros Hm Hk. split; [apply tame_bind; [done | intros a; apply Hk]|].
  intros st b st'. unfold bind. destruct (Hm st) as [_ Hl].
  destruct (m st) as [[a| | |] st1] eqn:Hrun; try done.
  intros Hk'. destruct (Hk a) as [_ Hread].
  specialize (Hread st1 b st' Hk'). simpl in Hl. lia.
Qed.

Lemma tame_iterate {A} (body : CliM DB (option A)) :
  reads body ->
  forall n st, (length (stdin st) < n)%nat ->
    fst (iterate n body st) <> Diverged
    /\ (length (stdin (snd (iterate n body st))) <= length (stdin st))%nat.
Proof.
  intros [Hb Hread]. induction n as [|n IH]; intros st Hn; [lia|].
  rewrite iterate_S. destruct (Hb st) as [Hd Hl].
  destruct (body st) as [[[a|]| | |] st'] eqn:Hrun; simpl in *; try done.
  specialize (Hread st None st' Hrun).
  destruct (decide _); [|lia].
  destruct (IH st') as [Hd' Hl']; [lia|]. split; [done | lia].
Qed.

Lemma tame_while_true {A} (body : CliM DB (option A)) :
  reads body -> tame (while_true body).
Proof. intros Hb st. apply tame_iterate; [done | lia]. Qed.

Lemma reads_while_true {A} (body : CliM DB (option A)) :
  reads body -> reads (while_true body).
Proof.
  intros Hb. split; [by apply tame_while_true|].
  intros st a st'. unfold while_true. destruct Hb as [Hb Hread].
  assert (forall n st0,
            iterate n body st0 = (Resolved a, st') ->
            (length (stdin st') < length (stdin st0))%nat) as Hall.
  { induction n as [|n IH]; intros st0; [done|].
    rewrite iterate_S.
    destruct (body st0) as [[[b|]| | |] st1] eqn:Hrun; try done.
    - intros [= <- <-]. by apply (Hread st0 (Some b)).
    - destruct (decide _); [|done]. intros Hrest. specialize (IH st1 Hrest). lia. }
  apply Hall.
Qed.

Lemma tame_map_all {A B} (f : A -> CliM DB B) (xs : list A) :
  (forall x, tame (f x)) -> tame (map_all f xs).
Proof.
  intros Hf. induction xs as [|x xs IH]; simpl; [apply tame_ret|].
  apply tame_bind; [apply Hf|]. intros y.
  apply tame_bind; [apply IH|]. intros ys. apply tame_ret.
Qed.

Lemma tame_for_each {A} (xs : list A) (body : A -> CliM DB unit) :
  (forall x, tame (body x)) -> tame (for_each xs body).
Proof.
  intros Hf. induction xs as [|x xs IH]; simpl; [apply tame_ret|].
  apply tame_bind; [apply Hf | intros; apply IH].
Qed.

Variable deps : Collaborators DB.
Variable env : Env.
Variable net : Net.
Variable parseFloat : string -> option Q.

(** The collaborators come back or wait, but do not spin. *)
Definition collaborators_settle : Prop :=
  (forall j w, fst (saveMovie deps j w) <> Diverged)
  /\ (forall a b c w, fst (saveUserMovieRating deps a b c w) <> Diverged)
  /\ (forall a w, fst (getRatedMovieIdsByUser deps a w) <> Diverged)
  /\ (forall a w, fst (getUserMoviePreferences deps a w) <> Diverged)
  /\ (forall a w, fst (saveUserMoviePreferences deps a w) <> Diverged)
  /\ (forall a w, fst (getMovieByOurId deps a w) <> Diverged)
  /\ (forall a b w, fst (getMovieRecommendationsForUser deps a b w) <> Diverged).

Hypothesis Hdeps : collaborators_settle.

Lemma tame_getMovieDetails i :
  tame (service (getMovieDetails env net i) : CliM DB (option Json)).
Proof.
  apply tame_service. intros s.
  destruct (TmdbServiceFacts.run_call_resolves env net (CallMovieDetails i) s)
    as (r & s' & H & _). eauto.
Qed.

Lemma tame_searchMovies q :
  tame (service (searchMovies env net q 1 None) : CliM DB (option Json)).
Proof.
  apply tame_service. intros s.
  destruct (TmdbServiceFacts.run_call_resolves env net (CallSearchMovies q 1 None) s)
    as (r & s' & H & _). eauto.
Qed.

Lemma tame_getMovieGenreList :
  tame (service (getMovieGenreList env net) : CliM DB (list Genre)).
Proof.
  apply tame_service. intros s.
  destruct (TmdbServiceFacts.getGenreList_run env net KMovie s) as (r & s' & H & _).
  eauto.
Qed.

Lemma tame_rate u m score : tame (rate deps u m score).
Proof.
  unfold rate. apply tame_bind; [|intros; apply tame_note].
  apply tame_ext. intros w. apply Hdeps.
Qed.

Lemma tame_exclude i : tame (exclude i : CliM DB unit).
Proof. unfold exclude. apply tame_bind; [by apply tame_modify | intros; apply tame_note]. Qed.

Ltac taming :=
  repeat first
    [ apply tame_ret | apply tame_throw | apply tame_print | apply tame_ask
    | apply tame_gets | apply tame_assign | apply tame_rate | apply tame_exclude
    | apply tame_getMovieDetails | apply tame_searchMovies
    | apply tame_getMovieGenreList
    | apply tame_ext; intros; apply Hdeps
    | apply tame_bind; [|intros]
    | progress cbv zeta
    | match goal with
      | |- tame (if ?b then _ else _) => destruct b
      | |- tame (match ?x with _ => _ end) => destruct x
      end ].

Lemma tame_viewAndInteractWithMovieDetails m u :
  tame (viewAndInteractWithMovieDetails deps env net m u).
Proof.
  unfold viewAndInteractWithMovieDetails.
  apply tame_bind; [apply tame_print|]. intros ?.
  apply tame_bind; [apply tame_getMovieDetails|]. intros details.
  apply tame_bind; [unfold displayMovieSummary; taming|]. intros ?.
  apply tame_while_true. apply reads_bind_l; [apply reads_ask|]. intros answer.
  taming.
Qed.

Lemma tame_interactionLoop u m : tame (interactionLoop deps env net u m).
Proof.
  unfold interactionLoop.
  apply tame_while_true. apply reads_bind_l; [apply reads_ask|]. intros answer.
  cbv zeta.
  destruct (String.eqb (toLowerCase answer) "l"); [taming|].
  destruct (String.eqb (toLowerCase answer) "d"); [taming|].
  destruct (String.eqb (toLowerCase answer) "v"); [|taming].
  apply tame_bind; [apply tame_viewAndInteractWithMovieDetails|]. intros r.
  taming.
Qed.

Lemma tame_present_queue u queue : forall shown,
  tame (present_queue deps env net u queue shown).
Proof.
  induction queue as [|movie queue IH]; intros shown; simpl; [apply tame_ret|].
  destruct ((id movie =? 0) || (tmdb_id movie =? 0)).
  { apply tame_bind; [apply tame_print | intros; apply IH]. }
  apply tame_bind; [apply tame_gets|]. intros excluded.
  destruct (excluded || bool_decide (tmdb_id movie ∈ shown)); [apply IH|].
  apply tame_bind; [apply tame_print|]. intros ?.
  apply tame_bind; [apply tame_note|]. intros ?.
  apply tame_bind; [apply tame_interactionLoop|]. intros r.
  destruct r; try apply IH. taming.
Qed.

Lemma tame_searchAndSelectMovie : tame (searchAndSelectMovie (DB:=DB) env net).
Proof.
  unfold searchAndSelectMovie.
  apply tame_bind; [apply tame_ask|]. intros answer. cbv zeta.
  destruct (String.eqb (trim answer) ""); [apply tame_ret|].
  apply tame_bind; [apply tame_searchMovies|].
  intros [[|gs|p|mv|sm msg]|]; try apply tame_throw; [|taming].
  destruct (results p) as [|r0 rs]; [taming|].
  apply tame_bind; [apply tame_print|]. intros ?.
  destruct (take 10 (r0 :: rs)) as [|d0 ds]; [taming|].
  apply tame_bind; [|intros [i|]; apply tame_ret].
  apply tame_while_true. apply reads_bind_l; [apply reads_ask|]. intros choice.
  taming.
Qed.

Lemma tame_menu u : reads (menu deps env net parseFloat u).
Proof.
  unfold menu. apply reads_bind_r; [apply tame_print|]. intros ?.
  apply reads_bind_l; [apply reads_ask|]. intros answer. cbv zeta.
  destruct (String.eqb (trim answer) "1").
  { apply tame_bind; [|intros; apply tame_ret]. unfold recommendOneByOne.
    apply tame_bind; [apply tame_print|]. intros ?.
    apply tame_bind; [apply tame_gets|]. intros copy.
    apply tame_bind; [apply tame_ext; intros; apply Hdeps|]. intros recs.
    unfold presentMovieRecommendationsOneByOne. destruct recs as [|m recs]; [taming|].
    apply tame_bind; [apply tame_print|]. intros ?.
    apply tame_bind; [apply tame_present_queue|]. intros finished. taming. }
  destruct (String.eqb (trim answer) "2").
  { apply tame_bind; [|intros; apply tame_ret]. unfold rateAMovie.
    apply tame_bind; [apply tame_searchAndSelectMovie|]. intros found.
    unfold displayMovieSummary. taming. }
  destruct (String.eqb (trim answer) "3").
  { apply tame_bind; [|intros; apply tame_ret]. unfold searchAndView.
    apply tame_bind; [apply tame_searchAndSelectMovie|].
    intros [found|]; [|apply tame_ret].
    apply tame_bind; [apply tame_getMovieDetails|].
    intros [details|]; [|apply tame_ret].
    apply tame_bind; [apply tame_ext; intros; apply Hdeps|].
    intros [movie|]; [|apply tame_ret].
    apply tame_bind; [apply tame_viewAndInteractWithMovieDetails|]. intros r.
    taming. }
  destruct (String.eqb (trim answer) "4").
  { apply tame_bind; [|intros; apply tame_ret]. unfold manageMoviePreferences. taming. }
  taming.
Qed.

Lemma tame_runMovieCLI u : tame (runMovieCLI deps env net parseFloat u).
Proof.
  unfold runMovieCLI.
  apply tame_bind.
  { unfold loadPreferences. taming; by apply tame_modify. }
  intros ?. apply tame_bind.
  { unfold seedExclusions, ratedMoviesInDb.
    apply tame_bind; [by apply tame_modify|]. intros ?.
    apply tame_bind.
    - apply tame_bind; [apply tame_ext; intros; apply Hdeps|]. intros ids.
      apply tame_bind; [|intros; apply tame_ret].
      apply tame_map_all. intros i. apply tame_ext. intros. apply Hdeps.
    - intros rated. apply tame_for_each. intros m. by apply tame_modify. }
  intros ?. apply tame_while_true, tame_menu.
Qed.
End Progress.

(** X22.  No loop of the movie CLI spins: every round of the menu loop, of
    the two interaction loops and of the selection loop first waits for a
    line from the user.  So, when the collaborators themselves come back or
    wait, a session either ends, fails with a collaborator, or is waiting
    for input, and it never un-reads a line. *)
Theorem session_never_spins {DB} (deps : Collaborators DB) env net parseFloat
    (u : User) (st : St DB) :
  collaborators_settle deps ->
  exists r st',
    runMovieCLI deps env net parseFloat u st = (r, st')
    /\ (r = Resolved tt \/ r = Pending \/ exists e, r = Rejected e)
    /\ (length (stdin st') <= length (stdin st))%nat.
Proof.
  intros Hdeps.
  destruct (tame_runMovieCLI deps env net parseFloat Hdeps u st) as [Hd Hl].
  destruct (runMovieCLI deps env net parseFloat u st) as [r st']. simpl in *.
  exists r, st'. split; [done|]. split; [|done].
  destruct r as [[]|e| |]; eauto. done.
Qed.

Lemma session_never_spins_witness :
  exists st',
    runMovieCLI (demo_deps stubborn) TmdbServiceFacts.token_env TmdbServiceFacts.offline
      no_float alice (demo_state ["1"; "x"; "v"; "y"]) = (Pending, st')
    /\ (length (stdin st') <= 4)%nat.
Proof.
  destruct (session_never_spins (demo_deps stubborn) TmdbServiceFacts.token_env
              TmdbServiceFacts.offline no_float alice
              (demo_state ["1"; "x"; "v"; "y"]))
    as (r & st' & Hrun & _ & Hlen).
  { repeat split; intros; discriminate. }
  exists st'. split; [|exact Hlen].
  rewrite Hrun. f_equal.
  change r with (fst (r, st')). rewrite <- Hrun. vm_compute. reflexivity.
Defined.

(** *** A presentation that runs to its end *)
Section Complete.
Context {DB : Type}.
Variable deps : Collaborators DB.
Variable env : Env.
Variable net : Net.
Variable u : User.
(** The exclusion set when the presentation begins. *)
Variable e0 : gset Z.

Local Abbreviation State := (St DB).
Local Abbreviation excl := (@sessionPersistentExcludeTmdbIds DB).

Lemma interactionLoop_adds_own_id movie (st st' : State) r :
  interactionLoop deps env net u movie st = (Resolved r, st') ->
  (excl st' = excl st \/ excl st' = {[tmdb_id movie]} ∪ excl st)
  /\ exists more, trace st' = trace st ++ more /\ presented_ids more = [].
Proof.
  intros Hrun.
  assert (untouched (trace st) (excl st) st) as H by done.
  pose proof (triple_settled deps env net movie u _ _ st H) as Hpost.
  rewrite Hrun in Hpost.
  destruct r; destruct Hpost as [Ht He]; (split; [by auto|]).
  1-2: eexists; split; [exact Ht | reflexivity].
  1-2: exists []; by rewrite app_nil_r.
Qed.

Lemma present_queue_complete queue : forall shown (st st' : State),
  e0 ⊆ excl st -> excl st ⊆ e0 ∪ shown ->
  present_queue deps env net u queue shown st = (Resolved true, st') ->
  exists new,
    trace st' = trace st ++ new
    /\ forall m, m ∈ queue -> presentable m = true ->
                 tmdb_id m ∉ e0 -> tmdb_id m ∉ shown ->
                 tmdb_id m ∈ presented_ids new.
Proof.
  induction queue as [|movie queue IH]; intros shown st st' Hlow Hup.
  { intros [= <-]. exists []. rewrite app_nil_r. split; [done|].
    intros m Hm. by apply elem_of_nil in Hm. }
  cbn [present_queue].
  destruct ((id movie =? 0) || (tmdb_id movie =? 0)) eqn:Hvalid.
  { rewrite bind_unfold.
    change (print OutSkippingInvalid st)
      with (Resolved tt, push_out OutSkippingInvalid st).
    cbv beta iota. intros Hrun.
    destruct (IH shown (push_out OutSkippingInvalid st) st' Hlow Hup Hrun)
      as (new & Ht & Hall).
    exists new. split; [exact Ht|]. intros m Hm Hok.
    apply elem_of_cons in Hm as [->|Hm]; [|by apply Hall].
    unfold presentable in Hok. by rewrite Hvalid in Hok. }
  rewrite bind_unfold.
  change (gets ?f st) with (Resolved (f st), st). cbv beta iota.
  destruct (bool_decide (tmdb_id movie ∈ excl st)
            || bool_decide (tmdb_id movie ∈ shown)) eqn:Hskip.
  { intros Hrun. destruct (IH shown st st' Hlow Hup Hrun) as (new & Ht & Hall).
    exists new. split; [exact Ht|]. intros m Hm Hok Hnew Hfresh.
    apply elem_of_cons in Hm as [->|Hm]; [|by apply Hall].
    exfalso. apply orb_true_iff in Hskip as [Hin|Hin];
      apply bool_decide_eq_true in Hin; set_solver. }
  rewrite bind_unfold.
  change (displayMovieSummary movie st) with (Resolved tt, push_out (OutSummary movie) st).
  cbv beta iota. rewrite bind_unfold.
  change (note ?e ?st1) with (Resolved tt, push_trace e st1). cbv beta iota.
  rewrite bind_unfold.
  destruct (interactionLoop deps env net u movie
              (push_trace (Presented (tmdb_id movie)) (push_out (OutSummary movie) st)))
    as [[r| | |] st3] eqn:Hloop; try discriminate.
  destruct (interactionLoop_adds_own_id _ _ _ _ Hloop) as [Hex (more & Hmore & Hnone)].
  cbn [trace excl push_trace push_out] in Hex, Hmore.
  assert (present_queue deps env net u queue ({[tmdb_id movie]} ∪ shown) st3
          = (Resolved true, st') ->
          exists new,
            trace st' = trace st ++ new
            /\ forall m, m ∈ movie :: queue -> presentable m = true ->
                         tmdb_id m ∉ e0 -> tmdb_id m ∉ shown ->
                         tmdb_id m ∈ presented_ids new) as Hnext.
  { intros Hrun.
    destruct (IH ({[tmdb_id movie]} ∪ shown) st3 st') as (new & Ht & Hall); auto.
    { destruct Hex as [-> | ->]; set_solver. }
    { destruct Hex as [-> | ->]; set_solver. }
    exists (Presented (tmdb_id movie) :: more ++ new). split.
    { rewrite Ht, Hmore, <- !app_assoc. reflexivity. }
    intros m Hm Hok Hnew Hfresh.
    change (presented_ids (Presented (tmdb_id movie) :: more ++ new))
      with (tmdb_id movie :: presented_ids (more ++ new)).
    rewrite presented_ids_app, Hnone. simpl.
    destruct (decide (tmdb_id m = tmdb_id movie)) as [->|Hne]; [by left|].
    right. apply elem_of_cons in Hm as [->|Hm]; [done|].
    apply Hall; auto. set_solver. }
  destruct r; try exact Hnext.
  rewrite bind_unfold.
  change (print OutReturningToMenu st3) with (Resolved tt, push_out OutReturningToMenu st3).
  cbv beta iota. discriminate.
Qed.
End Complete.

(** X23.  When the loop over the recommendations runs to its end (the user
    never quits and every answer arrives), it has shown exactly the
    candidates: a TMDB id was presented if and only if it was outside the
    exclusion set when the loop began and belongs to a recommendation with
    both ids set.  No such recommendation is lost, whatever was liked or
    disliked on the way. *)
Theorem finished_presentation_shows_every_candidate {DB} (deps : Collaborators DB)
    env net (u : User) (recs : list Movie) (st st' : St DB) :
  present_queue deps env net u recs ∅ st = (Resolved true, st') ->
  exists new,
    trace st' = trace st ++ new
    /\ forall i,
         i ∈ presented_ids new
         <-> ((i ∉ sessionPersistentExcludeTmdbIds st)
              /\ exists m, m ∈ recs /\ presentable m = true /\ tmdb_id m = i).
Proof.
  intros Hrun.
  destruct (present_queue_complete deps env net u (sessionPersistentExcludeTmdbIds st)
              recs ∅ st st') as (new & Ht & Hall); [done | set_solver | done |].
  exists new. split; [exact Ht|]. intros i. split.
  - intros Hi.
    destruct (present_queue_presents deps env net u recs ∅ st) as (new1 & Ht1 & Hsub).
    rewrite Hrun in Ht1. simpl in Ht1.
    assert (new1 = new) as -> by (apply (app_inv_head (trace st)); congruence).
    assert (Inv (sessionPersistentExcludeTmdbIds st) (trace st) ∅ st) as H.
    { exists []. split; [by rewrite app_nil_r | apply good_start]. }
    pose proof (triple_present_queue deps env net (sessionPersistentExcludeTmdbIds st)
                  (trace st) u recs ∅ st H) as Hinv.
    rewrite Hrun in Hinv. destruct Hinv as (new2 & Ht2 & _ & Hnever & _).
    assert (new2 = new) as -> by (apply (app_inv_head (trace st)); congruence).
    split.
    + destruct (presented_ids_split i new Hi) as (t1 & t2 & Hsplit).
      specialize (Hnever t1 i t2 Hsplit). set_solver.
    + assert (i ∈ map tmdb_id (List.filter presentable recs)) as Hin.
      { by apply (elem_of_sublist (presented_ids new)). }
      apply list_elem_of_In, in_map_iff in Hin as (m & <- & Hin).
      apply filter_In in Hin as [Hin Hok]. exists m.
      split; [by apply list_elem_of_In | done].
  - intros [Hex (m & Hm & Hok & <-)]. apply Hall; auto. set_solver.
Qed.

Lemma finished_presentation_shows_every_candidate_witness :
  exists st',
    present_queue (demo_deps stubborn) TmdbServiceFacts.token_env
      TmdbServiceFacts.offline alice [movieA; movieB; movieA; movieC] ∅
      (demo_state ["l"; "n"; "n"])
    = (Resolved true, st')
    /\ exists new, trace st' = new /\ 22 ∈ presented_ids new.
Proof.
  eexists. split; [vm_compute; reflexivity|].
  match goal with
  | |- exists new, trace ?s = new /\ _ =>
      destruct (finished_presentation_shows_every_candidate (demo_deps stubborn)
                  TmdbServiceFacts.token_env TmdbServiceFacts.offline alice
                  [movieA; movieB; movieA; movieC] (demo_state ["l"; "n"; "n"]) s)
        as (new & Ht & Hall); [vm_compute; reflexivity|]
  end.
  exists new. split; [exact Ht|]. apply Hall. split.
  - vm_compute. set_solver.
  - exists movieB. split; [set_solver | by split].
Defined.

End MovieSessionFacts.

(** ** The details page of a TV show *)
Module TvShowCliFacts.
Import MovieCli TvShowCli.

Section Page.
Context {W : Type}.
Variable deps : Collaborators W.

Local Abbreviation State := (St W).

Lemma tv_ext_run {A} (m : JsM W A) (st : State) :
  ext m st
  = (fst (m (world st)),
     {| world := snd (m (world st)); stdin := stdin st; out := out st;
        trace := trace st |}).
Proof. unfold ext, zoom. by destruct (m (world st)). Qed.

(** Steps that leave the history alone and read no line. *)
Definition quiet {A} (m : CliM W A) : Prop :=
  forall st, trace (snd (m st)) = trace st /\ stdin (snd (m st)) = stdin st.

Lemma quiet_print o : quiet (print o : CliM W unit).
Proof. by intros st. Qed.

Lemma quiet_ext {A} (m : JsM W A) : quiet (ext m).
Proof. intros st. by rewrite tv_ext_run. Qed.

Lemma quiet_ret {A} (a : A) : quiet (ret a : CliM W A).
Proof. by intros st. Qed.

Lemma quiet_bind {A B} (m : CliM W A) (k : A -> CliM W B) :
  quiet m -> (forall a, quiet (k a)) -> quiet (bind m k).
Proof.
  intros Hm Hk st. unfold bind. destruct (Hm st) as [Ht Hs].
  destruct (m st) as [[a| | |] st']; simpl in *; auto.
  destruct (Hk a st') as [Ht' Hs']. split; congruence.
Qed.

(** What the action loop that closes the page adds to the history. *)
Definition rating_of (r : Outcome Interaction) (show : TvShow) : list Event :=
  match r with
  | Resolved liked => [Rated (id show) 5]
  | Resolved disliked => [Rated (id show) 1]
  | _ => []
  end.

(** One round of the action loop. *)
Definition action_step (show : TvShow) (body : CliM W (option Interaction)) : Prop :=
  forall st : State,
    match body st with
    | (Resolved (Some r), st') => trace st' = trace st ++ rating_of (Resolved r) show
    | (_, st') => trace st' = trace st
    end.

Lemma action_step_page (u : User) (show : TvShow) :
  action_step show
    (let* answer := ask in
     let action := toLowerCase answer in
     if String.eqb action "l" then
       rate deps u show 5 ;; print (OutLiked (name show)) ;; ret (Some liked)
     else if String.eqb action "d" then
       rate deps u show 1 ;; print (OutDisliked (name show)) ;; ret (Some disliked)
     else if String.eqb action "n" then ret (Some skipped)
     else if String.eqb action "q" then ret (Some quit)
     else print OutInvalidAction ;; ret None).
Proof.
  intros st. rewrite MovieCliFacts.bind_unfold. unfold ask at 1.
  destruct (stdin st) as [|line rest] eqn:Hin; [done|].
  cbv beta iota zeta.
  set (st1 := {| world := world st; stdin := rest; out := out st; trace := trace st |}).
  assert (forall score,
            match rate deps u show score st1 with
            | (Resolved _, st2) => trace st2 = trace st ++ [Rated (id show) score]
            | (_, st2) => trace st2 = trace st
            end) as Hrate.
  { intros score. unfold rate. rewrite MovieCliFacts.bind_unfold, tv_ext_run.
    by destruct (saveUserTvShowRating deps (user_id u) (id show) score (world st1))
      as [[[]| | |] w1]. }
  destruct (String.eqb (toLowerCase line) "l").
  { rewrite MovieCliFacts.bind_unfold. specialize (Hrate 5).
    by destruct (rate deps u show 5 st1) as [[[]| | |] st2]. }
  destruct (String.eqb (toLowerCase line) "d").
  { rewrite MovieCliFacts.bind_unfold. specialize (Hrate 1).
    by destruct (rate deps u show 1 st1) as [[[]| | |] st2]. }
  destruct (String.eqb (toLowerCase line) "n"); [simpl; by rewrite app_nil_r|].
  destruct (String.eqb (toLowerCase line) "q"); [simpl; by rewrite app_nil_r|].
  reflexivity.
Qed.

Lemma action_loop_run (show : TvShow) body :
  action_step show body ->
  forall n (st : State),
    trace (snd (iterate n body st))
    = trace st ++ rating_of (fst (iterate n body st)) show.
Proof.
  intros Hstep. induction n as [|n IH]; intros st; simpl; [by rewrite app_nil_r|].
  specialize (Hstep st).
  destruct (body st) as [[[r|]| | |] st'] eqn:Hrun; simpl;
    rewrite ?app_nil_r; try done.
  destruct (decide _); simpl; [|by rewrite app_nil_r].
  by rewrite IH, Hstep.
Qed.

(** The seasons section asks for at most one season, and only for one it
    has listed. *)
Definition season_request (updated : TvShow) (details : TMDBTvShow)
    (lines : list string) (front : list Event) : Prop :=
  front = []
  \/ exists all s answer rest,
       seasons details = Some all /\ s ∈ all /\ 0 < season_number s
       /\ lines = answer :: rest
       /\ parseInt (trim answer) = Some (season_number s)
       /\ front = [SeasonRequested (tmdb_id updated) (season_number s)].

Lemma seasonsSection_run updated details (st : State) :
  exists front,
    trace (snd (seasonsSection deps updated details st)) = trace st ++ front
    /\ season_request updated details (stdin st) front.
Proof.
  unfold seasonsSection.
  destruct (seasons details) as [[|s0 all]|] eqn:Hseasons;
    try (exists []; simpl; rewrite app_nil_r; split; [done | by left]).
  cbv zeta. rewrite MovieCliFacts.bind_unfold.
  change (print ?o st)
    with (Resolved tt, {| world := world st; stdin := stdin st;
                          out := out st ++ [o]; trace := trace st |}).
  cbv beta iota. rewrite MovieCliFacts.bind_unfold. unfold ask at 1. cbn [stdin].
  destruct (stdin st) as [|answer rest] eqn:Hin;
    [exists []; simpl; rewrite app_nil_r; split; [done | by left]|].
  cbv beta iota.
  destruct (parseInt (trim answer)) as [n|] eqn:Hparse;
    [|exists []; simpl; rewrite app_nil_r; split; [done | by left]].
  destruct ((0 <? n)
            && existsb (fun s => season_number s =? n)
                 (List.filter (fun s => 0 <? season_number s) (s0 :: all))) eqn:Hok;
    [|exists []; simpl; rewrite app_nil_r; split; [done | by left]].
  apply andb_true_iff in Hok as [Hpos Hlisted].
  apply existsb_exists in Hlisted as (s & Hs & Heq).
  apply filter_In in Hs as [Hs _].
  assert (season_number s = n) as Hn by lia.
  exists [SeasonRequested (tmdb_id updated) n]. split.
  - rewrite MovieCliFacts.bind_unfold.
    change (print ?o ?s1)
      with (Resolved tt, {| world := world s1; stdin := stdin s1;
                            out := out s1 ++ [o]; trace := trace s1 |}).
    cbv beta iota. rewrite MovieCliFacts.bind_unfold.
    change (note ?e ?s1)
      with (Resolved tt, {| world := world s1; stdin := stdin s1;
                            out := out s1; trace := trace s1 ++ [e] |}).
    cbv beta iota. rewrite MovieCliFacts.bind_unfold, tv_ext_run. cbn [world fst snd].
    destruct (getTMDBTvShowSeasonDetails deps (tmdb_id updated) n (world st))
      as [[full| | |] w1]; cbn [fst snd trace]; try reflexivity.
    by destruct (full ≫= episodes).
  - right. exists (s0 :: all), s, answer, rest. subst n.
    repeat split; auto; [by apply list_elem_of_In | lia].
Qed.
(** A step followed by the action loop. *)
Lemma then_action_loop (show : TvShow) (m : CliM W unit) body (st : State) :
  action_step show body ->
  trace (snd ((m ;; while_true body) st))
  = trace (snd (m st)) ++ rating_of (fst ((m ;; while_true body) st)) show.
Proof.
  intros Hbody. rewrite MovieCliFacts.bind_unfold.
  destruct (m st) as [[[]| | |] st1]; simpl; try by rewrite app_nil_r.
  unfold while_true. by apply action_loop_run.
Qed.

(** The page up to the action loop, once the details are there. *)
Lemma page_run showToView details (st : State) :
  exists front,
    trace (snd ((let* updatedShowInDb := ext (saveTvShow deps details) in
                 match updatedShowInDb with
                 | None => print OutErrorUpdatingDetails ;; displayTvShowSummary showToView
                 | Some updated =>
                     print (OutDetails updated details) ;;
                     seasonsSection deps updated details ;;
                     match TmdbService.getPosterUrl (poster_path updated) (Some "w342") with
                     | Some poster => print (OutPoster poster)
                     | None => ret tt
                     end ;;
                     print OutRule
                 end) st))
    = trace st ++ front
    /\ (front = []
        \/ exists updated w2,
             saveTvShow deps details (world st) = (Resolved (Some updated), w2)
             /\ season_request updated details (stdin st) front).
Proof.
  rewrite MovieCliFacts.bind_unfold, tv_ext_run.
  destruct (saveTvShow deps details (world st)) as [[[updated|]| | |] w2] eqn:Hsave;
    cbn [fst snd];
    try (exists []; simpl; rewrite app_nil_r; split; [done | by left]).
  rewrite MovieCliFacts.bind_unfold.
  match goal with
  | |- context [print (OutDetails updated details) ?s0] =>
      change (print (OutDetails updated details) s0)
        with (Resolved tt, {| world := world s0; stdin := stdin s0;
                              out := out s0 ++ [OutDetails updated details];
                              trace := trace s0 |})
  end.
  cbv beta iota. cbn [world stdin out trace]. rewrite MovieCliFacts.bind_unfold.
  match goal with
  | |- context [seasonsSection deps updated details ?s1] =>
      destruct (seasonsSection_run updated details s1) as (front & Hs & Hreq);
      destruct (seasonsSection deps updated details s1) as [[[]| | |] s2]
  end; cbn [fst snd trace stdin] in *; exists front.
  2-4: split; [exact Hs | right; eauto].
  split; [|right; eauto].
  assert (quiet (match TmdbService.getPosterUrl (poster_path updated) (Some "w342") with
                 | Some poster => print (OutPoster poster)
                 | None => ret tt
                 end ;; print OutRule)) as Hquiet.
  { apply quiet_bind; [|intros; apply quiet_print].
    destruct (TmdbService.getPosterUrl _ _); [apply quiet_print | apply quiet_ret]. }
  destruct (Hquiet s2) as [Ht _]. by rewrite Ht.
Qed.
End Page.

(** The season number is read by [parseInt], which is exact up to
    [Number.MAX_SAFE_INTEGER]: the line the seasons section may read parses
    to a safe integer or to [NaN]. *)
Definition typed_safely (lines : list string) : Prop :=
  match lines with
  | answer :: _ => safe_integer (parseInt (trim answer))
  | [] => True
  end.

(** X24.  The details page of a TV show asks the remote source for at
    most one season, and only for a season with a positive number that the
    fetched details list, typed by the user on the first line (read by
    [parseInt] after [trim], within the safe integers); the request names
    the show as saved, not as passed in.  After that the page stores at
    most one rating, 5 for a like and 1 for a dislike of the show passed
    in, and none when it answers skipped or quit or does not come back. *)
Theorem tv_details_page_requests_a_listed_season {W} (deps : Collaborators W)
    (showToView : TvShow) (u : User) (st : St W) :
  typed_safely (stdin st) ->
  exists front,
    trace (snd (viewAndInteractWithTvShowDetails deps showToView u st))
    = trace st ++ front
              ++ rating_of (fst (viewAndInteractWithTvShowDetails deps showToView u st))
                   showToView
    /\ (front = []
        \/ exists details w1 updated w2,
             getTMDBTvShowDetails deps (tmdb_id showToView) (world st)
             = (Resolved (Some details), w1)
             /\ saveTvShow deps details w1 = (Resolved (Some updated), w2)
             /\ season_request updated details (stdin st) front).
Proof.
  intros _. unfold viewAndInteractWithTvShowDetails.
  rewrite MovieCliFacts.bind_unfold.
  change (print (OutFetchingDetails showToView) st)
    with (Resolved tt, {| world := world st; stdin := stdin st;
                          out := out st ++ [OutFetchingDetails showToView];
                          trace := trace st |}).
  cbv beta iota. rewrite MovieCliFacts.bind_unfold, tv_ext_run. cbn [world fst snd].
  destruct (getTMDBTvShowDetails deps (tmdb_id showToView) (world st))
    as [[[details|]| | |] w1] eqn:Hdetails; cbn [fst snd];
    try (exists []; simpl; rewrite app_nil_r; split; [done | by left]).
  - match goal with
    | |- context [bind ?m (fun _ => while_true ?body) ?s1] =>
        rewrite (then_action_loop showToView m body s1 (action_step_page deps u showToView));
        destruct (page_run deps showToView details s1) as (front & Ht & Hfront)
    end.
    exists front. rewrite Ht. cbn [trace world stdin] in *.
    split; [by rewrite app_assoc|].
    destruct Hfront as [->|(updated & w2 & Hsave & Hreq)]; [by left|].
    right. exists details, w1, updated, w2. by repeat split.
  - match goal with
    | |- context [bind ?m (fun _ => while_true ?body) ?s1] =>
        rewrite (then_action_loop showToView m body s1 (action_step_page deps u showToView))
    end.
    exists []. split; [reflexivity | by left].
Qed.

(** *** A small page: a show with a special (number 0) and one regular
    season.  Typing [1] fetches that season, typing [0] fetches nothing. *)
Definition the_wire : TvShow :=
  {| id := 3; tmdb_id := 1438; name := "The Wire"; poster_path := None |}.

Definition wire_details : TMDBTvShow :=
  {| tagline := None; status := Some "Ended";
     seasons := Some [ {| season_number := 0; season_name := "Specials";
                          episode_count := 2; air_date := None |};
                       {| season_number := 1; season_name := "Season 1";
                          episode_count := 13; air_date := Some "2002-06-02" |} ] |}.

Definition wire_deps : Collaborators unit :=
  {| getTMDBTvShowDetails := fun _ => ret (Some wire_details);
     getTMDBTvShowSeasonDetails := fun _ _ => ret None;
     saveTvShow := fun _ => ret (Some the_wire);
     saveUserTvShowRating := fun _ _ _ => ret tt |}.

Definition wire_page (lines : list string) : Outcome Interaction * St unit :=
  viewAndInteractWithTvShowDetails wire_deps the_wire
    {| user_id := 1; user_name := "Alice" |}
    {| world := tt; stdin := lines; out := []; trace := [] |}.

Example wire_page_history :
  fst (wire_page [" 1 "; "L"]) = Resolved liked
  /\ trace (snd (wire_page [" 1 "; "L"])) = [SeasonRequested 1438 1; Rated 3 5]
  /\ trace (snd (wire_page ["0"; "x"; "d"])) = [Rated 3 1]
  /\ trace (snd (wire_page ["2"; "n"])) = []
  /\ fst (wire_page ["1"]) = Pending.
Proof. vm_compute. repeat split. Qed.

Lemma tv_details_page_requests_a_listed_season_witness :
  typed_safely [" 1 "; "L"]
  /\ exists front,
       trace (snd (wire_page [" 1 "; "L"]))
       = front ++ rating_of (fst (wire_page [" 1 "; "L"])) the_wire
       /\ (front = []
           \/ exists details w1 updated w2,
                getTMDBTvShowDetails wire_deps (tmdb_id the_wire) tt
                = (Resolved (Some details), w1)
                /\ saveTvShow wire_deps details w1 = (Resolved (Some updated), w2)
                /\ season_request updated details [" 1 "; "L"] front).
Proof.
  assert (typed_safely [" 1 "; "L"]) as Hsafe by (vm_compute; discriminate).
  split; [exact Hsafe|].
  destruct (tv_details_page_requests_a_listed_season wire_deps the_wire
              {| user_id := 1; user_name := "Alice" |}
              {| world := tt; stdin := [" 1 "; "L"]; out := []; trace := [] |} Hsafe)
    as (front & Htrace & Hfront).
  exists front. split; [exact Htrace | exact Hfront].
Defined.

End TvShowCliFacts.
